(** * The contact-form submission gate of promo-frontend

    A shallow embedding of [src/lib/rate-limiter.ts], [src/lib/recaptcha.ts]
    and of the contact API route (the [POST] handler with its five
    protection layers), followed by the properties of the written
    specification that concern them; then of [src/lib/seo.ts] and of the
    Strapi API utilities, with further properties of all of this code.

    Conventions of the embedding.
    - A JavaScript string is a [string]; each character stands for one
      UTF-16 code unit, so [String.length] is the [.length] of the source.
    - JavaScript numbers that the code only ever uses as integers
      (timestamps in milliseconds, counters, HTTP statuses) are [Z];
      numbers that arrive inside JSON are [Q].
    - [Date.now()] is an input: pure functions take the reading as an
      argument [now], the handler reads it from the world it runs in.
    - Built-ins whose full definition lives in the JavaScript engine
      ([toLowerCase], the white-space class, the string-to-number
      conversion) are the fields of the class [JsHost]; every theorem
      holds for any host.  [ExampleHost.host] is a concrete host used to
      run the definitions. *)

From Stdlib Require Import ZArith QArith String Ascii List Lia Bool.
From stdpp Require Import base tactics option list gmap strings pretty.
Import ListNotations.

Local Open Scope string_scope.
Local Open Scope Z_scope.

(** ** JavaScript values, as far as the route handles them *)

(** Values that [JSON.parse] can produce, and [undefined].  An object is
    the finite map of its own properties. *)
#[local] Set Warnings "-register-all".
Inductive JsValue :=
| JUndefined
| JNull
| JBool (b : bool)
| JNum (q : Q)
| JStr (s : string)
| JArr (items : list JsValue)
| JObj (fields : gmap string JsValue).

Inductive JsError :=
| TypeError        (* property read on null or undefined, call of a non-function *)
| FetchFailed      (* the promise of [fetch] rejects *)
| JsonParseFailed. (* the promise of [.json()] rejects *)

(** ToBoolean *)
Definition truthy (v : JsValue) : bool :=
  match v with
  | JUndefined | JNull => false
  | JBool b => b
  | JNum q => negb (Qeq_bool q 0)
  | JStr s => negb (String.eqb s "")
  | JArr _ | JObj _ => true
  end.

(** [typeof v === 'string'] *)
Definition isString (v : JsValue) : bool :=
  match v with JStr _ => true | _ => false end.

(** [v === true] *)
Definition isTrue (v : JsValue) : bool :=
  match v with JBool true => true | _ => false end.

(** [v === 0] *)
Definition isZero (v : JsValue) : bool :=
  match v with JNum q => Qeq_bool q 0 | _ => false end.

(** The property read [v.p], for the property names the route uses
    (none of them is inherited from a prototype; [length] is an own
    property of strings and arrays). *)
Definition getProp (v : JsValue) (p : string) : JsError + JsValue :=
  match v with
  | JUndefined | JNull => inl TypeError
  | JObj fields => inr (default JUndefined (fields !! p))
  | JStr s =>
      inr (if String.eqb p "length" then JNum (inject_Z (Z.of_nat (String.length s)))
           else JUndefined)
  | JArr items =>
      inr (if String.eqb p "length" then JNum (inject_Z (Z.of_nat (length items)))
           else JUndefined)
  | JBool _ | JNum _ => inr JUndefined
  end.

(** The string that a value of type [string | undefined] becomes in a
    template literal or inside [URLSearchParams]. *)
Definition jsString (s : option string) : string :=
  match s with Some s => s | None => "undefined" end.

(** An object literal handed to [JSON.stringify]: members whose value is
    [undefined] are left out. *)
Definition jsonObject (fields : list (string * JsValue)) : JsValue :=
  JObj (list_to_map
          (List.filter (λ kv, match kv.2 with JUndefined => false | _ => true end) fields)).

(** ** The host: JavaScript built-ins *)

Class JsHost := {
  (** [String.prototype.toLowerCase] *)
  toLowerCase : string → string;
  (** membership of a code unit in WhiteSpace ∪ LineTerminator, the set
      stripped by [trim] and matched by the regular-expression class \s *)
  isWhiteSpace : ascii → bool;
  (** the abstract operation StringToNumber; [None] is NaN *)
  StringToNumber : string → option Q;
  (** ToNumber of an array or an object, which goes through ToPrimitive
      and may throw *)
  ObjectToNumber : JsValue → JsError + option Q;
}.

Section Strings.
Context `{JsHost}.

Fixpoint trimStart (s : string) : string :=
  match s with
  | EmptyString => EmptyString
  | String c rest => if isWhiteSpace c then trimStart rest else s
  end.

Fixpoint trimEnd (s : string) : string :=
  match s with
  | EmptyString => EmptyString
  | String c rest =>
      match trimEnd rest with
      | EmptyString => if isWhiteSpace c then EmptyString else String c EmptyString
      | kept => String c kept
      end
  end.

(** [String.prototype.trim] *)
Definition trim (s : string) : string := trimEnd (trimStart s).
End Strings.

(** ** src/lib/rate-limiter.ts *)

Module RateLimiter.

Record RateLimitEntry := { count : Z; firstRequestAt : Z }.

Record RateLimitResult := { allowed : bool; remaining : Z; resetAt : Z }.

(** Configuration *)
Definition WINDOW_MS : Z := 60 * 60 * 1000.
Definition MAX_REQUESTS_PER_IP : Z := 5.
Definition MAX_REQUESTS_PER_EMAIL : Z := 3.

(** The period handed to [setInterval] for the cleanup: "every 15 minutes". *)
Definition CLEANUP_INTERVAL_MS : Z := 15 * 60 * 1000.

(** [now - entry.firstRequestAt > WINDOW_MS] *)
Definition expired (now : Z) (entry : RateLimitEntry) : Prop :=
  now - firstRequestAt entry > WINDOW_MS.

#[global] Instance expired_dec now entry : Decision (expired now entry).
Proof. unfold expired. apply _. Defined.

(** One run of the sweep over [rateLimitStore] at clock reading [now]. *)
Definition cleanupExpiredEntries (now : Z)
    (rateLimitStore : gmap string RateLimitEntry) : gmap string RateLimitEntry :=
  filter (λ kv : string * RateLimitEntry, ¬ expired now kv.2) rateLimitStore.

(** [Math.ceil((resetAt - Date.now()) / 1000)] on integers *)
Definition getResetTimeSeconds (now resetAt : Z) : Z :=
  - ((- (resetAt - now)) `div` 1000).

Section WithHost.
Context `{JsHost}.

(** [identifier.toLowerCase().trim()] *)
Definition storeKey (identifier : string) : string :=
  trim (toLowerCase identifier).

(** [checkRateLimit], with the store threaded through: the result
    and the store after the call. *)
Definition checkRateLimit (now : Z) (identifier : string) (maxRequests : Z)
    (rateLimitStore : gmap string RateLimitEntry)
    : RateLimitResult * gmap string RateLimitEntry :=
  let key := storeKey identifier in
  match rateLimitStore !! key with
  | None =>
      (* First request from this identifier *)
      ({| allowed := true; remaining := maxRequests - 1; resetAt := now + WINDOW_MS |},
       <[key := {| count := 1; firstRequestAt := now |}]> rateLimitStore)
  | Some entry =>
      if decide (expired now entry) then
        (* Reset the window *)
        ({| allowed := true; remaining := maxRequests - 1; resetAt := now + WINDOW_MS |},
         <[key := {| count := 1; firstRequestAt := now |}]> rateLimitStore)
      else if decide (count entry >= maxRequests) then
        ({| allowed := false; remaining := 0;
            resetAt := firstRequestAt entry + WINDOW_MS |},
         rateLimitStore)
      else
        let entry' := {| count := count entry + 1;
                         firstRequestAt := firstRequestAt entry |} in
        ({| allowed := true; remaining := maxRequests - count entry';
            resetAt := firstRequestAt entry' + WINDOW_MS |},
         <[key := entry']> rateLimitStore)
  end.

Definition checkIpRateLimit (now : Z) (ip : string) :=
  checkRateLimit now ("ip:" +:+ ip) MAX_REQUESTS_PER_IP.

Definition checkEmailRateLimit (now : Z) (email : string) :=
  checkRateLimit now ("email:" +:+ email) MAX_REQUESTS_PER_EMAIL.

(** *** Histories of the store

    What can happen to the process-wide store: a check, for any
    identifier and limit, or a run of the sweep. *)
Inductive StoreOp :=
| OpCheck (now : Z) (identifier : string) (maxRequests : Z)
| OpSweep (now : Z).

Definition applyOp (s : gmap string RateLimitEntry) (op : StoreOp)
    : gmap string RateLimitEntry :=
  match op with
  | OpCheck now identifier maxRequests => (checkRateLimit now identifier maxRequests s).2
  | OpSweep now => cleanupExpiredEntries now s
  end.

Definition runOps (ops : list StoreOp) (s : gmap string RateLimitEntry)
    : gmap string RateLimitEntry :=
  foldl applyOp s ops.

(** Is [op] a check that lands on [key]? *)
Definition checksKey (key : string) (op : StoreOp) : bool :=
  match op with
  | OpCheck _ identifier _ => bool_decide (storeKey identifier = key)
  | OpSweep _ => false
  end.

(** Number of checks on [key] in a history. *)
Definition checksOn (key : string) (ops : list StoreOp) : Z :=
  Z.of_nat (length (List.filter (checksKey key) ops)).

(** [op] happens inside the window that opened at [first]: the clock
    has not passed [first + WINDOW_MS] (the test the code applies),
    and when it is a check on [key] it uses the limit [maxRequests]. *)
Definition inWindow (first : Z) (key : string) (maxRequests : Z) (op : StoreOp) : Prop :=
  match op with
  | OpCheck now identifier m =>
      storeKey identifier = key → now - first ≤ WINDOW_MS ∧ m = maxRequests
  | OpSweep now => now - first ≤ WINDOW_MS
  end.

(** A check at [first] opens a window for [key]: the key has no
    entry, or its entry has expired. *)
Definition opensWindow (first : Z) (key : string)
    (s : gmap string RateLimitEntry) : Prop :=
  match s !! key with
  | None => True
  | Some entry => expired first entry
  end.

(** The entry of [key] after [n] checks in the window that opened at
    [first]: the count stops growing at the limit. *)
Definition counted (first maxRequests n : Z) (key : string)
    (s : gmap string RateLimitEntry) : Prop :=
  s !! key = Some {| count := Z.min n maxRequests; firstRequestAt := first |}.
End WithHost.

End RateLimiter.

(** ** The world a request runs in *)

Inductive FetchBody :=
| FormBody (params : list (string * string))   (* URLSearchParams *)
| JsonBody (v : JsValue).                      (* JSON.stringify(v) *)

Record FetchRequest := {
  url : string;
  method : string;
  requestHeaders : list (string * string);
  requestBody : FetchBody;
}.

Record FetchResponse := {
  ok : bool;
  (** what [response.json()] resolves to; [None] when it rejects *)
  payload : option JsValue;
}.

Inductive FetchOutcome :=
| FetchRejects
| FetchResolves (response : FetchResponse).

(** The calls a run makes, as a spy on the collaborators would note
    them. *)
Inductive Event :=
| EvFetch (request : FetchRequest)
| EvVerifyRecaptcha (token : string) (secretKey remoteIp : option string)
| EvCheckRateLimit (identifier : string) (maxRequests : Z) (now : Z)
| EvGetResetTimeSeconds (resetAt : Z) (now : Z).

Record World := {
  (** the module-level [Map] of the rate limiter *)
  rateLimitStore : gmap string RateLimiter.RateLimitEntry;
  (** [clock n] is what the [n]-th call of [Date.now()] returns *)
  clock : nat → Z;
  ticks : nat;
  (** [network n request] is how the [n]-th [fetch] ends *)
  network : nat → FetchRequest → FetchOutcome;
  fetches : nat;
  (** calls made so far, oldest first *)
  trace : list Event;
}.

(** Computations of the route: they read and change the world and end
    with a value or a thrown error.  An [await] is a sequencing point;
    one request is run from start to end. *)
Definition M (A : Type) : Type := World → (JsError + A) * World.

Definition ret {A} (a : A) : M A := λ w, (inr a, w).

Definition throw {A} (e : JsError) : M A := λ w, (inl e, w).

Definition bind {A B} (m : M A) (k : A → M B) : M B :=
  λ w, match m w with
       | (inr a, w') => k a w'
       | (inl e, w') => (inl e, w')
       end.

Definition tryCatch {A} (body : M A) (handler : JsError → M A) : M A :=
  λ w, match body w with
       | (inr a, w') => (inr a, w')
       | (inl e, w') => handler e w'
       end.

Definition liftE {A} (r : JsError + A) : M A := λ w, (r, w).

Notation "'let!' x ':=' m 'in' k" := (bind m (λ x, k))
  (at level 10, x name, m at level 100, k at level 200, only parsing).

Definition record (e : Event) : M unit :=
  λ w, (inr tt,
        {| rateLimitStore := rateLimitStore w; clock := clock w; ticks := ticks w;
           network := network w; fetches := fetches w; trace := (trace w ++ [e])%list |}).

(** [Date.now()] *)
Definition Date_now : M Z :=
  λ w, (inr (clock w (ticks w)),
        {| rateLimitStore := rateLimitStore w; clock := clock w; ticks := S (ticks w);
           network := network w; fetches := fetches w; trace := trace w |}).

(** [await fetch(url, init)] *)
Definition fetch (request : FetchRequest) : M FetchResponse :=
  λ w, let w' := {| rateLimitStore := rateLimitStore w; clock := clock w; ticks := ticks w;
                    network := network w; fetches := S (fetches w);
                    trace := (trace w ++ [EvFetch request])%list |} in
       match network w (fetches w) request with
       | FetchRejects => (inl FetchFailed, w')
       | FetchResolves response => (inr response, w')
       end.

(** [await response.json()] *)
Definition responseJson (response : FetchResponse) : M JsValue :=
  match payload response with
  | Some v => ret v
  | None => throw JsonParseFailed
  end.

(** A function of the rate limiter that takes the store and returns it
    changed, run on the store of the world. *)
Definition onStore {A}
    (f : gmap string RateLimiter.RateLimitEntry → A * gmap string RateLimiter.RateLimitEntry)
    : M A :=
  λ w, let '(a, s) := f (rateLimitStore w) in
       (inr a,
        {| rateLimitStore := s; clock := clock w; ticks := ticks w;
           network := network w; fetches := fetches w; trace := trace w |}).

(** ** src/lib/recaptcha.ts *)

Module Recaptcha.

(** The object [verifyRecaptcha] returns.  The members are whatever
    the reply of the service holds: TypeScript's interface
    (boolean, number, string[], string) is not checked at run time. *)
Record RecaptchaVerificationResult := {
  success : JsValue;
  score : JsValue;
  errorCodes : JsValue;
  challengeTs : JsValue;
  hostname : JsValue;
}.

Definition RECAPTCHA_VERIFY_URL : string :=
  "https://www.google.com/recaptcha/api/siteverify".

(** What the [catch] block returns. *)
Definition verificationError : RecaptchaVerificationResult :=
  {| success := JBool false;
     score := JUndefined;
     errorCodes := JArr [JStr "verification_error"];
     challengeTs := JUndefined;
     hostname := JUndefined |}.

(** The request to the verification service: a form-encoded POST of
    [secret], [response] and, when [remoteIp] is given, [remoteip]. *)
Definition siteverifyRequest (token : string) (secretKey remoteIp : option string)
    : FetchRequest :=
  {| url := RECAPTCHA_VERIFY_URL;
     method := "POST";
     requestHeaders := [("Content-Type", "application/x-www-form-urlencoded")];
     requestBody :=
       FormBody ([("secret", jsString secretKey); ("response", token)]
                 ++ match remoteIp with
                    | Some ip => if String.eqb ip "" then [] else [("remoteip", ip)]
                    | None => []
                    end)%list |}.

Definition verifyRecaptcha (token : string) (secretKey remoteIp : option string)
    : M RecaptchaVerificationResult :=
  let! _ := record (EvVerifyRecaptcha token secretKey remoteIp) in
  tryCatch
    (let! response := fetch (siteverifyRequest token secretKey remoteIp) in
     let! result := responseJson response in
     let! success := liftE (getProp result "success") in
     let! score := liftE (getProp result "score") in
     let! errorCodes := liftE (getProp result "error-codes") in
     let! challengeTs := liftE (getProp result "challenge_ts") in
     let! hostname := liftE (getProp result "hostname") in
     ret {| success := success; score := score; errorCodes := errorCodes;
            challengeTs := challengeTs; hostname := hostname |})
    (λ _, ret verificationError).

(** [result.success === true &&
     (!result.errorCodes || result.errorCodes.length === 0)] *)
Definition isRecaptchaValid (result : RecaptchaVerificationResult) : bool :=
  isTrue (success result)
  && (negb (truthy (errorCodes result))
      || match getProp (errorCodes result) "length" with
         | inr len => isZero len
         | inl _ => false
         end).

(** The [errorCodes] member of a result that has the type of the
    interface, [string[] | undefined]. *)
Definition codesValue (codes : option (list string)) : JsValue :=
  match codes with
  | None => JUndefined
  | Some codes => JArr (JStr <$> codes)
  end.

End Recaptcha.

(** ** The contact API route: [POST]

    Writes to the console are left out: they change nothing the route
    returns or calls. *)

Module ContactRoute.
Import RateLimiter Recaptcha.

(** [import.meta.env] and [process.env], read once when the module loads. *)
Record Env := {
  env_DEV : bool;                            (* import.meta.env.DEV *)
  env_NODE_ENV : option string;              (* process.env.NODE_ENV *)
  env_STRAPI_URL : option string;
  env_PUBLIC_STRAPI_URL : option string;
  env_STRAPI_API_TOKEN : option string;
  env_RECAPTCHA_SECRET_KEY : option string;
}.

(** What the handler works on once its parameters are bound. *)
Record Request := {
  (** the value the parameter list has read from the context; the read
      itself is [Endpoint.destructure] ([undefined] is [None]) *)
  clientAddress : option string;
  (** [request.headers.get("x-forwarded-for")]: [inr None] is [null],
      [inl] a read that throws *)
  xForwardedFor : JsError + option string;
  (** [await request.json()]; [None] when it rejects *)
  requestJson : option JsValue;
}.

(** [new Response(JSON.stringify(body), { status, headers })] *)
Record Response := {
  status : Z;
  headers : list (string * string);
  body : JsValue;
}.

Definition jsonResponse (status : Z) (body : JsValue) : Response :=
  {| status := status; headers := [("Content-Type", "application/json")]; body := body |}.

Definition errorResponse (status : Z) (message : string) : Response :=
  jsonResponse status (jsonObject [("error", JStr message)]).

Definition rateLimitResponse (message : string) (resetSeconds : Z) : Response :=
  {| status := 429;
     headers := [("Content-Type", "application/json");
                 ("Retry-After", pretty resetSeconds)];
     body := jsonObject [("error", JStr message);
                         ("retryAfter", JNum (inject_Z resetSeconds))] |}.

(** ToBoolean of a value of type [string | undefined] *)
Definition present (s : option string) : bool :=
  match s with Some s => negb (String.eqb s "") | None => false end.

(** [s.replace(/c/g, by)] for a single character [c] *)
Fixpoint replaceAll (c : ascii) (by_ : string) (s : string) : string :=
  match s with
  | EmptyString => EmptyString
  | String a rest =>
      if Ascii.eqb a c then by_ +:+ replaceAll c by_ rest
      else String a (replaceAll c by_ rest)
  end.

(** The double quote. *)
Definition dquote : ascii := "034"%char.

Definition sanitizeInput (input : string) : string :=
  replaceAll "'" "&#039;"
    (replaceAll dquote "&quot;"
       (replaceAll ">" "&gt;"
          (replaceAll "<" "&lt;"
             (replaceAll "&" "&amp;" input)))).

(** The entity that stands for one character in the output of
    [sanitizeInput]. *)
Definition escapeChar (c : ascii) : string :=
  if Ascii.eqb c "&" then "&amp;"
  else if Ascii.eqb c "<" then "&lt;"
  else if Ascii.eqb c ">" then "&gt;"
  else if Ascii.eqb c dquote then "&quot;"
  else if Ascii.eqb c "'" then "&#039;"
  else String c EmptyString.

(** [s.split(",")[0]] *)
Fixpoint beforeComma (s : string) : string :=
  match s with
  | EmptyString => EmptyString
  | String c rest => if Ascii.eqb c "," then EmptyString else String c (beforeComma rest)
  end.

Section WithHost.
Context `{JsHost}.

(** *** The regular expression [/^[^\s@]+@[^\s@]+\.[^\s@]+$/] *)

(** the class [[^\s@]] *)
Definition plainChar (c : ascii) : bool :=
  negb (isWhiteSpace c) && negb (Ascii.eqb c "@").

Fixpoint allPlain (s : string) : bool :=
  match s with
  | EmptyString => true
  | String c rest => plainChar c && allPlain rest
  end.

(** some dot of [s] is followed by at least one more character *)
Fixpoint dotThenMore (s : string) : bool :=
  match s with
  | EmptyString => false
  | String c rest =>
      (Ascii.eqb c "." && negb (String.eqb rest "")) || dotThenMore rest
  end.

(** [[^\s@]+\.[^\s@]+$] *)
Definition domainShape (s : string) : bool :=
  allPlain s && match s with
                | EmptyString => false
                | String _ rest => dotThenMore rest
                end.

Fixpoint emailFrom (seenLocal : bool) (s : string) : bool :=
  match s with
  | EmptyString => false
  | String c rest =>
      if Ascii.eqb c "@" then seenLocal && domainShape rest
      else if isWhiteSpace c then false
      else emailFrom true rest
  end.

Definition emailRegex_test (email : string) : bool := emailFrom false email.

(** *** Relational comparison of a value with a number *)

(** ToNumber; [None] is NaN. *)
Definition toNumber (v : JsValue) : JsError + option Q :=
  match v with
  | JUndefined => inr None
  | JNull => inr (Some 0%Q)
  | JBool b => inr (Some (if b then 1%Q else 0%Q))
  | JNum q => inr (Some q)
  | JStr s => inr (StringToNumber s)
  | JArr _ | JObj _ => ObjectToNumber v
  end.

(** [v > k] *)
Definition greaterThan (v : JsValue) (k : Z) : M bool :=
  let! n := liftE (toNumber v) in
  ret match n with
      | Some q => negb (Qle_bool q (inject_Z k))
      | None => false
      end.

(** [v < k] *)
Definition lessThan (v : JsValue) (k : Z) : M bool :=
  let! n := liftE (toNumber v) in
  ret match n with
      | Some q => negb (Qle_bool (inject_Z k) q)
      | None => false
      end.

(** [v.trim()]: a method of strings only *)
Definition callTrim (v : JsValue) : M string :=
  match v with
  | JStr s => ret (trim s)
  | _ => throw TypeError
  end.

(** *** The rate limiter, as the route calls it *)

Definition checkRateLimitM (identifier : string) (maxRequests : Z)
    : M RateLimitResult :=
  let! now := Date_now in
  let! _ := record (EvCheckRateLimit identifier maxRequests now) in
  onStore (checkRateLimit now identifier maxRequests).

Definition checkIpRateLimitM (ip : string) : M RateLimitResult :=
  checkRateLimitM ("ip:" +:+ ip) MAX_REQUESTS_PER_IP.

Definition checkEmailRateLimitM (email : string) : M RateLimitResult :=
  checkRateLimitM ("email:" +:+ email) MAX_REQUESTS_PER_EMAIL.

Definition getResetTimeSecondsM (resetAt : Z) : M Z :=
  let! now := Date_now in
  let! _ := record (EvGetResetTimeSeconds resetAt now) in
  ret (getResetTimeSeconds now resetAt).

(** *** Module-level constants *)

Variable env : Env.

Definition STRAPI_URL : string :=
  if present (env_STRAPI_URL env) then default "" (env_STRAPI_URL env)
  else if present (env_PUBLIC_STRAPI_URL env) then default "" (env_PUBLIC_STRAPI_URL env)
  else "http://localhost:1337".

Definition STRAPI_API_TOKEN : option string := env_STRAPI_API_TOKEN env.

Definition RECAPTCHA_SECRET_KEY : option string := env_RECAPTCHA_SECRET_KEY env.

(** [import.meta.env.DEV || process.env.NODE_ENV === 'development'] *)
Definition IS_DEV : bool :=
  env_DEV env || bool_decide (env_NODE_ENV env = Some "development").

(** [!IS_DEV || (RECAPTCHA_SECRET_KEY &&
                 RECAPTCHA_SECRET_KEY !== 'your_secret_key_here')],
    as the [if] reads it *)
Definition REQUIRE_CAPTCHA : bool :=
  negb IS_DEV
  || (present RECAPTCHA_SECRET_KEY
      && negb (bool_decide (RECAPTCHA_SECRET_KEY = Some "your_secret_key_here"))).

(** *** The handler, last layer first *)

(** Forward to Strapi *)
Definition forwardToStrapi (sanitizedData : JsValue) (email : string) : M Response :=
  let! strapiResponse :=
    fetch {| url := STRAPI_URL +:+ "/api/contactmsgs";
             method := "POST";
             requestHeaders :=
               [("Content-Type", "application/json");
                ("Authorization", "Bearer " +:+ jsString STRAPI_API_TOKEN)];
             requestBody := JsonBody (jsonObject [("data", sanitizedData)]) |} in
  if negb (ok strapiResponse) then
    let! errorData := tryCatch (responseJson strapiResponse) (λ _, ret (JObj ∅)) in
    ret (jsonResponse 500
           (jsonObject [("error", JStr "Failed to submit message");
                        ("details", errorData)]))
  else
    let! result := responseJson strapiResponse in
    let! data := liftE (getProp result "data") in
    ret (jsonResponse 200
           (jsonObject [("success", JBool true);
                        ("message", JStr "Your message has been sent successfully");
                        ("data", data)])).

(** LAYER 5: Input Validation, then sanitization *)
Definition layer5 (body : JsValue) (email : string) : M Response :=
  let! name := liftE (getProp body "name") in
  let! subject := liftE (getProp body "subject") in
  let! message := liftE (getProp body "message") in
  if negb (truthy name) || negb (truthy subject) || negb (truthy message) then
    ret (errorResponse 400 "All fields are required")
  else
    let! nameLength := liftE (getProp name "length") in
    let! nameTooLong := greaterThan nameLength 100 in
    if nameTooLong then
      ret (errorResponse 400 "Name is too long (max 100 characters)")
    else
      let! subjectLength := liftE (getProp subject "length") in
      let! subjectTooLong := greaterThan subjectLength 200 in
      if subjectTooLong then
        ret (errorResponse 400 "Subject is too long (max 200 characters)")
      else
        let! messageLength := liftE (getProp message "length") in
        let! messageTooLong := greaterThan messageLength 2000 in
        let! messageOutOfBounds :=
          (if messageTooLong then ret true else lessThan messageLength 10) in
        if messageOutOfBounds then
          ret (errorResponse 400 "Message must be between 10 and 2000 characters")
        else if negb (emailRegex_test email) then
          ret (errorResponse 400 "Invalid email format")
        else
          let! trimmedName := callTrim name in
          let trimmedEmail := trim email in
          let! trimmedSubject := callTrim subject in
          let! trimmedMessage := callTrim message in
          let sanitizedData :=
            jsonObject [("name", JStr (sanitizeInput trimmedName));
                        ("email", JStr trimmedEmail);
                        ("subject", JStr (sanitizeInput trimmedSubject));
                        ("message", JStr (sanitizeInput trimmedMessage));
                        ("msg-status", JStr "pending")] in
          forwardToStrapi sanitizedData email.

(** LAYER 4: Rate Limiting (Email) *)
Definition layer4 (body : JsValue) : M Response :=
  let! rawEmail := liftE (getProp body "email") in
  (* body.email?.toLowerCase().trim() *)
  let! email :=
    match rawEmail with
    | JUndefined | JNull => ret None
    | JStr s => ret (Some (trim (toLowerCase s)))
    | _ => throw TypeError
    end in
  if negb (present email) then
    ret (errorResponse 400 "Email is required")
  else
    let email := default "" email in
    let! emailRateLimit := checkEmailRateLimitM email in
    if negb (allowed emailRateLimit) then
      let! resetSeconds := getResetTimeSecondsM (resetAt emailRateLimit) in
      ret (rateLimitResponse "Too many submissions from this email" resetSeconds)
    else
      layer5 body email.

(** LAYER 3: Rate Limiting (IP) *)
Definition layer3 (body : JsValue) (ip : string) : M Response :=
  let! ipRateLimit := checkIpRateLimitM ip in
  if negb (allowed ipRateLimit) then
    let! resetSeconds := getResetTimeSecondsM (resetAt ipRateLimit) in
    ret (rateLimitResponse "Too many requests" resetSeconds)
  else
    layer4 body.

(** [!t || typeof t !== 'string' || t.trim() === ''] *)
Definition tokenMissing (recaptchaToken : JsValue) : bool :=
  negb (truthy recaptchaToken)
  || negb (isString recaptchaToken)
  || match recaptchaToken with
     | JStr t => String.eqb (trim t) ""
     | _ => false
     end.

(** LAYER 2: reCAPTCHA Verification *)
Definition layer2 (body : JsValue) (ip : string) : M Response :=
  if REQUIRE_CAPTCHA then
    let! recaptchaToken := liftE (getProp body "recaptchaToken") in
    if tokenMissing recaptchaToken then
      ret (errorResponse 400 "reCAPTCHA verification required")
    else
      match recaptchaToken with
      | JStr token =>
          let! recaptchaResult :=
            verifyRecaptcha token RECAPTCHA_SECRET_KEY (Some ip) in
          if negb (isRecaptchaValid recaptchaResult) then
            ret (errorResponse 400 "reCAPTCHA verification failed")
          else
            layer3 body ip
      | _ =>
          (* not reached: a token that is not a string is missing *)
          ret (errorResponse 400 "reCAPTCHA verification required")
      end
  else
    layer3 body ip.

(** LAYER 1: Honeypot Check; [body.website_url || body.website] *)
Definition layer1 (body : JsValue) (ip : string) : M Response :=
  let! website_url := liftE (getProp body "website_url") in
  let! website := liftE (getProp body "website") in
  if truthy website_url || truthy website then
    ret (errorResponse 400 "Submission rejected")
  else
    layer2 body ip.

(** Get IP address with fallbacks:
    [clientAddress ||
     request.headers.get("x-forwarded-for")?.split(",")[0]?.trim() ||
     "unknown"], inside its [try] *)
Definition clientIp (request : Request) : string :=
  if present (clientAddress request) then default "" (clientAddress request)
  else
    match xForwardedFor request with
    | inl _ => "unknown"
    | inr None => "unknown"
    | inr (Some forwarded) =>
        let first := trim (beforeComma forwarded) in
        if String.eqb first "" then "unknown" else first
    end.

(** The handler from its first statement on.  [Endpoint.callPOST] is the
    call of it, with the reading of its parameters. *)
Definition POST (request : Request) : M Response :=
  let ip := clientIp request in
  (* Check required config *)
  if negb (present STRAPI_API_TOKEN) then
    ret (errorResponse 500 "Server configuration error")
  else
    tryCatch
      (let! body :=
         match requestJson request with
         | Some v => ret v
         | None => throw JsonParseFailed
         end in
       layer1 body ip)
      (λ _, ret (errorResponse 500 "Internal server error")).

(** *** Vocabulary of the specification *)

(** A secret that is set and is not the placeholder of the sample
    configuration. *)
Definition usableSecret (key : option string) : bool :=
  present key && negb (bool_decide (key = Some "your_secret_key_here")).

(** The token is missing, is not a string, or is blank. *)
Definition noToken (recaptchaToken : JsValue) : Prop :=
  isString recaptchaToken = false ∨ ∃ s, recaptchaToken = JStr s ∧ trim s = "".

(** The field [field] of the body is filled in: a non-empty string. *)
Definition filled (body : JsValue) (field : string) : Prop :=
  ∃ s, getProp body field = inr (JStr s) ∧ s ≠ "".

(** Both honeypot fields are absent or empty. *)
Definition honeypotEmpty (body : JsValue) : Prop :=
  ∃ u v, getProp body "website_url" = inr u ∧ getProp body "website" = inr v
         ∧ truthy u = false ∧ truthy v = false.

(** Layer 2 lets the request through and leaves the world [w1]:
    verification is not required, or the token was sent to the service
    and the answer is valid. *)
Definition captchaPasses (body : JsValue) (ip : string) (w w1 : World) : Prop :=
  (REQUIRE_CAPTCHA = false ∧ w1 = w)
  ∨ (REQUIRE_CAPTCHA = true
     ∧ ∃ token recaptchaResult,
         getProp body "recaptchaToken" = inr (JStr token)
         ∧ trim token ≠ ""
         ∧ verifyRecaptcha token RECAPTCHA_SECRET_KEY (Some ip) w
           = (inr recaptchaResult, w1)
         ∧ isRecaptchaValid recaptchaResult = true).
End WithHost.

(** Every event that [m] adds to the trace satisfies [P]. *)
Definition emits {A} (P : Event → Prop) (m : M A) : Prop :=
  ∀ w, ∃ events, trace (m w).2 = (trace w ++ events)%list ∧ Forall P events.

End ContactRoute.

(** ** A host to run the definitions on

    Strings over Latin-1.  Case mapping and white space are those of
    JavaScript on that range; the conversions to numbers cover unsigned
    decimal digit strings and the empty array, and answer NaN elsewhere. *)

Module ExampleHost.

Definition lowerChar (c : ascii) : ascii :=
  let n := N_of_ascii c in
  if ((65 <=? n) && (n <=? 90) || (192 <=? n) && (n <=? 222) && negb (n =? 215))%N
  then ascii_of_N (n + 32) else c.

Fixpoint lower (s : string) : string :=
  match s with
  | EmptyString => EmptyString
  | String c rest => String (lowerChar c) (lower rest)
  end.

Definition whiteSpace (c : ascii) : bool :=
  let n := N_of_ascii c in
  ((9 <=? n) && (n <=? 13) || (n =? 32) || (n =? 160))%N.

Fixpoint digits (acc : Z) (s : string) : option Z :=
  match s with
  | EmptyString => Some acc
  | String c rest =>
      let n := Z.of_N (N_of_ascii c) in
      if (48 <=? n) && (n <=? 57) then digits (10 * acc + (n - 48)) rest else None
  end.

#[export] Instance host : JsHost := {|
  toLowerCase := lower;
  isWhiteSpace := whiteSpace;
  StringToNumber := λ s, inject_Z <$> digits 0 s;
  ObjectToNumber := λ v, match v with JArr [] => inr (Some 0%Q) | _ => inr None end;
|}.

End ExampleHost.

(** ** Concrete requests and worlds *)

Module Examples.
Import RateLimiter Recaptcha ContactRoute.

(** Development: no secret, CAPTCHA not required. *)
Definition devEnv : Env :=
  {| env_DEV := true; env_NODE_ENV := Some "development";
     env_STRAPI_URL := Some "http://strapi.internal:1337"; env_PUBLIC_STRAPI_URL := None;
     env_STRAPI_API_TOKEN := Some "t0ken"; env_RECAPTCHA_SECRET_KEY := None |}.

(** Production, fully configured. *)
Definition prodEnv : Env :=
  {| env_DEV := false; env_NODE_ENV := Some "production";
     env_STRAPI_URL := Some "http://strapi.internal:1337"; env_PUBLIC_STRAPI_URL := None;
     env_STRAPI_API_TOKEN := Some "t0ken"; env_RECAPTCHA_SECRET_KEY := Some "s3cret" |}.

(** Production with the Strapi token left out. *)
Definition prodEnvWithoutToken : Env :=
  {| env_DEV := false; env_NODE_ENV := Some "production";
     env_STRAPI_URL := Some "http://strapi.internal:1337"; env_PUBLIC_STRAPI_URL := None;
     env_STRAPI_API_TOKEN := None; env_RECAPTCHA_SECRET_KEY := Some "s3cret" |}.

Definition validBody : JsValue :=
  jsonObject [("name", JStr "Anna"); ("email", JStr "Anna@Example.com");
              ("subject", JStr "Coupons");
              ("message", JStr "Where do I enter the code?")].

Definition botBody : JsValue :=
  jsonObject [("name", JStr "Bot"); ("email", JStr "bot@spam.example");
              ("subject", JStr "Buy"); ("message", JStr "Cheap pills, click here");
              ("website_url", JStr "http://spam.example")].

(** A request from a known address. *)
Definition requestFrom (ip : string) (body : JsValue) : Request :=
  {| clientAddress := Some ip; xForwardedFor := inr None; requestJson := Some body |}.

(** A world with the given store and clock, where every [fetch] fails. *)
Definition offlineWorld (store : gmap string RateLimitEntry) (clock : nat → Z) : World :=
  {| rateLimitStore := store; clock := clock; ticks := 0;
     network := λ _ _, FetchRejects; fetches := 0; trace := [] |}.

(** A world with an empty store whose clock ticks from 1000 on and
    whose every [fetch] ends as [outcome]. *)
Definition onlineWorld (outcome : FetchOutcome) : World :=
  {| rateLimitStore := ∅; clock := λ n, 1000 + Z.of_nat n; ticks := 0;
     network := λ _ _, outcome; fetches := 0; trace := [] |}.

(** Strapi stores the message and answers with the new entry. *)
Definition strapiCreated : FetchOutcome :=
  FetchResolves {| ok := true;
                   payload := Some (jsonObject [("data", jsonObject [("id", JNum 7)])]) |}.

(** Strapi answers 503 with an error body. *)
Definition strapiUnavailable : FetchOutcome :=
  FetchResolves {| ok := false;
                   payload := Some (jsonObject [("error", JStr "Service Unavailable")]) |}.

Definition shortMessageBody : JsValue :=
  jsonObject [("name", JStr "Anna"); ("email", JStr "anna@example.com");
              ("subject", JStr "Coupons"); ("message", JStr "Too short")].

Definition clientIpAddress : string := "203.0.113.7".

(** Four more checks of the same address, one a minute, with a sweep
    and a check of somebody else in between. *)
Definition fourMoreChecks : list StoreOp :=
  [OpCheck 60000 "ip:203.0.113.7" 5; OpCheck 120000 "ip:203.0.113.7" 5;
   OpSweep 150000; OpCheck 160000 "email:anna@example.com" 3;
   OpCheck 180000 "ip:203.0.113.7" 5; OpCheck 240000 "ip:203.0.113.7" 5].

(** The store after five checks of the address, the first at time 0. *)
Definition afterFiveChecks : gmap string RateLimitEntry :=
  runOps (H := ExampleHost.host) fourMoreChecks
    (checkIpRateLimit (H := ExampleHost.host) 0 clientIpAddress ∅).2.

End Examples.

(** ** src/lib/seo.ts *)

Module Seo.

(** [SITE_CONFIG] *)
Inductive Locale := lv | en | ru.

Definition SITE_URL : string := "https://promocode.lv".
Definition locales : list Locale := [lv; en; ru].
Definition defaultLocale : Locale := lv.
Definition hreflangDefaultLocale : Locale := lv.

(** The string a locale is. *)
Definition localeCode (locale : Locale) : string :=
  match locale with lv => "lv" | en => "en" | ru => "ru" end.

Definition HREFLANG_MAP (locale : Locale) : string :=
  match locale with lv => "lv" | en => "en" | ru => "ru" end.

Definition HTML_LANG_MAP (locale : Locale) : string :=
  match locale with lv => "lv-LV" | en => "en-US" | ru => "ru-RU" end.

Definition getHreflang (locale : Locale) : string := HREFLANG_MAP locale.

Definition getHtmlLang (locale : Locale) : string := HTML_LANG_MAP locale.

(** [s.replace(c, by)] for a one-character string pattern: the first
    occurrence only *)
Fixpoint replaceFirst (c : ascii) (by_ : string) (s : string) : string :=
  match s with
  | EmptyString => EmptyString
  | String a rest =>
      if Ascii.eqb a c then by_ +:+ rest else String a (replaceFirst c by_ rest)
  end.

Definition getOgLocale (locale : Locale) : string :=
  replaceFirst "-" "_" (HTML_LANG_MAP locale).

(** [s.startsWith(prefix)] *)
Fixpoint startsWith (prefix s : string) : bool :=
  match prefix, s with
  | EmptyString, _ => true
  | String a prefix', String b s' => Ascii.eqb a b && startsWith prefix' s'
  | String _ _, EmptyString => false
  end.

(** [s.endsWith("/")] *)
Fixpoint endsWithSlash (s : string) : bool :=
  match s with
  | EmptyString => false
  | String a EmptyString => Ascii.eqb a "/"
  | String _ rest => endsWithSlash rest
  end.

Definition buildAbsoluteUrl (path : string) : string :=
  let cleanPath := if startsWith "/" path then path else "/" +:+ path in
  SITE_URL +:+ cleanPath.

(** [LocaleSlugs]: the members the functions read *)
Record LocaleSlugs := {
  slug_lv : option string;
  slug_en : option string;
  slug_ru : option string;
}.

(** [localeSlugs[locale]] *)
Definition slugOf (localeSlugs : LocaleSlugs) (locale : Locale) : option string :=
  match locale with
  | lv => slug_lv localeSlugs
  | en => slug_en localeSlugs
  | ru => slug_ru localeSlugs
  end.

Record Alternate := { hreflang : string; href : string }.

(** [s.split(c)] *)
Fixpoint splitOn (c : ascii) (s : string) : list string :=
  match s with
  | EmptyString => [EmptyString]
  | String a rest =>
      if Ascii.eqb a c then EmptyString :: splitOn c rest
      else match splitOn c rest with
           | part :: parts => String a part :: parts
           | [] => [String a EmptyString]
           end
  end.

(** [parts.join(sep)] *)
Fixpoint join (sep : string) (parts : list string) : string :=
  match parts with
  | [] => EmptyString
  | [part] => part
  | part :: rest => part +:+ sep +:+ join sep rest
  end.

(** [basePath.split('/').filter(Boolean).slice(1).join('/')] *)
Definition pathWithoutLocale (basePath : string) : string :=
  join "/" (tail (List.filter (λ part, negb (String.eqb part "")) (splitOn "/" basePath))).

(** The unused [path] of the source is left out: it is computed from
    [basePath] and read nowhere. *)
Definition generateHreflangAlternates (basePath : string) (localeSlugs : LocaleSlugs)
    : list Alternate :=
  let alternates :=
    flat_map
      (λ locale,
         if ContactRoute.present (slugOf localeSlugs locale) then
           let fullPath :=
             "/" +:+ localeCode locale +:+ "/" +:+ pathWithoutLocale basePath in
           [{| hreflang := getHreflang locale; href := buildAbsoluteUrl fullPath |}]
         else [])
      locales in
  (alternates
   ++ if ContactRoute.present (slugOf localeSlugs hreflangDefaultLocale) then
        let defaultPath :=
          "/" +:+ localeCode hreflangDefaultLocale +:+ "/"
          +:+ pathWithoutLocale basePath in
        [{| hreflang := "x-default"; href := buildAbsoluteUrl defaultPath |}]
      else [])%list.

Definition generateCategoryHreflang (localeSlugs : LocaleSlugs) : list Alternate :=
  let alternates :=
    flat_map
      (λ locale,
         if ContactRoute.present (slugOf localeSlugs locale) then
           [{| hreflang := getHreflang locale;
               href := buildAbsoluteUrl
                         ("/" +:+ localeCode locale +:+ "/categories/"
                          +:+ default "" (slugOf localeSlugs locale) +:+ "/") |}]
         else [])
      locales in
  (alternates
   ++ if ContactRoute.present (slugOf localeSlugs hreflangDefaultLocale) then
        [{| hreflang := "x-default";
            href := buildAbsoluteUrl
                      ("/" +:+ localeCode hreflangDefaultLocale +:+ "/categories/"
                       +:+ default "" (slugOf localeSlugs hreflangDefaultLocale)
                       +:+ "/") |}]
      else [])%list.

Definition generateBrandHreflang (localeSlugs : LocaleSlugs) : list Alternate :=
  let alternates :=
    flat_map
      (λ locale,
         if ContactRoute.present (slugOf localeSlugs locale) then
           [{| hreflang := getHreflang locale;
               href := buildAbsoluteUrl
                         ("/" +:+ localeCode locale +:+ "/brands/"
                          +:+ default "" (slugOf localeSlugs locale) +:+ "/") |}]
         else [])
      locales in
  (alternates
   ++ if ContactRoute.present (slugOf localeSlugs hreflangDefaultLocale) then
        [{| hreflang := "x-default";
            href := buildAbsoluteUrl
                      ("/" +:+ localeCode hreflangDefaultLocale +:+ "/brands/"
                       +:+ default "" (slugOf localeSlugs hreflangDefaultLocale)
                       +:+ "/") |}]
      else [])%list.

Definition generateFooterLinkHreflang (localeSlugs : LocaleSlugs) : list Alternate :=
  let alternates :=
    flat_map
      (λ locale,
         if ContactRoute.present (slugOf localeSlugs locale) then
           [{| hreflang := getHreflang locale;
               href := buildAbsoluteUrl
                         ("/" +:+ localeCode locale +:+ "/info/"
                          +:+ default "" (slugOf localeSlugs locale) +:+ "/") |}]
         else [])
      locales in
  (alternates
   ++ if ContactRoute.present (slugOf localeSlugs hreflangDefaultLocale) then
        [{| hreflang := "x-default";
            href := buildAbsoluteUrl
                      ("/" +:+ localeCode hreflangDefaultLocale +:+ "/info/"
                       +:+ default "" (slugOf localeSlugs hreflangDefaultLocale)
                       +:+ "/") |}]
      else [])%list.

(** The shape the four generators share: one alternate for every locale
    that has a slug, in the order of [locales], then x-default when the
    default locale has one. *)
Definition alternatesOf (localeSlugs : LocaleSlugs) (pathOf : Locale → string → string)
    : list Alternate :=
  (flat_map
     (λ locale,
        if ContactRoute.present (slugOf localeSlugs locale) then
          [{| hreflang := getHreflang locale;
              href := buildAbsoluteUrl
                        (pathOf locale (default "" (slugOf localeSlugs locale))) |}]
        else [])
     locales
   ++ if ContactRoute.present (slugOf localeSlugs hreflangDefaultLocale) then
        [{| hreflang := "x-default";
            href := buildAbsoluteUrl
                      (pathOf hreflangDefaultLocale
                         (default "" (slugOf localeSlugs hreflangDefaultLocale))) |}]
      else [])%list.

(** The path each generator gives a locale and its slug. *)
Definition categoryPath (locale : Locale) (slug : string) : string :=
  "/" +:+ localeCode locale +:+ "/categories/" +:+ slug +:+ "/".
Definition brandPath (locale : Locale) (slug : string) : string :=
  "/" +:+ localeCode locale +:+ "/brands/" +:+ slug +:+ "/".
Definition footerLinkPath (locale : Locale) (slug : string) : string :=
  "/" +:+ localeCode locale +:+ "/info/" +:+ slug +:+ "/".
Definition basePathOf (basePath : string) (locale : Locale) (_ : string) : string :=
  "/" +:+ localeCode locale +:+ "/" +:+ pathWithoutLocale basePath.

Definition generateCanonicalUrl (currentPath : string) : string :=
  let normalizedPath :=
    if negb (endsWithSlash currentPath) && negb (String.eqb currentPath "/")
    then currentPath +:+ "/" else currentPath in
  buildAbsoluteUrl normalizedPath.

Inductive ContentType := categories | brands.

Definition contentTypeName (contentType : ContentType) : string :=
  match contentType with categories => "categories" | brands => "brands" end.

(** A match of [/^\/(lv|en|ru)(\/|$)/] at the start of [path]: what
    comes after the locale, which is empty or starts with the slash of
    the second group. *)
Definition afterLocalePrefix (path : string) : option string :=
  match path with
  | String "/" (String a (String b rest)) =>
      let code := String a (String b EmptyString) in
      if String.eqb code "lv" || String.eqb code "en" || String.eqb code "ru" then
        match rest with
        | EmptyString => Some rest
        | String "/" _ => Some rest
        | _ => None
        end
      else None
  | _ => None
  end.

Definition getLocalizedPath (targetLocale : Locale) (localeSlugs : LocaleSlugs)
    (contentType : ContentType) (currentPath : string) : string :=
  if ContactRoute.present (slugOf localeSlugs targetLocale) then
    "/" +:+ localeCode targetLocale +:+ "/" +:+ contentTypeName contentType +:+ "/"
    +:+ default "" (slugOf localeSlugs targetLocale)
  else
    (* Fallback: replace locale in current path *)
    match afterLocalePrefix currentPath with
    | Some rest => "/" +:+ localeCode targetLocale +:+ rest
    | None => currentPath
    end.

(** What the list of alternates of a page must be, given the path
    [pathOf] of each locale: the hreflang codes are all different; the
    members are one alternate for every locale that has a slug, and
    x-default, with the address of the Latvian page, when Latvian has
    one. *)
Definition alternatesSpec (localeSlugs : LocaleSlugs) (pathOf : Locale → string → string)
    (result : list Alternate) : Prop :=
  NoDup (hreflang <$> result)
  ∧ ∀ a, In a result
         ↔ (∃ locale,
              ContactRoute.present (slugOf localeSlugs locale) = true
              ∧ a = {| hreflang := localeCode locale;
                       href := buildAbsoluteUrl
                                 (pathOf locale (default "" (slugOf localeSlugs locale))) |})
           ∨ (ContactRoute.present (slugOf localeSlugs lv) = true
              ∧ a = {| hreflang := "x-default";
                       href := buildAbsoluteUrl
                                 (pathOf lv (default "" (slugOf localeSlugs lv))) |}).

(** No slash occurs in [s]. *)
Fixpoint slashFree (s : string) : bool :=
  match s with
  | EmptyString => true
  | String c rest => negb (Ascii.eqb c "/") && slashFree rest
  end.

(** A path segment: not empty, no slash in it. *)
Definition segment (s : string) : Prop := s ≠ "" ∧ slashFree s = true.

End Seo.

(** ** The Strapi API utilities

    The functions that read the content store for the pages.  Each makes
    one [fetch]; the network is the function that says how the [fetch]
    of a request ends.  Writes to the console are left out. *)

Module Strapi.
Import ContactRoute.

(** Built-ins of the engine that the utilities call. *)
Class UrlHost := {
  (** the application/x-www-form-urlencoded serializer that
      [URLSearchParams.prototype.toString] applies to a name or a value *)
  formEncode : string → string;
  (** [String(v)] for a number, an array or an object *)
  ObjectToString : JsValue → string;
}.

(** [import.meta.env.PUBLIC_STRAPI_URL || 'http://localhost:1337'] *)
Definition STRAPI_URL (env : Env) : string :=
  if present (env_PUBLIC_STRAPI_URL env) then default "" (env_PUBLIC_STRAPI_URL env)
  else "http://localhost:1337".

(** *** [URLSearchParams] *)

Definition SearchParams := list (string * string).

(** [searchParams.set(name, value)]: the first pair of that name takes
    the value and the others go; without one, the pair is appended. *)
Fixpoint set (name value : string) (searchParams : SearchParams) : SearchParams :=
  match searchParams with
  | [] => [(name, value)]
  | (n, v) :: rest =>
      if String.eqb n name
      then (name, value) :: List.filter (λ pair, negb (String.eqb pair.1 name)) rest
      else (n, v) :: set name value rest
  end.

Section WithHost.
Context `{UrlHost}.

(** [searchParams.toString()] *)
Definition toString (searchParams : SearchParams) : string :=
  Seo.join "&"
    (List.map (λ pair, formEncode pair.1 +:+ "=" +:+ formEncode pair.2) searchParams).

(** [String(v)] *)
Definition String_ (v : JsValue) : string :=
  match v with
  | JUndefined => "undefined"
  | JNull => "null"
  | JBool true => "true"
  | JBool false => "false"
  | JStr s => s
  | JNum _ | JArr _ | JObj _ => ObjectToString v
  end.

(** *** [StrapiQueryParams] *)

(** [populate?: string | string[]] *)
Inductive Populate :=
| PopulateOne (relation : string)
| PopulateMany (relations : list string).

(** A value of [filters]: an object, given by its entries in the order
    [Object.entries] lists them, or a value that is not an object. *)
Inductive FilterValue :=
| FilterOperators (entries : list (string * JsValue))
| FilterPlain (value : JsValue).

(** [page] and [pageSize] are integers. *)
Record Pagination := { page : Z; pageSize : Z }.

Record StrapiQueryParams := {
  locale : option string;
  populate : option Populate;
  sort : option string;
  pagination : option Pagination;
  filters : option (list (string * FilterValue));
}.

(** [{}], the default of [params] *)
Definition noParams : StrapiQueryParams :=
  {| locale := None; populate := None; sort := None; pagination := None;
     filters := None |}.

(** [params.filters = filters] *)
Definition withFilters (params : StrapiQueryParams) (entries : list (string * FilterValue))
    : StrapiQueryParams :=
  {| locale := locale params; populate := populate params; sort := sort params;
     pagination := pagination params; filters := Some entries |}.

(** [params.pagination = pagination] *)
Definition withPagination (params : StrapiQueryParams) (value : Pagination)
    : StrapiQueryParams :=
  {| locale := locale params; populate := populate params; sort := sort params;
     pagination := Some value; filters := filters params |}.

(** ToBoolean of [params.populate] *)
Definition populateGiven (populate : option Populate) : bool :=
  match populate with
  | Some (PopulateOne relation) => negb (String.eqb relation "")
  | Some (PopulateMany _) => true
  | None => false
  end.

(** The [forEach] over the entries of [params.filters]. *)
Definition setFilter (searchParams : SearchParams) (entry : string * FilterValue)
    : SearchParams :=
  let '(key, value) := entry in
  match value with
  | FilterOperators entries =>
      foldl (λ searchParams '(op, val),
               set ("filters[" +:+ key +:+ "][" +:+ op +:+ "]") (String_ val) searchParams)
            searchParams entries
  | FilterPlain value =>
      set ("filters[" +:+ key +:+ "]") (String_ value) searchParams
  end.

(** The pairs [buildQueryString] collects. *)
Definition queryPairs (params : StrapiQueryParams) : SearchParams :=
  let searchParams : SearchParams := [] in
  let searchParams :=
    if present (locale params) then set "locale" (default "" (locale params)) searchParams
    else searchParams in
  let searchParams :=
    if populateGiven (populate params) then set "populate" "*" searchParams
    else searchParams in
  let searchParams :=
    if present (sort params) then set "sort" (default "" (sort params)) searchParams
    else searchParams in
  let searchParams :=
    match pagination params with
    | Some pagination =>
        set "pagination[pageSize]" (pretty (pageSize pagination))
          (set "pagination[page]" (pretty (page pagination)) searchParams)
    | None => searchParams
    end in
  (* Build filters using Strapi's nested syntax *)
  match filters params with
  | Some filters => foldl setFilter searchParams filters
  | None => searchParams
  end.

Definition buildQueryString (params : StrapiQueryParams) : string :=
  let queryString := toString (queryPairs params) in
  if negb (String.eqb queryString "")
  then "?" +:+ replaceAll "+" "%20" queryString
  else "".

(** *** [fetchStrapi] *)

Record GetRequest := {
  getUrl : string;
  getMethod : string;
  getHeaders : list (string * string);
}.

Record GetResponse := {
  responseOk : bool;
  responseStatus : Z;
  (** what [response.json()] resolves to; [None] when it rejects *)
  responseJson : option JsValue;
}.

Inductive GetOutcome :=
| GetRejects
| GetResolves (response : GetResponse).

(** How the [fetch] of a request ends. *)
Definition Network := GetRequest → GetOutcome.

(** What the [try] block of [fetchStrapi] can throw. *)
Inductive Thrown :=
| ApiError (status : Z)     (* new Error(`Strapi API error: ...`) *)
| Rejected (e : JsError).   (* a promise that rejects *)

Definition strapiGet (env : Env) (endpoint : string) (params : StrapiQueryParams)
    : GetRequest :=
  {| getUrl := STRAPI_URL env +:+ "/api/" +:+ endpoint +:+ buildQueryString params;
     getMethod := "GET";
     getHeaders := [("Content-Type", "application/json")] |}.

(** [null] is [JNull]. *)
Definition fetchStrapi (env : Env) (network : Network)
    (endpoint : string) (params : StrapiQueryParams) : JsValue :=
  let attempt : Thrown + JsValue :=
    match network (strapiGet env endpoint params) with
    | GetRejects => inl (Rejected FetchFailed)
    | GetResolves response =>
        if negb (responseOk response) then
          if responseStatus response =? 404 then inr JNull
          else inl (ApiError (responseStatus response))
        else
          match responseJson response with
          | Some data => inr data
          | None => inl (Rejected JsonParseFailed)
          end
    end in
  match attempt with
  | inr data => data
  | inl _ => JNull
  end.

(** *** Reading a reply *)

(** [v?.p] *)
Definition optionalProp (v : JsValue) (p : string) : JsValue :=
  match v with
  | JUndefined | JNull => JUndefined
  | _ => match getProp v p with inr x => x | inl _ => JUndefined end
  end.

(** [v?.[0]] *)
Definition optionalFirst (v : JsValue) : JsValue :=
  match v with
  | JArr (item :: _) => item
  | JStr (String c _) => JStr (String c EmptyString)
  | JObj fields => default JUndefined (fields !! "0")
  | _ => JUndefined
  end.

(** [response?.data || []] *)
Definition dataOrEmpty (response : JsValue) : JsValue :=
  let data := optionalProp response "data" in
  if truthy data then data else JArr [].

(** [response?.data?.[0] || null] *)
Definition firstOrNull (response : JsValue) : JsValue :=
  let first := optionalFirst (optionalProp response "data") in
  if truthy first then first else JNull.

(** *** The getters *)

Variable env : Env.
Variable network : Network.

Record PromoCodeOptions := {
  featured : option bool;
  active : option bool;
  categorySlug : option string;
  brandSlug : option string;
  (** an integer *)
  limit : option Z;
}.

(** [array.filter(pc => pc[relation]?.slug === slug)]; the callback
    throws on an element that is [null] or [undefined] *)
Fixpoint filterBySlug (relation slug : string) (items : list JsValue)
    : JsError + list JsValue :=
  match items with
  | [] => inr []
  | pc :: rest =>
      match getProp pc relation with
      | inl e => inl e
      | inr related =>
          let keep :=
            match optionalProp related "slug" with
            | JStr s => String.eqb s slug
            | _ => false
            end in
          match filterBySlug relation slug rest with
          | inl e => inl e
          | inr kept => inr (if keep then pc :: kept else kept)
          end
      end
  end.

(** A step that may throw, and what follows it. *)
Definition andThen {A B} (step : JsError + A) (rest : A → JsError + B) : JsError + B :=
  match step with
  | inl e => inl e
  | inr a => rest a
  end.

(** [filtered.filter(...)]: a method of arrays only *)
Definition callFilter (relation slug : string) (filtered : JsValue) : JsError + JsValue :=
  match filtered with
  | JArr items =>
      match filterBySlug relation slug items with
      | inl e => inl e
      | inr kept => inr (JArr kept)
      end
  | _ => inl TypeError
  end.

(** [items.slice(0, limit)] *)
Definition slice0 (limit : Z) (items : list JsValue) : list JsValue :=
  let len := Z.of_nat (length items) in
  let final := if limit <? 0 then Z.max (len + limit) 0 else Z.min limit len in
  take (Z.to_nat final) items.

(** [filtered.slice(0, limit)]: a method of arrays and of strings *)
Definition callSlice (limit : Z) (filtered : JsValue) : JsError + JsValue :=
  match filtered with
  | JArr items => inr (JArr (slice0 limit items))
  | JStr s =>
      let len := Z.of_nat (String.length s) in
      let final := if limit <? 0 then Z.max (len + limit) 0 else Z.min limit len in
      inr (JStr (String.substring 0 (Z.to_nat final) s))
  | _ => inl TypeError
  end.

Definition getPromoCodes (locale : string) (options : option PromoCodeOptions)
    : JsError + JsValue :=
  let filters : list (string * FilterValue) := [] in
  let filters :=
    match options ≫= featured with
    | Some featured => (filters ++ [("isFeatured", FilterOperators [("$eq", JBool featured)])])%list
    | None => filters
    end in
  let filters :=
    match options ≫= active with
    | Some active => (filters ++ [("isActive", FilterOperators [("$eq", JBool active)])])%list
    | None => filters
    end in
  let params :=
    {| locale := Some locale; populate := Some (PopulateOne "*");
       sort := Some "createdAt:desc"; pagination := None; filters := None |} in
  (* Fetch all and filter by slug in code *)
  if present (options ≫= categorySlug) || present (options ≫= brandSlug) then
    let allPromoCodes :=
      fetchStrapi env network "promo-codes"
        {| locale := Some locale; populate := Some (PopulateOne "*");
           sort := Some "createdAt:desc"; pagination := None; filters := None |} in
    let filtered := dataOrEmpty allPromoCodes in
    andThen
      (if present (options ≫= categorySlug)
       then callFilter "category" (default "" (options ≫= categorySlug)) filtered
       else inr filtered)
      (λ filtered,
         andThen
           (if present (options ≫= brandSlug)
            then callFilter "brand" (default "" (options ≫= brandSlug)) filtered
            else inr filtered)
           (λ filtered,
              match options ≫= limit with
              | Some limit =>
                  if negb (limit =? 0) then callSlice limit filtered else inr filtered
              | None => inr filtered
              end))
  else
    let params :=
      if (0 <? length filters)%nat then withFilters params filters else params in
    let params :=
      match options ≫= limit with
      | Some limit =>
          if negb (limit =? 0)
          then withPagination params {| page := 1; pageSize := limit |}
          else params
      | None => params
      end in
    let response := fetchStrapi env network "promo-codes" params in
    inr (dataOrEmpty response).

(** The parameters of a getter of a list. *)
Definition listParams (locale sort : string) : StrapiQueryParams :=
  {| locale := Some locale; populate := Some (PopulateOne "*"); sort := Some sort;
     pagination := None; filters := None |}.

(** The parameters of a getter of one entry: [filters: { field: { $eq: value } }]. *)
Definition entryParams (locale field value : string) : StrapiQueryParams :=
  {| locale := Some locale; populate := Some (PopulateOne "*"); sort := None;
     pagination := None;
     filters := Some [(field, FilterOperators [("$eq", JStr value)])] |}.

Definition getPromoCodeBySlug (slug locale : string) : JsValue :=
  firstOrNull (fetchStrapi env network "promo-codes" (entryParams locale "slug" slug)).

Definition getBrands (locale : string) : JsValue :=
  dataOrEmpty (fetchStrapi env network "brands" (listParams locale "name:asc")).

Definition getBrandBySlug (slug locale : string) : JsValue :=
  firstOrNull (fetchStrapi env network "brands" (entryParams locale "slug" slug)).

Definition getBrandByDocumentId (documentId locale : string) : JsValue :=
  firstOrNull (fetchStrapi env network "brands" (entryParams locale "documentId" documentId)).

Definition getCategories (locale : string) : JsValue :=
  dataOrEmpty (fetchStrapi env network "categories" (listParams locale "name:asc")).

Definition getCategoryBySlug (slug locale : string) : JsValue :=
  firstOrNull (fetchStrapi env network "categories" (entryParams locale "slug" slug)).

Definition getCategoryByDocumentId (documentId locale : string) : JsValue :=
  firstOrNull
    (fetchStrapi env network "categories" (entryParams locale "documentId" documentId)).

Definition getFooterLinks (locale : string) : JsValue :=
  dataOrEmpty (fetchStrapi env network "footer-links" (listParams locale "createdAt:asc")).

Definition getFooterLinkBySlug (slug locale : string) : JsValue :=
  firstOrNull (fetchStrapi env network "footer-links" (entryParams locale "slug" slug)).

Definition getFooterLinkByDocumentId (documentId locale : string) : JsValue :=
  firstOrNull
    (fetchStrapi env network "footer-links" (entryParams locale "documentId" documentId)).

(** *** Vocabulary *)

(** The request did not bring a JSON value: it was rejected, the status
    was not a success, or the body could not be parsed. *)
Definition failed (outcome : GetOutcome) : Prop :=
  outcome = GetRejects
  ∨ ∃ response, outcome = GetResolves response
                ∧ (responseOk response = false ∨ responseJson response = None).

(** [pc[relation]?.slug === slug] holds of [pc]. *)
Definition hasSlug (relation slug : string) (pc : JsValue) : Prop :=
  ∃ related, getProp pc relation = inr related ∧ optionalProp related "slug" = JStr slug.

(** Reading a property of [pc] throws. *)
Definition nullish (pc : JsValue) : Prop := pc = JUndefined ∨ pc = JNull.

End WithHost.
End Strapi.

(** *** A host and replies to run the utilities on *)

Module StrapiExamples.
Import ContactRoute Strapi.

(** The serializer writes a space as a plus sign and keeps every other
    character. *)
#[export] Instance exampleUrlHost : UrlHost := {|
  formEncode := replaceAll " " "+";
  ObjectToString := λ _, "[object Object]";
|}.

(** Strapi answers every request with two promo codes. *)
Definition twoPromoCodes : Network :=
  λ _, GetResolves
         {| responseOk := true; responseStatus := 200;
            responseJson :=
              Some (jsonObject
                      [("data",
                        JArr [jsonObject [("code", JStr "PIZZA10");
                                          ("category", jsonObject [("slug", JStr "food")])];
                              jsonObject [("code", JStr "TAXI5");
                                          ("category", jsonObject [("slug", JStr "travel")])]])]) |}.

(** Strapi answers every request with a list that holds [null]. *)
Definition listWithNull : Network :=
  λ _, GetResolves
         {| responseOk := true; responseStatus := 200;
            responseJson := Some (jsonObject [("data", JArr [JNull])]) |}.

(** The options that ask for the codes of one category. *)
Definition ofCategory (slug : string) (limit : option Z) : PromoCodeOptions :=
  {| featured := Some true; active := None; categorySlug := Some slug;
     brandSlug := None; limit := limit |}.

End StrapiExamples.

(** ** Vocabulary of the further properties *)

(** *** Histories of the store, by the clock *)

Module Histories.
Import RateLimiter.

(** The clock reading an operation runs at. *)
Definition opTime (op : StoreOp) : Z :=
  match op with OpCheck now _ _ => now | OpSweep now => now end.

Definition isCheck (op : StoreOp) : bool :=
  match op with OpCheck _ _ _ => true | OpSweep _ => false end.

(** The operations happen in the order of their clock readings, none
    before [start]. *)
Fixpoint chronological (start : Z) (ops : list StoreOp) : Prop :=
  match ops with
  | [] => True
  | op :: rest => start ≤ opTime op ∧ chronological (opTime op) rest
  end.

(** The last clock reading of a history that began at [start]. *)
Definition lastTime (start : Z) (ops : list StoreOp) : Z :=
  foldl (λ _ op, opTime op) start ops.

(** Every check of the history asks for a limit between 1 and [limit]. *)
Definition limitsWithin (limit : Z) (op : StoreOp) : Prop :=
  match op with
  | OpCheck _ _ maxRequests => 1 ≤ maxRequests ≤ limit
  | OpSweep _ => True
  end.

End Histories.

(** *** Text *)

Module Markup.
Import ContactRoute.

(** [s.includes(c)] for a single character [c] *)
Fixpoint occurs (c : ascii) (s : string) : bool :=
  match s with
  | EmptyString => false
  | String a rest => Ascii.eqb a c || occurs c rest
  end.

(** The five characters [sanitizeInput] replaces. *)
Definition special (c : ascii) : bool :=
  Ascii.eqb c "&" || Ascii.eqb c "<" || Ascii.eqb c ">"
  || Ascii.eqb c dquote || Ascii.eqb c "'".

(** None of the five characters occurs in [s]. *)
Fixpoint plainText (s : string) : bool :=
  match s with
  | EmptyString => true
  | String a rest => negb (special a) && plainText rest
  end.

Section WithHost.
Context `{JsHost}.

(** What the regular expression of the route describes: a local part,
    an at sign, and a domain with a dot inside it, none of the three
    pieces empty and none holding white space or a further at sign. *)
Definition emailShape (email : string) : Prop :=
  ∃ localPart domain tld,
    email = localPart +:+ "@" +:+ domain +:+ "." +:+ tld
    ∧ localPart ≠ "" ∧ domain ≠ "" ∧ tld ≠ ""
    ∧ allPlain localPart = true ∧ allPlain domain = true ∧ allPlain tld = true.
End WithHost.

End Markup.

(** *** Outcomes of a request *)

Module Outcomes.
Import RateLimiter Recaptcha ContactRoute.

(** The error codes of a reply that [isRecaptchaValid] lets pass: a
    falsy value, the empty array, or an object whose [length] is 0. *)
Definition noErrorCodes (codes : JsValue) : Prop :=
  truthy codes = false
  ∨ codes = JArr []
  ∨ ∃ fields q, codes = JObj fields
                ∧ fields !! "length" = Some (JNum q) ∧ Qeq_bool q 0 = true.

(** The verification service answered with a JSON object whose
    [success] is [true] and which lists no error. *)
Definition positiveReply (outcome : FetchOutcome) : Prop :=
  ∃ reply fields,
    outcome = FetchResolves reply
    ∧ payload reply = Some (JObj fields)
    ∧ fields !! "success" = Some (JBool true)
    ∧ noErrorCodes (default JUndefined (fields !! "error-codes")).

(** [m] takes every world to one that [R] relates to it. *)
Definition preserves {A} (R : World → World → Prop) (m : M A) : Prop :=
  ∀ w, R w (m w).2.

(** The network is the one of [w], and no [fetch] has been taken back. *)
Definition later (w w' : World) : Prop :=
  network w' = network w ∧ (fetches w ≤ fetches w')%nat.

(** The store of the rate limiter is the one of [w]. *)
Definition sameStore (w w' : World) : Prop :=
  rateLimitStore w' = rateLimitStore w.

(** Every response of [m], run in a world that is later than [w0],
    satisfies [Q], which may speak of [w0] and of the world [m] leaves. *)
Definition answers (Q : World → Response → World → Prop) (m : M Response) : Prop :=
  ∀ w0 w r, later w0 w → (m w).1 = inr r → Q w0 r (m w).2.

(** The shape of every response of the route. *)
Definition wellFormed (r : Response) : Prop :=
  In (status r) [200; 400; 429; 500]
  ∧ In ("Content-Type", "application/json") (headers r)
  ∧ (status r = 429 → ∃ message resetSeconds, r = rateLimitResponse message resetSeconds)
  ∧ (status r ≠ 200 → ∃ message, getProp (body r) "error" = inr (JStr message)).

(** Between [w0] and [w'] a request to the contact messages of Strapi
    was answered with a success status and a JSON value, whose [data]
    the response [r] hands on. *)
Definition strapiAccepted (env : Env) (w0 : World) (r : Response) (w' : World) : Prop :=
  ∃ n request reply result data,
    (fetches w0 ≤ n < fetches w')%nat
    ∧ network w0 n request = FetchResolves reply
    ∧ url request = STRAPI_URL env +:+ "/api/contactmsgs"
    ∧ ok reply = true
    ∧ payload reply = Some result
    ∧ getProp result "data" = inr data
    ∧ r = jsonResponse 200
            (jsonObject [("success", JBool true);
                         ("message", JStr "Your message has been sent successfully");
                         ("data", data)]).

(** [m] can end with the value [a]. *)
Definition returns {A} (m : M A) (a : A) : Prop := ∃ w, (m w).1 = inr a.

Section WithHost.
Context `{JsHost}.

(** The fields of a submission that passes the validation of layer 5. *)
Definition acceptable (name subject message email : string) : Prop :=
  name ≠ "" ∧ (String.length name ≤ 100)%nat
  ∧ subject ≠ "" ∧ (String.length subject ≤ 200)%nat
  ∧ (10 ≤ String.length message ≤ 2000)%nat
  ∧ emailRegex_test email = true.

(** The request that hands a message to Strapi. *)
Definition strapiRequest (env : Env) (name email subject message : string)
    : FetchRequest :=
  {| url := STRAPI_URL env +:+ "/api/contactmsgs";
     method := "POST";
     requestHeaders :=
       [("Content-Type", "application/json");
        ("Authorization", "Bearer " +:+ jsString (STRAPI_API_TOKEN env))];
     requestBody :=
       JsonBody
         (jsonObject
            [("data",
              jsonObject [("name", JStr (sanitizeInput (trim name)));
                          ("email", JStr (trim email));
                          ("subject", JStr (sanitizeInput (trim subject)));
                          ("message", JStr (sanitizeInput (trim message)));
                          ("msg-status", JStr "pending")])]) |}.

(** A [fetch] of layer 5: the message of [body], validated. *)
Definition forwards (env : Env) (body : JsValue) (email : string) (e : Event) : Prop :=
  match e with
  | EvFetch request =>
      ∃ name subject message,
        getProp body "name" = inr (JStr name)
        ∧ getProp body "subject" = inr (JStr subject)
        ∧ getProp body "message" = inr (JStr message)
        ∧ acceptable name subject message email
        ∧ request = strapiRequest env name email subject message
  | _ => True
  end.

(** The requests the route may send for [request]: the question to the
    verification service, and the validated message of its body. *)
Definition fetchesOf (env : Env) (request : Request) (e : Event) : Prop :=
  match e with
  | EvFetch sent =>
      (∃ token, sent = siteverifyRequest token (RECAPTCHA_SECRET_KEY env)
                         (Some (clientIp request)))
      ∨ (∃ body rawEmail,
           requestJson request = Some body
           ∧ getProp body "email" = inr (JStr rawEmail)
           ∧ forwards env body (trim (toLowerCase rawEmail)) e)
  | _ => True
  end.
End WithHost.

(** What the route promises about a response. *)
Definition outcome (env : Env) (w0 : World) (r : Response) (w' : World) : Prop :=
  wellFormed r ∧ (status r = 200 → strapiAccepted env w0 r w').

End Outcomes.

(** ** The call of the handler

    [ContactRoute.POST] is the handler from its first statement on, with
    its parameters bound.  The framework calls it with a context, and
    the parameter list [({ request, clientAddress })] reads the getter
    [clientAddress] of the context before the first statement, outside
    every [try]. *)

Module Endpoint.
Import RateLimiter Recaptcha ContactRoute Outcomes.

Record APIContext := {
  (** the getter [clientAddress]: [inl] a read that throws, [inr None]
      is [undefined] *)
  context_clientAddress : JsError + option string;
  (** [request.headers.get("x-forwarded-for")], as in [Request] *)
  context_xForwardedFor : JsError + option string;
  (** [await request.json()]; [None] when it rejects *)
  context_requestJson : option JsValue;
}.

(** The destructuring of the parameter. *)
Definition destructure (context : APIContext) : JsError + Request :=
  match context_clientAddress context with
  | inl e => inl e
  | inr address =>
      inr {| clientAddress := address;
             xForwardedFor := context_xForwardedFor context;
             requestJson := context_requestJson context |}
  end.

Section WithHost.
Context `{JsHost}.

(** [POST(context)] *)
Definition callPOST (env : Env) (context : APIContext) : M Response :=
  let! request := liftE (destructure context) in
  POST env request.


(** *** Vocabulary *)






End WithHost.

(** The network and the clock are those of [w]. *)
Definition sameTimes (w w' : World) : Prop :=
  network w' = network w ∧ clock w' = clock w.


End Endpoint.

Module EndpointExamples.
Import RateLimiter Recaptcha ContactRoute Examples Endpoint.








End EndpointExamples.

(** * Properties *)

(** ** The scenarios of the specification, run on the embedding *)

Module Scenarios.
Import RateLimiter Recaptcha ContactRoute Examples.
#[local] Existing Instance ExampleHost.host.

Example email_format :
  emailRegex_test "a@b.co" = true
  ∧ List.map emailRegex_test ["a@b"; "a"; "a@@b.co"; ""] = [false; false; false; false].
Proof. split; reflexivity. Qed.

Example sanitized_markup :
  sanitizeInput "<a href='x'>T&C</a>" = "&lt;a href=&#039;x&#039;&gt;T&amp;C&lt;/a&gt;".
Proof. reflexivity. Qed.

Example message_of_length_9 :
  (POST devEnv (requestFrom clientIpAddress shortMessageBody) (onlineWorld strapiCreated)).1
  = inr (errorResponse 400 "Message must be between 10 and 2000 characters").
Proof. reflexivity. Qed.

Example accepted_without_captcha :
  (POST devEnv (requestFrom clientIpAddress validBody) (onlineWorld strapiCreated)).1
  = inr (jsonResponse 200
           (jsonObject [("success", JBool true);
                        ("message", JStr "Your message has been sent successfully");
                        ("data", jsonObject [("id", JNum 7)])])).
Proof. reflexivity. Qed.

Example upstream_unavailable :
  (POST devEnv (requestFrom clientIpAddress validBody) (onlineWorld strapiUnavailable)).1
  = inr (jsonResponse 500
           (jsonObject [("error", JStr "Failed to submit message");
                        ("details", jsonObject [("error", JStr "Service Unavailable")])])).
Proof. reflexivity. Qed.

Example keys_are_normalized :
  storeKey "  IP:2001:DB8::A " = "ip:2001:db8::a"
  ∧ (checkRateLimit 10 "Anna@Example.com " 3 ∅).2 !! "anna@example.com"
    = Some {| count := 1; firstRequestAt := 10 |}.
Proof. split; reflexivity. Qed.

End Scenarios.

(** ** The rate limiter *)

Module RateLimiterFacts.
Import RateLimiter.

Section WithHost.
Context `{JsHost}.
Implicit Types (s : gmap string RateLimitEntry) (key : string).

(** The sweep, entry by entry. *)
Lemma cleanup_lookup now s key :
  cleanupExpiredEntries now s !! key
  = match s !! key with
    | Some entry => if decide (expired now entry) then None else Some entry
    | None => None
    end.
Proof.
  unfold cleanupExpiredEntries. rewrite map_lookup_filter.
  destruct (s !! key) as [entry|]; simpl; [|done].
  destruct (decide (expired now entry)); simpl.
  - rewrite option_guard_False; [done | tauto].
  - by rewrite option_guard_True.
Qed.

(** A check touches no other key than its own. *)
Lemma checkRateLimit_other now identifier maxRequests s key :
  storeKey identifier ≠ key →
  (checkRateLimit now identifier maxRequests s).2 !! key = s !! key.
Proof.
  intros Hne. unfold checkRateLimit.
  destruct (s !! storeKey identifier) as [entry|]; simpl.
  - repeat case_decide; simpl; by rewrite ?lookup_insert_ne.
  - by rewrite lookup_insert_ne.
Qed.

(** A check inside the window, after [n] earlier ones. *)
Lemma counted_check first maxRequests n key s now identifier :
  storeKey identifier = key →
  counted first maxRequests n key s →
  now - first ≤ WINDOW_MS →
  let out := checkRateLimit now identifier maxRequests s in
  allowed out.1 = bool_decide (n < maxRequests)
  ∧ resetAt out.1 = first + WINDOW_MS
  ∧ counted first maxRequests (n + 1) key out.2.
Proof.
  intros Hkey Hc Hnow. unfold counted in *. unfold checkRateLimit.
  rewrite Hkey, Hc. simpl.
  destruct (decide (expired now _)) as [Hexp|_].
  { unfold expired in Hexp. simpl in Hexp. lia. }
  simpl. case_decide as Hfull; simpl.
  - rewrite bool_decide_eq_false_2 by lia. split_and!; [done..|].
    rewrite Hc. do 2 f_equal. lia.
  - rewrite bool_decide_eq_true_2 by lia. split_and!; [done..|].
    rewrite lookup_insert_eq. do 2 f_equal. lia.
Qed.

Lemma counted_step first maxRequests n key s op :
  counted first maxRequests n key s →
  inWindow first key maxRequests op →
  counted first maxRequests (n + (if checksKey key op then 1 else 0)) key (applyOp s op).
Proof.
  intros Hc Hop. destruct op as [now identifier m | now]; simpl in *.
  - case_bool_decide as Hkey.
    + destruct (Hop Hkey) as [Hnow ->].
      by apply (counted_check first maxRequests n key s now identifier).
    + unfold counted. rewrite checkRateLimit_other by done.
      by rewrite Z.add_0_r.
  - unfold counted in *. rewrite cleanup_lookup, Hc.
    rewrite decide_False; [by rewrite Z.add_0_r|].
    unfold expired. simpl. lia.
Qed.

(** The count follows the number of checks through any history that
    stays inside the window. *)
Lemma counted_run first maxRequests key ops : ∀ n s,
  counted first maxRequests n key s →
  Forall (inWindow first key maxRequests) ops →
  counted first maxRequests (n + checksOn key ops) key (runOps ops s).
Proof.
  unfold checksOn, runOps.
  induction ops as [|op ops IH]; intros n s Hc Hops; simpl.
  - by rewrite Z.add_0_r.
  - apply Forall_cons in Hops as [Hop Hops].
    pose proof (counted_step _ _ _ _ _ _ Hc Hop) as Hc'.
    specialize (IH _ _ Hc' Hops).
    destruct (checksKey key op); simpl length in *.
    + rewrite Nat2Z.inj_succ.
      by replace (n + Z.succ (Z.of_nat (length (List.filter (checksKey key) ops))))
        with (n + 1 + Z.of_nat (length (List.filter (checksKey key) ops))) by lia.
    + by rewrite Z.add_0_r in IH.
Qed.

(** The check that opens a window. *)
Lemma opening_check first identifier maxRequests s :
  opensWindow first (storeKey identifier) s →
  checkRateLimit first identifier maxRequests s
  = ({| allowed := true; remaining := maxRequests - 1; resetAt := first + WINDOW_MS |},
     <[storeKey identifier := {| count := 1; firstRequestAt := first |}]> s).
Proof.
  intros Hopen. unfold opensWindow in Hopen. unfold checkRateLimit.
  destruct (s !! storeKey identifier) as [entry|]; [|done].
  by rewrite decide_True.
Qed.

Lemma counted_opening first identifier maxRequests s :
  1 ≤ maxRequests →
  opensWindow first (storeKey identifier) s →
  counted first maxRequests 1 (storeKey identifier)
    (checkRateLimit first identifier maxRequests s).2.
Proof.
  intros Hmax Hopen. rewrite opening_check by done. unfold counted. simpl.
  rewrite lookup_insert_eq. do 2 f_equal. lia.
Qed.

(** C1.  Take any identifier and any limit [maxRequests] of at least one
    request (the limits in use are 5 and 3).  A check at [first] finds
    no live entry for the identifier and opens a window; it is allowed.
    Let any history follow in which the clock stays within
    [WINDOW_MS] of [first]: further checks of this identifier with the
    same limit, checks of other identifiers, runs of the sweep.  Then
    the next check of the identifier, the one that comes after [made]
    checks in the window, is allowed exactly when it is one of the first
    [maxRequests]; so checks 1 to [maxRequests] are allowed and check
    [maxRequests + 1] is refused.  Its [resetAt] is the start of the
    window plus the window duration. *)
Theorem window_allows_exactly_max identifier maxRequests first now s0 ops :
  1 ≤ maxRequests →
  opensWindow first (storeKey identifier) s0 →
  Forall (inWindow first (storeKey identifier) maxRequests) ops →
  now - first ≤ WINDOW_MS →
  let opening := checkRateLimit first identifier maxRequests s0 in
  let made := 1 + checksOn (storeKey identifier) ops in
  let next := (checkRateLimit now identifier maxRequests (runOps ops opening.2)).1 in
  allowed opening.1 = true
  ∧ (allowed next = true ↔ made + 1 ≤ maxRequests)
  ∧ (allowed next = false ↔ maxRequests < made + 1)
  ∧ resetAt next = first + WINDOW_MS.
Proof.
  intros Hmax Hopen Hops Hnow opening made next.
  pose proof (counted_opening first identifier maxRequests s0 Hmax Hopen) as Hc.
  pose proof (counted_run _ _ _ _ _ _ Hc Hops) as Hc'.
  destruct (counted_check _ _ _ _ _ now identifier eq_refl Hc' Hnow)
    as (Hallowed & Hreset & _).
  subst opening made next. simpl. rewrite Hallowed, Hreset.
  split; [by rewrite opening_check|].
  case_bool_decide; split_and!; try done; split; (done || lia).
Qed.

(** C2.  When the entry of an identifier has expired (more than
    [WINDOW_MS] after its first request), the next check is allowed and
    the store holds a fresh entry for it: count 1, window starting now,
    whatever the old count was. *)
Theorem expired_window_restarts identifier maxRequests now s entry :
  s !! storeKey identifier = Some entry →
  expired now entry →
  checkRateLimit now identifier maxRequests s
  = ({| allowed := true; remaining := maxRequests - 1; resetAt := now + WINDOW_MS |},
     <[storeKey identifier := {| count := 1; firstRequestAt := now |}]> s).
Proof.
  intros Hentry Hexpired. unfold checkRateLimit. rewrite Hentry.
  by rewrite decide_True.
Qed.

(** C7, as the code has it.  A run of the sweep removes exactly the
    entries whose window has fully expired and hands back every other
    entry as it was; this holds whenever the sweep runs.  The sweep runs
    every 15 minutes, which is less than the window of one hour. *)
Theorem sweep_removes_exactly_expired now s key :
  cleanupExpiredEntries now s !! key
  = match s !! key with
    | Some entry => if decide (expired now entry) then None else Some entry
    | None => None
    end
  ∧ CLEANUP_INTERVAL_MS < WINDOW_MS.
Proof. split; [apply cleanup_lookup | reflexivity]. Qed.

End WithHost.

(** C7, as stated: the sweep interval is not coarser than the window
    duration; it is a quarter of it. *)
Lemma sweep_interval_is_finer :
  4 * CLEANUP_INTERVAL_MS = WINDOW_MS ∧ (WINDOW_MS <=? CLEANUP_INTERVAL_MS) = false.
Proof. split; reflexivity. Qed.

#[local] Existing Instance ExampleHost.host.

Lemma window_allows_exactly_max_witness :
  let history := [OpCheck 2000 "203.0.113.7" 2; OpSweep 2500;
                  OpCheck 3000 "Someone Else" 9] in
  let opening := checkRateLimit 1000 "203.0.113.7" 2 ∅ in
  let made := 1 + checksOn (storeKey "203.0.113.7") history in
  let next := (checkRateLimit 4000 "203.0.113.7" 2 (runOps history opening.2)).1 in
  allowed opening.1 = true
  ∧ (allowed next = true ↔ made + 1 ≤ 2)
  ∧ (allowed next = false ↔ 2 < made + 1)
  ∧ resetAt next = 1000 + WINDOW_MS.
Proof.
  apply (window_allows_exactly_max "203.0.113.7" 2 1000 4000 ∅).
  - lia.
  - exact I.
  - constructor; [|constructor; [|constructor; [|constructor]]].
    + intros _. split; [vm_compute; discriminate | reflexivity].
    + vm_compute. discriminate.
    + intros Hkey. vm_compute in Hkey. discriminate.
  - vm_compute. discriminate.
Defined.

Lemma expired_window_restarts_witness :
  checkRateLimit 3600001 "Anna@Example.com " 3
    {[ "anna@example.com" := {| count := 3; firstRequestAt := 0 |} ]}
  = ({| allowed := true; remaining := 3 - 1; resetAt := 3600001 + WINDOW_MS |},
     <[storeKey "Anna@Example.com " := {| count := 1; firstRequestAt := 3600001 |}]>
       {[ "anna@example.com" := {| count := 3; firstRequestAt := 0 |} ]}).
Proof.
  apply (expired_window_restarts "Anna@Example.com " 3 3600001
           {[ "anna@example.com" := {| count := 3; firstRequestAt := 0 |} ]}
           {| count := 3; firstRequestAt := 0 |}).
  - reflexivity.
  - vm_compute. reflexivity.
Defined.

End RateLimiterFacts.

(** ** The CAPTCHA verifier *)

Module RecaptchaFacts.
Import Recaptcha.

(** C5.  [verifyRecaptcha] always returns a result, whatever the token,
    the secret, the remote IP and the world it runs in; when the request
    to the service fails, or the reply cannot be parsed, the result is
    [{ success: false, errorCodes: ['verification_error'] }]. *)
Theorem verifyRecaptcha_never_throws token secretKey remoteIp (w : World) :
  ∃ result,
    (verifyRecaptcha token secretKey remoteIp w).1 = inr result
    ∧ match network w (fetches w) (siteverifyRequest token secretKey remoteIp) with
      | FetchRejects => result = verificationError
      | FetchResolves response => payload response = None → result = verificationError
      end.
Proof.
  unfold verifyRecaptcha, bind, tryCatch, record, fetch, responseJson, liftE, ret, throw.
  simpl.
  destruct (network w (fetches w) _) as [|response]; simpl.
  { eexists; split; reflexivity. }
  destruct (payload response) as [result|]; simpl.
  2: { eexists; split; [reflexivity | done]. }
  destruct result; simpl; eexists; (split; [reflexivity | done]).
Qed.

(** C6.  For a result whose error codes have the type of the interface
    (absent, or a list of strings) and whose [success] member is any
    value at all, [isRecaptchaValid] answers true exactly when [success]
    is the boolean [true] and the error codes are absent or empty.  So a
    result with [success: true] and a code in the list is invalid. *)
Theorem isRecaptchaValid_iff (success score challengeTs hostname : JsValue)
    (codes : option (list string)) :
  (isRecaptchaValid {| success := success; score := score;
                       errorCodes := codesValue codes;
                       challengeTs := challengeTs; hostname := hostname |} = true
   ↔ success = JBool true ∧ (codes = None ∨ codes = Some []))
  ∧ ∀ code more,
      isRecaptchaValid {| success := JBool true; score := score;
                          errorCodes := codesValue (Some (code :: more));
                          challengeTs := challengeTs; hostname := hostname |} = false.
Proof.
  split; [|done].
  unfold isRecaptchaValid; simpl. rewrite andb_true_iff.
  split.
  - intros [Hs Hc]. split.
    + destruct success as [| |[]| | | |]; simpl in Hs; congruence.
    + destruct codes as [[|c l]|]; simpl in *; auto. discriminate.
  - intros [-> [-> | ->]]; simpl; auto.
Qed.

End RecaptchaFacts.

(** ** Sanitization *)

Module SanitizeFacts.
Import ContactRoute.

Lemma append_cons a (s1 s2 : string) : String a s1 +:+ s2 = String a (s1 +:+ s2).
Proof. reflexivity. Qed.

Lemma append_assoc (s1 s2 s3 : string) :
  (s1 +:+ s2) +:+ s3 = s1 +:+ (s2 +:+ s3).
Proof.
  induction s1 as [|a s1 IH]; [done|].
  rewrite !append_cons. by rewrite IH.
Qed.

Lemma replaceAll_app c by_ s1 s2 :
  replaceAll c by_ (s1 +:+ s2) = replaceAll c by_ s1 +:+ replaceAll c by_ s2.
Proof.
  induction s1 as [|a s1 IH]; simpl; [done|].
  destruct (Ascii.eqb a c); simpl; rewrite IH; [|done].
  by rewrite append_assoc.
Qed.

(** The five replacements in a row encode the input character by
    character: an entity put in by one replacement is not touched by the
    later ones. *)
Lemma sanitizeInput_cons c s :
  sanitizeInput (String c s) = escapeChar c +:+ sanitizeInput s.
Proof.
  unfold sanitizeInput, escapeChar.
  change (String c s) with (String c EmptyString +:+ s).
  rewrite !replaceAll_app. f_equal.
  simpl replaceAll at 5.
  destruct (Ascii.eqb_spec c "&") as [->|]; [reflexivity|].
  simpl replaceAll at 4.
  destruct (Ascii.eqb_spec c "<") as [->|]; [reflexivity|].
  simpl replaceAll at 3.
  destruct (Ascii.eqb_spec c ">") as [->|]; [reflexivity|].
  simpl replaceAll at 2.
  destruct (Ascii.eqb_spec c dquote) as [->|]; [reflexivity|].
  simpl replaceAll.
  destruct (Ascii.eqb_spec c "'") as [->|]; reflexivity.
Qed.

Lemma escapeChar_cases c :
  (c = "&"%char ∧ escapeChar c = "&amp;")
  ∨ (c = "<"%char ∧ escapeChar c = "&lt;")
  ∨ (c = ">"%char ∧ escapeChar c = "&gt;")
  ∨ (c = dquote ∧ escapeChar c = "&quot;")
  ∨ (c = "'"%char ∧ escapeChar c = "&#039;")
  ∨ (c ≠ "&"%char ∧ escapeChar c = String c EmptyString).
Proof.
  unfold escapeChar.
  destruct (Ascii.eqb_spec c "&") as [->|]; [tauto|].
  destruct (Ascii.eqb_spec c "<") as [->|]; [tauto|].
  destruct (Ascii.eqb_spec c ">") as [->|]; [tauto|].
  destruct (Ascii.eqb_spec c dquote) as [->|]; [tauto|].
  destruct (Ascii.eqb_spec c "'") as [->|]; tauto.
Qed.

(** C9.  [sanitizeInput] is injective: two inputs with the same output
    are the same input. *)
Theorem sanitizeInput_injective x y :
  sanitizeInput x = sanitizeInput y → x = y.
Proof.
  revert y. induction x as [|a x IH]; intros [|b y] Heq.
  - done.
  - rewrite sanitizeInput_cons in Heq.
    destruct (escapeChar_cases b) as [[_ Hb]|[[_ Hb]|[[_ Hb]|[[_ Hb]|[[_ Hb]|[_ Hb]]]]]];
      rewrite Hb in Heq; discriminate.
  - rewrite sanitizeInput_cons in Heq.
    destruct (escapeChar_cases a) as [[_ Ha]|[[_ Ha]|[[_ Ha]|[[_ Ha]|[[_ Ha]|[_ Ha]]]]]];
      rewrite Ha in Heq; discriminate.
  - rewrite !sanitizeInput_cons in Heq.
    destruct (escapeChar_cases a)
      as [[-> Ha]|[[-> Ha]|[[-> Ha]|[[-> Ha]|[[-> Ha]|[Hna Ha]]]]]];
    destruct (escapeChar_cases b)
      as [[-> Hb]|[[-> Hb]|[[-> Hb]|[[-> Hb]|[[-> Hb]|[Hnb Hb]]]]]];
      rewrite ?Ha, ?Hb in Heq; simpl in Heq;
      try discriminate; try (injection Heq as Heq; f_equal; by apply IH);
      try (injection Heq as ??; congruence).
    injection Heq as -> Heq. f_equal. by apply IH.
Qed.

Lemma sanitizeInput_injective_witness :
  sanitizeInput "<b>Tom & Jerry's</b>" = sanitizeInput "<b>Tom & Jerry's</b>"
  ∧ "<b>Tom & Jerry's</b>" = "<b>Tom & Jerry's</b>".
Proof.
  split; [reflexivity|].
  apply (sanitizeInput_injective "<b>Tom & Jerry's</b>" "<b>Tom & Jerry's</b>").
  reflexivity.
Defined.

End SanitizeFacts.

(** ** The route *)

Module ContactRouteFacts.
Import RateLimiter Recaptcha ContactRoute.

(** *** What a computation may record *)

Section Emits.
Context {A B : Type} (P : Event → Prop).

Lemma emits_ret (a : A) : emits P (ret a).
Proof. intros w. exists []. by rewrite app_nil_r. Qed.

Lemma emits_throw e : emits P (@throw A e).
Proof. intros w. exists []. by rewrite app_nil_r. Qed.

Lemma emits_liftE (r : JsError + A) : emits P (liftE r).
Proof. intros w. exists []. by rewrite app_nil_r. Qed.

Lemma emits_bind (m : M A) (k : A → M B) :
  emits P m → (∀ a, emits P (k a)) → emits P (bind m k).
Proof.
  intros Hm Hk w. unfold bind. destruct (Hm w) as (ev1 & Ht1 & HP1).
  destruct (m w) as [[e|a] w1]; simpl in *; [by eauto|].
  destruct (Hk a w1) as (ev2 & Ht2 & HP2).
  exists (ev1 ++ ev2)%list. rewrite Ht2, Ht1, app_assoc. split; [done|].
  by apply Forall_app.
Qed.

Lemma emits_tryCatch (m : M A) (handler : JsError → M A) :
  emits P m → (∀ e, emits P (handler e)) → emits P (tryCatch m handler).
Proof.
  intros Hm Hh w. unfold tryCatch. destruct (Hm w) as (ev1 & Ht1 & HP1).
  destruct (m w) as [[e|a] w1]; simpl in *; [|by eauto].
  destruct (Hh e w1) as (ev2 & Ht2 & HP2).
  exists (ev1 ++ ev2)%list. rewrite Ht2, Ht1, app_assoc. split; [done|].
  by apply Forall_app.
Qed.

Lemma emits_record e : P e → emits P (record e).
Proof. intros He w. exists [e]. split; [done|]. by constructor. Qed.

Lemma emits_fetch request : P (EvFetch request) → emits P (fetch request).
Proof.
  intros He w. exists [EvFetch request]. unfold fetch.
  split; [by destruct (network w (fetches w) request)|]. by constructor.
Qed.
End Emits.

Lemma emits_Date_now P : emits P Date_now.
Proof. intros w. exists []. by rewrite app_nil_r. Qed.

Lemma emits_responseJson P response : emits P (responseJson response).
Proof.
  unfold responseJson. destruct (payload response); [apply emits_ret | apply emits_throw].
Qed.

Lemma emits_onStore {A} P
    (f : gmap string RateLimitEntry → A * gmap string RateLimitEntry) :
  emits P (onStore f).
Proof.
  intros w. exists []. unfold onStore. destruct (f (rateLimitStore w)).
  by rewrite app_nil_r.
Qed.

Ltac emits_step :=
  first
    [ apply emits_ret | apply emits_throw | apply emits_liftE
    | apply emits_Date_now | apply emits_responseJson | apply emits_onStore
    | apply emits_record | apply emits_fetch
    | apply emits_bind; [|intros ?] | apply emits_tryCatch; [|intros ?]
    | match goal with
      | |- emits _ (if ?b then _ else _) => destruct b
      | |- emits _ (match ?x with _ => _ end) => destruct x
      end
    | done ].

Lemma getProp_total body p q v :
  getProp body p = inr v → ∃ v', getProp body q = inr v'.
Proof. destruct body; simpl; try discriminate; eauto. Qed.

Lemma filled_truthy body field :
  filled body field → ∃ v, getProp body field = inr v ∧ truthy v = true.
Proof.
  intros (s & Hget & Hs). exists (JStr s). split; [done|]. simpl.
  destruct s; [done|reflexivity].
Qed.

Lemma getResetTimeSeconds_pos now resetAt :
  0 < getResetTimeSeconds now resetAt ↔ now < resetAt.
Proof.
  unfold getResetTimeSeconds.
  pose proof (Z.div_mod (- (resetAt - now)) 1000 ltac:(lia)).
  pose proof (Z.mod_pos_bound (- (resetAt - now)) 1000 ltac:(lia)).
  lia.
Qed.

Section WithHost.
Context `{JsHost}.

(** **** The events of each layer *)



Lemma emits_greaterThan P v k : emits P (greaterThan v k).
Proof. unfold greaterThan. repeat emits_step. Qed.

Lemma emits_lessThan P v k : emits P (lessThan v k).
Proof. unfold lessThan. repeat emits_step. Qed.

Lemma emits_callTrim P v : emits P (callTrim v).
Proof. unfold callTrim. repeat emits_step. Qed.







(** **** Layer by layer *)

Lemma POST_runs_layers env request body w :
  present (STRAPI_API_TOKEN env) = true →
  requestJson request = Some body →
  POST env request w
  = tryCatch (layer1 env body (clientIp request))
      (λ _, ret (errorResponse 500 "Internal server error")) w.
Proof.
  intros Htoken Hbody. unfold POST. rewrite Htoken. simpl.
  unfold tryCatch, bind. by rewrite Hbody.
Qed.

Lemma layer1_honeypot env body ip w :
  filled body "website_url" ∨ filled body "website" →
  layer1 env body ip w = (inr (errorResponse 400 "Submission rejected"), w).
Proof.
  intros Hfilled.
  assert (∃ u v, getProp body "website_url" = inr u ∧ getProp body "website" = inr v
                 ∧ truthy u || truthy v = true) as (u & v & Hu & Hv & Ht).
  { destruct Hfilled as [Hf|Hf]; apply filled_truthy in Hf as (x & Hx & Htx).
    - destruct (getProp_total _ _ "website" _ Hx) as [v Hv].
      exists x, v. by rewrite Htx.
    - destruct (getProp_total _ _ "website_url" _ Hx) as [u Hu].
      exists u, x. rewrite Htx. by rewrite orb_true_r. }
  unfold layer1, bind, liftE. rewrite Hu, Hv. simpl. by rewrite Ht.
Qed.

Lemma layer1_passes env body ip w :
  honeypotEmpty body → layer1 env body ip w = layer2 env body ip w.
Proof.
  intros (u & v & Hu & Hv & Htu & Htv).
  unfold layer1, bind, liftE. by rewrite Hu, Hv, Htu, Htv.
Qed.

Lemma noToken_tokenMissing recaptchaToken :
  noToken recaptchaToken → tokenMissing recaptchaToken = true.
Proof.
  unfold tokenMissing. intros [Hns | (s & -> & Hblank)].
  - rewrite Hns. simpl. by rewrite orb_true_r.
  - rewrite Hblank. simpl. by rewrite orb_true_r.
Qed.

Lemma token_given token :
  trim token ≠ "" → tokenMissing (JStr token) = false.
Proof.
  intros Hne. unfold tokenMissing. simpl.
  destruct (String.eqb_spec token "") as [-> | _]; [by destruct Hne|].
  simpl. by apply String.eqb_neq.
Qed.

Lemma layer2_passes env body ip w w1 :
  captchaPasses env body ip w w1 → layer2 env body ip w = layer3 env body ip w1.
Proof.
  intros [[Hoff ->] | (Hon & token & result & Htok & Hgiven & Hverify & Hvalid)].
  - unfold layer2. by rewrite Hoff.
  - unfold layer2. rewrite Hon. unfold bind at 1, liftE at 1. rewrite Htok.
    rewrite token_given by done. unfold bind at 1. rewrite Hverify.
    by rewrite Hvalid.
Qed.

(** The verifier reads no clock and leaves the store alone. *)
Lemma verifyRecaptcha_frame token secretKey remoteIp w :
  let w1 := (verifyRecaptcha token secretKey remoteIp w).2 in
  rateLimitStore w1 = rateLimitStore w ∧ clock w1 = clock w ∧ ticks w1 = ticks w.
Proof.
  unfold verifyRecaptcha, bind, tryCatch, record, fetch, responseJson, liftE, ret, throw.
  simpl. destruct (network w (fetches w) _) as [|response]; simpl; [done|].
  destruct (payload response) as [result|]; simpl; [|done].
  destruct result; simpl; done.
Qed.

Lemma captchaPasses_frame env body ip w w1 :
  captchaPasses env body ip w w1 →
  rateLimitStore w1 = rateLimitStore w ∧ clock w1 = clock w ∧ ticks w1 = ticks w.
Proof.
  intros [[_ ->] | (_ & token & result & _ & _ & Hverify & _)]; [done|].
  pose proof (verifyRecaptcha_frame token (RECAPTCHA_SECRET_KEY env) (Some ip) w) as Hf.
  by rewrite Hverify in Hf.
Qed.

Lemma layer3_denied env body ip w entry :
  rateLimitStore w !! storeKey ("ip:" +:+ ip) = Some entry →
  ¬ expired (clock w (ticks w)) entry →
  MAX_REQUESTS_PER_IP ≤ count entry →
  ∃ w',
    layer3 env body ip w
    = (inr (rateLimitResponse "Too many requests"
              (getResetTimeSeconds (clock w (S (ticks w)))
                 (firstRequestAt entry + WINDOW_MS))), w')
    ∧ rateLimitStore w' = rateLimitStore w.
Proof.
  intros Hentry Hactive Hfull.
  unfold layer3, checkIpRateLimitM, checkRateLimitM, getResetTimeSecondsM.
  unfold bind, Date_now, record, onStore, ret. simpl.
  unfold checkRateLimit. rewrite Hentry.
  rewrite decide_False by done. rewrite decide_True by lia. simpl.
  eexists. split; reflexivity.
Qed.

(** Each call the specification speaks of leaves its mark on the world:
    a world that is unchanged has seen none of them. *)
Lemma calls_leave_a_trace w :
  (∀ request, length (trace (fetch request w).2) = S (length (trace w)))
  ∧ (∀ identifier maxRequests,
       length (trace (checkRateLimitM identifier maxRequests w).2) = S (length (trace w)))
  ∧ (∀ token secretKey remoteIp,
       length (trace (verifyRecaptcha token secretKey remoteIp w).2)
       = S (S (length (trace w)))).
Proof.
  split_and!.
  - intros request. unfold fetch.
    destruct (network w (fetches w) request); simpl; rewrite length_app; simpl; lia.
  - intros identifier maxRequests.
    unfold checkRateLimitM, bind, Date_now, record, onStore. simpl.
    destruct (checkRateLimit _ _ _ _). simpl. rewrite length_app. simpl. lia.
  - intros token secretKey remoteIp.
    unfold verifyRecaptcha, bind, tryCatch, record, fetch, responseJson, liftE, ret, throw.
    simpl. destruct (network w (fetches w) _) as [|response]; simpl.
    { rewrite !length_app. simpl. lia. }
    destruct (payload response) as [result|]; simpl.
    2: { rewrite !length_app. simpl. lia. }
    destruct result; simpl; rewrite !length_app; simpl; lia.
Qed.

Lemma REQUIRE_CAPTCHA_iff env :
  REQUIRE_CAPTCHA env = false
  ↔ IS_DEV env = true ∧ usableSecret (RECAPTCHA_SECRET_KEY env) = false.
Proof.
  unfold REQUIRE_CAPTCHA, usableSecret.
  destruct (IS_DEV env); simpl; [|intuition discriminate].
  tauto.
Qed.

(** **** The properties of the specification *)

(** C3, as the code has it.  For a submission whose honeypot field
    ([website_url] or [website]) is a non-empty string, the route leaves
    the world as it found it: no CAPTCHA verification, no IP or email
    rate-limit check, no request to the content store (each of these
    would add to the trace, read the clock or change the store).  When
    the Strapi token is configured the answer is 400 "Submission
    rejected". *)
Theorem honeypot_rejected_before_any_call env request body w :
  requestJson request = Some body →
  filled body "website_url" ∨ filled body "website" →
  (POST env request w).2 = w
  ∧ (present (STRAPI_API_TOKEN env) = true →
     (POST env request w).1 = inr (errorResponse 400 "Submission rejected")).
Proof.
  intros Hbody Hfilled. unfold POST.
  destruct (present (STRAPI_API_TOKEN env)); simpl; [|done].
  unfold tryCatch, bind. rewrite Hbody. simpl.
  by rewrite layer1_honeypot.
Qed.

(** C4, as the code has it.  Verification is skipped exactly in
    development mode without a usable secret: then layer 2 does nothing
    and the request goes on to layer 3.  In every other configuration
    it is mandatory: a token that is a non-blank string is sent to the
    verifier and the request goes on only when the answer is valid; a
    token that is missing, not a string or blank is refused with the
    world untouched, so before any call to the verification service, and
    the answer is a 400 when the Strapi token is configured and the body
    is a JSON value that has properties. *)
Theorem captcha_enforcement env :
  (REQUIRE_CAPTCHA env = false
   ↔ IS_DEV env = true ∧ usableSecret (RECAPTCHA_SECRET_KEY env) = false)
  ∧ (REQUIRE_CAPTCHA env = false →
     ∀ body ip w, layer2 env body ip w = layer3 env body ip w)
  ∧ (REQUIRE_CAPTCHA env = true →
     ∀ body ip token w,
       getProp body "recaptchaToken" = inr (JStr token) →
       trim token ≠ "" →
       layer2 env body ip w
       = (let! recaptchaResult :=
            verifyRecaptcha token (RECAPTCHA_SECRET_KEY env) (Some ip) in
          if negb (isRecaptchaValid recaptchaResult) then
            ret (errorResponse 400 "reCAPTCHA verification failed")
          else layer3 env body ip) w)
  ∧ (REQUIRE_CAPTCHA env = true →
     ∀ request body recaptchaToken w,
       requestJson request = Some body →
       getProp body "recaptchaToken" = inr recaptchaToken →
       noToken recaptchaToken →
       (POST env request w).2 = w
       ∧ (present (STRAPI_API_TOKEN env) = true →
          ∃ message, (POST env request w).1 = inr (errorResponse 400 message))).
Proof.
  split_and!.
  - apply REQUIRE_CAPTCHA_iff.
  - intros Hoff body ip w. unfold layer2. by rewrite Hoff.
  - intros Hon body ip token w Htok Hgiven. unfold layer2. rewrite Hon.
    unfold bind at 1. unfold liftE at 1. rewrite Htok.
    by rewrite token_given.
  - intros Hon request body tok w Hbody Htok Hno.
    assert (∃ message,
              layer1 env body (clientIp request) w
              = (inr (errorResponse 400 message), w)) as [message Hrun].
    { destruct (getProp_total _ _ "website_url" _ Htok) as [u Hu].
      destruct (getProp_total _ _ "website" _ Htok) as [v Hv].
      unfold layer1, bind, liftE. rewrite Hu, Hv.
      destruct (truthy u || truthy v); [by eexists|].
      unfold layer2, bind, liftE. rewrite Hon, Htok.
      rewrite (noToken_tokenMissing _ Hno). by eexists. }
    unfold POST.
    destruct (present (STRAPI_API_TOKEN env)); simpl; [|done].
    unfold tryCatch, bind. rewrite Hbody. simpl. rewrite Hrun. simpl. eauto.
Qed.

(** C8, as the code has it.  The Strapi token is configured; the
    submission passes the honeypot and the CAPTCHA layers; five checks
    of its IP have been counted in the window that opened at [first]
    (the opening one and four in the history [ops]), and the clock read
    by the rate limiter is still within the window.  Then the answer is
    a 429 whose body carries [retryAfter], the seconds from the second
    reading of the clock, [now], to the reset of the window, rounded up,
    and whose [Retry-After] header carries the same number.  It is
    positive exactly when [now] is before the reset. *)
Theorem sixth_request_from_ip env request body w w1 s0 first ops :
  present (STRAPI_API_TOKEN env) = true →
  requestJson request = Some body →
  honeypotEmpty body →
  captchaPasses env body (clientIp request) w w1 →
  opensWindow first (storeKey ("ip:" +:+ clientIp request)) s0 →
  Forall (inWindow first (storeKey ("ip:" +:+ clientIp request)) MAX_REQUESTS_PER_IP) ops →
  1 + checksOn (storeKey ("ip:" +:+ clientIp request)) ops = 5 →
  rateLimitStore w = runOps ops (checkIpRateLimit first (clientIp request) s0).2 →
  clock w (ticks w) - first ≤ WINDOW_MS →
  let now := clock w (S (ticks w)) in
  ∃ retryAfter response w',
    POST env request w = (inr response, w')
    ∧ status response = 429
    ∧ ContactRoute.body response
      = jsonObject [("error", JStr "Too many requests");
                    ("retryAfter", JNum (inject_Z retryAfter))]
    ∧ headers response = [("Content-Type", "application/json");
                          ("Retry-After", pretty retryAfter)]
    ∧ retryAfter = getResetTimeSeconds now (first + WINDOW_MS)
    ∧ (0 < retryAfter ↔ now < first + WINDOW_MS)
    ∧ rateLimitStore w' = rateLimitStore w.
Proof.
  intros Htoken Hbody Hhoney Hcaptcha Hopen Hops Hfive Hstore0 Hwindow now.
  assert (rateLimitStore w !! storeKey ("ip:" +:+ clientIp request)
          = Some {| count := MAX_REQUESTS_PER_IP; firstRequestAt := first |}) as Hentry.
  { pose proof (RateLimiterFacts.counted_opening first ("ip:" +:+ clientIp request)
                  MAX_REQUESTS_PER_IP s0 ltac:(done) Hopen) as Hc.
    pose proof (RateLimiterFacts.counted_run _ _ _ _ _ _ Hc Hops) as Hc'.
    unfold counted in Hc'. rewrite Hfive in Hc'. by rewrite Hstore0. }
  destruct (captchaPasses_frame _ _ _ _ _ Hcaptcha) as (Hstore & Hclock & Hticks).
  destruct (layer3_denied env body (clientIp request) w1
              {| count := MAX_REQUESTS_PER_IP; firstRequestAt := first |})
    as (w' & Hrun & Hstore').
  { by rewrite Hstore. }
  { rewrite Hclock, Hticks. unfold expired. simpl. lia. }
  { done. }
  rewrite Hclock, Hticks in Hrun. simpl in Hrun. fold now in Hrun.
  exists (getResetTimeSeconds now (first + WINDOW_MS)),
    (rateLimitResponse "Too many requests"
       (getResetTimeSeconds now (first + WINDOW_MS))), w'.
  split_and!; try done.
  - rewrite (POST_runs_layers _ _ body) by done. unfold tryCatch.
    rewrite layer1_passes by done.
    rewrite (layer2_passes _ _ _ _ _ Hcaptcha). by rewrite Hrun.
  - apply getResetTimeSeconds_pos.
  - by rewrite Hstore'.
Qed.

End WithHost.

(** *** On concrete requests *)

Import Examples.
#[local] Existing Instance ExampleHost.host.

(** C3, as stated: without the Strapi token a submission with the
    honeypot filled in is answered 500, not 400. *)
Lemma honeypot_without_credential :
  filled botBody "website_url"
  ∧ (POST prodEnvWithoutToken (requestFrom clientIpAddress botBody)
       (offlineWorld ∅ (λ _, 0))).1
    = inr (errorResponse 500 "Server configuration error")
  ∧ status (errorResponse 500 "Server configuration error") ≠ 400.
Proof.
  split_and!.
  - exists "http://spam.example". split; [reflexivity | discriminate].
  - reflexivity.
  - discriminate.
Qed.

Lemma honeypot_rejected_before_any_call_witness :
  (POST devEnv (requestFrom clientIpAddress botBody) (offlineWorld ∅ (λ _, 0))).2
  = offlineWorld ∅ (λ _, 0)
  ∧ (POST devEnv (requestFrom clientIpAddress botBody) (offlineWorld ∅ (λ _, 0))).1
    = inr (errorResponse 400 "Submission rejected").
Proof.
  destruct (honeypot_rejected_before_any_call devEnv
              (requestFrom clientIpAddress botBody) botBody (offlineWorld ∅ (λ _, 0)))
    as [Hworld Hanswer].
  - reflexivity.
  - left. exists "http://spam.example". split; [reflexivity | discriminate].
  - split; [exact Hworld | apply Hanswer; reflexivity].
Defined.

(** C4, as stated: verification is mandatory, the token is missing, and
    the answer is 500, not 400, because the Strapi token is not set. *)
Lemma missing_token_without_credential :
  REQUIRE_CAPTCHA prodEnvWithoutToken = true
  ∧ getProp validBody "recaptchaToken" = inr JUndefined
  ∧ noToken JUndefined
  ∧ (POST prodEnvWithoutToken (requestFrom clientIpAddress validBody)
       (offlineWorld ∅ (λ _, 0))).1
    = inr (errorResponse 500 "Server configuration error")
  ∧ status (errorResponse 500 "Server configuration error") ≠ 400.
Proof.
  split_and!; try reflexivity.
  - by left.
  - discriminate.
Qed.

(** A body that is the JSON value [null] has no properties to read: the
    route answers 500 "Internal server error" from its [catch]. *)
Lemma null_body_is_an_internal_error :
  (POST prodEnv (requestFrom clientIpAddress JNull) (offlineWorld ∅ (λ _, 0))).1
  = inr (errorResponse 500 "Internal server error").
Proof. reflexivity. Qed.

Lemma captcha_enforcement_witness :
  REQUIRE_CAPTCHA prodEnv = true
  ∧ noToken JUndefined
  ∧ (POST prodEnv (requestFrom clientIpAddress validBody) (offlineWorld ∅ (λ _, 0))).2
    = offlineWorld ∅ (λ _, 0)
  ∧ ∃ message,
      (POST prodEnv (requestFrom clientIpAddress validBody) (offlineWorld ∅ (λ _, 0))).1
      = inr (errorResponse 400 message).
Proof.
  destruct (captcha_enforcement prodEnv) as (_ & _ & _ & Hrefused).
  destruct (Hrefused eq_refl (requestFrom clientIpAddress validBody) validBody
              JUndefined (offlineWorld ∅ (λ _, 0)) eq_refl eq_refl (or_introl eq_refl))
    as [Hworld Hanswer].
  split_and!; [reflexivity | by left | exact Hworld | exact (Hanswer eq_refl)].
Defined.

(** C8, as stated: the sixth request arrives one millisecond before the
    hour is over and the clock has moved on to the hour when the delay
    is computed; the answer is a 429 with [retryAfter] 0. *)
Lemma sixth_request_at_the_end_of_the_window :
  let w := offlineWorld afterFiveChecks
             (λ n, match n with O => 3599999 | _ => 3600000 end) in
  ∃ response,
    (POST devEnv (requestFrom clientIpAddress validBody) w).1 = inr response
    ∧ status response = 429
    ∧ ContactRoute.body response
      = jsonObject [("error", JStr "Too many requests"); ("retryAfter", JNum 0)]
    ∧ headers response = [("Content-Type", "application/json"); ("Retry-After", "0")].
Proof. eexists. split_and!; reflexivity. Qed.

Lemma sixth_request_from_ip_witness :
  let w := offlineWorld afterFiveChecks (λ _, 1800000) in
  ∃ retryAfter response w',
    POST devEnv (requestFrom clientIpAddress validBody) w = (inr response, w')
    ∧ status response = 429
    ∧ ContactRoute.body response
      = jsonObject [("error", JStr "Too many requests");
                    ("retryAfter", JNum (inject_Z retryAfter))]
    ∧ headers response = [("Content-Type", "application/json");
                          ("Retry-After", pretty retryAfter)]
    ∧ retryAfter = getResetTimeSeconds 1800000 (0 + WINDOW_MS)
    ∧ (0 < retryAfter ↔ 1800000 < 0 + WINDOW_MS)
    ∧ rateLimitStore w' = rateLimitStore w.
Proof.
  apply (sixth_request_from_ip devEnv (requestFrom clientIpAddress validBody) validBody
           (offlineWorld afterFiveChecks (λ _, 1800000))
           (offlineWorld afterFiveChecks (λ _, 1800000)) ∅ 0 fourMoreChecks).
  - reflexivity.
  - reflexivity.
  - exists JUndefined, JUndefined. by split_and!.
  - left. by split.
  - exact I.
  - repeat (constructor; [try (intros _; split; [vm_compute; discriminate | reflexivity]);
                          try (vm_compute; discriminate);
                          try (intros Hkey; vm_compute in Hkey; discriminate) |]).
    constructor.
  - reflexivity.
  - reflexivity.
  - vm_compute. discriminate.
Defined.

End ContactRouteFacts.

(** * Further properties of the code *)

(** ** The rate limiter *)

Module LimiterFacts.
Import RateLimiter Histories.

Section WithHost.
Context `{JsHost}.
Implicit Types (s : gmap string RateLimitEntry) (key : string).

Lemma cleanup_insert_live now s key entry :
  ¬ expired now entry →
  cleanupExpiredEntries now (<[key := entry]> s)
  = <[key := entry]> (cleanupExpiredEntries now s).
Proof.
  intros Hlive. unfold cleanupExpiredEntries.
  by rewrite map_filter_insert_True.
Qed.

Lemma expired_mono now now' entry :
  now' ≤ now → expired now' entry → expired now entry.
Proof. unfold expired. lia. Qed.

Lemma cleanup_absorbs now now' s :
  now' ≤ now →
  cleanupExpiredEntries now (cleanupExpiredEntries now' s) = cleanupExpiredEntries now s
  ∧ cleanupExpiredEntries now' (cleanupExpiredEntries now s) = cleanupExpiredEntries now s.
Proof.
  intros Hle. split; apply map_eq; intros key;
    rewrite !RateLimiterFacts.cleanup_lookup;
    destruct (s !! key) as [entry|]; try done;
    repeat (case_decide; try done); exfalso; eauto using expired_mono.
Qed.

(** A sweep that ran before a check shows neither in the answer of the
    check nor, once the sweep has run, in the store. *)
Lemma sweep_before_check now now' identifier maxRequests s :
  now' ≤ now →
  checkRateLimit now identifier maxRequests (cleanupExpiredEntries now' s)
  = ((checkRateLimit now identifier maxRequests s).1,
     cleanupExpiredEntries now' (checkRateLimit now identifier maxRequests s).2).
Proof.
  intros Hle. unfold checkRateLimit.
  rewrite RateLimiterFacts.cleanup_lookup.
  assert (¬ expired now' {| count := 1; firstRequestAt := now |}) as Hfresh.
  { unfold expired, WINDOW_MS. simpl. lia. }
  destruct (s !! storeKey identifier) as [entry|] eqn:Hentry; simpl.
  - destruct (decide (expired now' entry)) as [Hexp'|Hlive'].
    + rewrite decide_True by eauto using expired_mono. simpl.
      by rewrite cleanup_insert_live.
    + destruct (decide (expired now entry)); simpl.
      { by rewrite cleanup_insert_live. }
      case_decide; simpl; [done|].
      by rewrite cleanup_insert_live.
  - by rewrite cleanup_insert_live.
Qed.

Lemma sweeps_keep_live_entries start ops : ∀ s s',
  chronological start ops →
  cleanupExpiredEntries start s = cleanupExpiredEntries start s' →
  cleanupExpiredEntries (lastTime start ops) (runOps ops s)
  = cleanupExpiredEntries (lastTime start ops) (runOps (List.filter isCheck ops) s').
Proof.
  unfold lastTime, runOps. revert start.
  induction ops as [|op ops IH]; intros start s s' Hchron Hsame; [done|].
  destruct Hchron as [Hstart Hchron].
  assert (cleanupExpiredEntries (opTime op) s = cleanupExpiredEntries (opTime op) s')
    as Hnow.
  { rewrite <- (proj1 (cleanup_absorbs (opTime op) start s Hstart)).
    rewrite <- (proj1 (cleanup_absorbs (opTime op) start s' Hstart)).
    by rewrite Hsame. }
  destruct op as [now identifier maxRequests | now]; simpl in *.
  - apply IH; [done|].
    pose proof (sweep_before_check now now identifier maxRequests s ltac:(lia)) as Hs.
    pose proof (sweep_before_check now now identifier maxRequests s' ltac:(lia)) as Hs'.
    rewrite Hnow in Hs. rewrite Hs in Hs'. by simplify_eq.
  - apply IH; [done|].
    by rewrite (proj1 (cleanup_absorbs now now s ltac:(lia))).
Qed.

(** X1.  The sweep is invisible to the callers of the limiter: when the
    clock does not run backwards, a check gets the same answer after a
    history as after the same history with all the sweeps left out. *)
Theorem sweeps_never_change_an_answer start ops now identifier maxRequests s :
  chronological start ops →
  lastTime start ops ≤ now →
  (checkRateLimit now identifier maxRequests (runOps ops s)).1
  = (checkRateLimit now identifier maxRequests (runOps (List.filter isCheck ops) s)).1.
Proof.
  intros Hchron Hnow.
  pose proof (sweeps_keep_live_entries start ops s s Hchron eq_refl) as Hsame.
  assert (cleanupExpiredEntries now (runOps ops s)
          = cleanupExpiredEntries now (runOps (List.filter isCheck ops) s)) as Hlive.
  { rewrite <- (proj1 (cleanup_absorbs now _ (runOps ops s) Hnow)).
    rewrite <- (proj1 (cleanup_absorbs now _ (runOps (List.filter isCheck ops) s)
                         Hnow)).
    by rewrite Hsame. }
  pose proof (sweep_before_check now now identifier maxRequests (runOps ops s)
                ltac:(lia)) as Hs.
  pose proof (sweep_before_check now now identifier maxRequests
                (runOps (List.filter isCheck ops) s) ltac:(lia)) as Hs'.
  rewrite Hlive in Hs. rewrite Hs in Hs'. by simplify_eq.
Qed.

(** X2.  A sweep makes the earlier ones redundant: sweeping at [now']
    and then at a later [now], in either order, gives the store that the
    sweep at [now] gives alone.  The empty store stays empty. *)
Theorem sweep_absorbs_earlier_sweep now now' s :
  now' ≤ now →
  cleanupExpiredEntries now (cleanupExpiredEntries now' s) = cleanupExpiredEntries now s
  ∧ cleanupExpiredEntries now' (cleanupExpiredEntries now s) = cleanupExpiredEntries now s
  ∧ cleanupExpiredEntries now (∅ : gmap string RateLimitEntry) = ∅.
Proof.
  intros Hle. destruct (cleanup_absorbs now now' s Hle). by split_and!.
Qed.

(** X3.  A check is refused exactly when the identifier has an entry
    whose window is still open and whose count has reached the limit;
    a refused check leaves the store as it was and reports no request
    remaining. *)
Theorem denied_exactly_when_full now identifier maxRequests s :
  let out := checkRateLimit now identifier maxRequests s in
  (allowed out.1 = false
   ↔ ∃ entry, s !! storeKey identifier = Some entry
              ∧ ¬ expired now entry ∧ maxRequests ≤ count entry)
  ∧ (allowed out.1 = false → out.2 = s ∧ remaining out.1 = 0).
Proof.
  unfold checkRateLimit.
  destruct (s !! storeKey identifier) as [entry|]; simpl.
  - destruct (decide (expired now entry)); simpl.
    { split; [|done]. split; [done|]. by intros (? & [= <-] & ? & _). }
    case_decide; simpl.
    + split; [|done]. split; [|done]. intros _. exists entry. split_and!; [done..|lia].
    + split; [|done]. split; [done|]. intros (? & [= <-] & _ & ?). lia.
  - split; [|done]. split; [done|]. by intros (? & ? & _).
Qed.

(** X4.  After every check the identifier has a live entry in the
    store; [resetAt] is the end of that entry's window; when the check is
    allowed, [remaining] is the limit minus the entry's count.  No other
    key of the store is touched, and with a limit of at least one
    [remaining] is never negative. *)
Theorem check_result_mirrors_the_entry now identifier maxRequests s :
  let out := checkRateLimit now identifier maxRequests s in
  (∃ entry, out.2 !! storeKey identifier = Some entry
            ∧ ¬ expired now entry
            ∧ resetAt out.1 = firstRequestAt entry + WINDOW_MS
            ∧ (allowed out.1 = true → remaining out.1 = maxRequests - count entry))
  ∧ (∀ key, key ≠ storeKey identifier → out.2 !! key = s !! key)
  ∧ (1 ≤ maxRequests → 0 ≤ remaining out.1).
Proof.
  assert (¬ expired now {| count := 1; firstRequestAt := now |}) as Hfresh.
  { unfold expired, WINDOW_MS. simpl. lia. }
  split_and!.
  - unfold checkRateLimit.
    destruct (s !! storeKey identifier) as [entry|] eqn:Hentry; simpl.
    + destruct (decide (expired now entry)); simpl.
      { eexists. rewrite lookup_insert_eq. split_and!; [done..|]. simpl. intros _. lia. }
      case_decide; simpl.
      * exists entry. by split_and!.
      * eexists. rewrite lookup_insert_eq. by split_and!.
    + eexists. rewrite lookup_insert_eq. split_and!; [done..|]. simpl. intros _. lia.
  - intros key Hkey. by apply RateLimiterFacts.checkRateLimit_other.
  - intros Hmax. unfold checkRateLimit.
    destruct (s !! storeKey identifier) as [entry|]; simpl; [|lia].
    repeat (case_decide; simpl); lia.
Qed.

Lemma checksOn_snoc key ops op :
  checksOn key (ops ++ [op]) = checksOn key ops + (if checksKey key op then 1 else 0).
Proof.
  unfold checksOn. rewrite List.filter_app, length_app. simpl.
  destruct (checksKey key op); simpl; lia.
Qed.

Lemma runOps_snoc ops op s : runOps (ops ++ [op]) s = applyOp (runOps ops s) op.
Proof. unfold runOps. by rewrite foldl_app. Qed.

(** X5.  Start from the empty store (a restart of the server) and run
    any history of checks and sweeps in which every check asks for a
    limit between 1 and [limit].  Every entry then has a count between 1
    and [limit], not more than the number of checks made of its key, and
    a window that began at one of these checks. *)
Theorem stored_counts_stay_within_the_limit limit ops key entry :
  Forall (limitsWithin limit) ops →
  runOps ops ∅ !! key = Some entry →
  1 ≤ count entry ≤ limit
  ∧ count entry ≤ checksOn key ops
  ∧ ∃ now identifier maxRequests,
      In (OpCheck now identifier maxRequests) ops
      ∧ storeKey identifier = key ∧ firstRequestAt entry = now.
Proof.
  revert key entry. induction ops as [|op ops IH] using rev_ind; intros key entry Hops.
  { unfold runOps. simpl. by rewrite lookup_empty. }
  apply Forall_app in Hops as [Hops Hop]. rewrite Forall_singleton in Hop.
  specialize (λ key entry, IH key entry Hops).
  rewrite runOps_snoc, checksOn_snoc.
  assert (∀ old more, runOps ops ∅ !! key = Some old →
            0 ≤ more →
            1 ≤ count old ≤ limit
            ∧ count old ≤ checksOn key ops + more
            ∧ ∃ now identifier maxRequests,
                In (OpCheck now identifier maxRequests) (ops ++ [op])
                ∧ storeKey identifier = key ∧ firstRequestAt old = now) as Hold.
  { intros old more Hlook Hpos. destruct (IH key old Hlook) as (? & ? & now & id & m & ? & ? & ?).
    split_and!; [lia..|]. exists now, id, m. rewrite in_app_iff. by split_and!; [left|..]. }
  destruct op as [now identifier maxRequests | now]; simpl in *.
  - destruct (decide (storeKey identifier = key)) as [Hkey|Hkey].
    2:{ rewrite RateLimiterFacts.checkRateLimit_other by done.
        rewrite bool_decide_eq_false_2 by done. intros Hlook. by apply Hold. }
    rewrite bool_decide_eq_true_2 by done. subst key.
    assert (0 ≤ checksOn (storeKey identifier) ops) as Hnonneg by (unfold checksOn; lia).
    assert (∃ now' identifier' maxRequests',
              In (OpCheck now' identifier' maxRequests')
                 (ops ++ [OpCheck now identifier maxRequests])
              ∧ storeKey identifier' = storeKey identifier ∧ now = now') as Hthis.
    { exists now, identifier, maxRequests. rewrite in_app_iff. split_and!; [|done..].
      right. by left. }
    unfold checkRateLimit.
    destruct (runOps ops ∅ !! storeKey identifier) as [old|] eqn:Hlook; simpl.
    + destruct (Hold old 0 eq_refl ltac:(lia)) as (? & ? & Hopened).
      destruct (decide (expired now old)); simpl.
      { rewrite lookup_insert_eq. intros [= <-]. simpl. split_and!; [lia..|done]. }
      case_decide; simpl.
      * rewrite Hlook. intros [= <-]. split_and!; [lia..|done].
      * rewrite lookup_insert_eq. intros [= <-]. simpl. split_and!; [lia..|done].
    + rewrite lookup_insert_eq. intros [= <-]. simpl. split_and!; [lia..|done].
  - rewrite RateLimiterFacts.cleanup_lookup.
    destruct (runOps ops ∅ !! key) as [old|] eqn:Hlook; [|done].
    case_decide; [done|]. intros [= <-].
    by apply Hold.
Qed.

(** X6.  When the entry of the identifier, if there is one, began in
    the past, the window a check reports ends between now and one
    window from now.  The delay computed from it at a later reading of
    the clock is the number of milliseconds left, rounded up to whole
    seconds; it is at most 3600, and positive exactly when the reading is
    before the end of the window. *)
Theorem retry_delay_bounds now later identifier maxRequests s :
  (∀ entry, s !! storeKey identifier = Some entry → firstRequestAt entry ≤ now) →
  now ≤ later →
  let out := checkRateLimit now identifier maxRequests s in
  let delay := getResetTimeSeconds later (resetAt out.1) in
  now ≤ resetAt out.1 ≤ now + WINDOW_MS
  ∧ 1000 * (delay - 1) < resetAt out.1 - later ≤ 1000 * delay
  ∧ delay ≤ 3600
  ∧ (0 < delay ↔ later < resetAt out.1).
Proof.
  intros Hpast Hlater out delay.
  assert (now ≤ resetAt out.1 ≤ now + WINDOW_MS) as Hreset.
  { subst out. unfold checkRateLimit.
    destruct (s !! storeKey identifier) as [entry|] eqn:Hentry; simpl;
      [|unfold WINDOW_MS; lia].
    specialize (Hpast entry eq_refl).
    destruct (decide (expired now entry)) as [|Hlive]; simpl; [unfold WINDOW_MS; lia|].
    unfold expired in Hlive. case_decide; simpl; lia. }
  subst delay. unfold getResetTimeSeconds, WINDOW_MS in *.
  pose proof (Z.div_mod (- (resetAt out.1 - later)) 1000 ltac:(lia)).
  pose proof (Z.mod_pos_bound (- (resetAt out.1 - later)) 1000 ltac:(lia)).
  lia.
Qed.

End WithHost.

#[local] Existing Instance ExampleHost.host.

Lemma sweep_absorbs_earlier_sweep_witness :
  let s : gmap string RateLimitEntry :=
    {[ "ip:203.0.113.7" := {| count := 2; firstRequestAt := 0 |} ]} in
  cleanupExpiredEntries 3600001 (cleanupExpiredEntries 900000 s)
  = cleanupExpiredEntries 3600001 s
  ∧ cleanupExpiredEntries 900000 (cleanupExpiredEntries 3600001 s)
    = cleanupExpiredEntries 3600001 s
  ∧ cleanupExpiredEntries 3600001 (∅ : gmap string RateLimitEntry) = ∅.
Proof.
  intros s. apply (sweep_absorbs_earlier_sweep 3600001 900000 s). lia.
Defined.

Lemma sweeps_never_change_an_answer_witness :
  let s := (checkIpRateLimit 0 Examples.clientIpAddress ∅).2 in
  (checkRateLimit 300000 "ip:203.0.113.7" 5 (runOps Examples.fourMoreChecks s)).1
  = (checkRateLimit 300000 "ip:203.0.113.7" 5
       (runOps (List.filter isCheck Examples.fourMoreChecks) s)).1.
Proof.
  intros s.
  apply (sweeps_never_change_an_answer 0 Examples.fourMoreChecks 300000
           "ip:203.0.113.7" 5 s).
  - simpl. lia.
  - vm_compute. discriminate.
Defined.

Lemma stored_counts_stay_within_the_limit_witness :
  let ops := [OpCheck 0 "ip:203.0.113.7" 5; OpSweep 900000;
              OpCheck 950000 "IP:203.0.113.7 " 5] in
  let entry := {| count := 2; firstRequestAt := 0 |} in
  1 ≤ count entry ≤ 5
  ∧ count entry ≤ checksOn "ip:203.0.113.7" ops
  ∧ ∃ now identifier maxRequests,
      In (OpCheck now identifier maxRequests) ops
      ∧ storeKey identifier = "ip:203.0.113.7" ∧ firstRequestAt entry = now.
Proof.
  intros ops entry.
  apply (stored_counts_stay_within_the_limit 5 ops "ip:203.0.113.7" entry).
  - constructor; [simpl; lia|constructor; [exact I|constructor; [simpl; lia|constructor]]].
  - vm_compute. reflexivity.
Defined.

Lemma retry_delay_bounds_witness :
  let s : gmap string RateLimitEntry :=
    {[ "ip:203.0.113.7" := {| count := 5; firstRequestAt := 1000 |} ]} in
  let out := checkRateLimit 2000 "ip:203.0.113.7" 5 s in
  let delay := getResetTimeSeconds 2500 (resetAt out.1) in
  2000 ≤ resetAt out.1 ≤ 2000 + WINDOW_MS
  ∧ 1000 * (delay - 1) < resetAt out.1 - 2500 ≤ 1000 * delay
  ∧ delay ≤ 3600
  ∧ (0 < delay ↔ 2500 < resetAt out.1).
Proof.
  intros s.
  apply (retry_delay_bounds 2000 2500 "ip:203.0.113.7" 5 s).
  - intros entry Hentry. vm_compute in Hentry. injection Hentry as <-. simpl. lia.
  - lia.
Defined.

End LimiterFacts.

(** ** Text: the sanitizer, the email test, the IP of a request *)

Module TextFacts.
Import ContactRoute Markup.
#[local] Arguments Ascii.eqb : simpl never.
#[local] Arguments String.eqb : simpl never.

Lemma occurs_app c s t : occurs c (s +:+ t) = occurs c s || occurs c t.
Proof.
  induction s as [|a s IH]; [done|].
  rewrite SanitizeFacts.append_cons. cbn [occurs]. by rewrite IH, orb_assoc.
Qed.

Lemma escapeChar_special c :
  if special c
  then occurs "&" (escapeChar c) = true ∧ escapeChar c ≠ String c ""
       ∧ (String.length (escapeChar c) ≤ 6)%nat ∧ (2 ≤ String.length (escapeChar c))%nat
  else escapeChar c = String c "".
Proof.
  unfold special, escapeChar.
  destruct (Ascii.eqb_spec c "&") as [->|];
    [by split_and!; [reflexivity | discriminate | simpl; lia..]|].
  destruct (Ascii.eqb_spec c "<") as [->|];
    [by split_and!; [reflexivity | discriminate | simpl; lia..]|].
  destruct (Ascii.eqb_spec c ">") as [->|];
    [by split_and!; [reflexivity | discriminate | simpl; lia..]|].
  destruct (Ascii.eqb_spec c dquote) as [->|];
    [by split_and!; [reflexivity | discriminate | simpl; lia..]|].
  destruct (Ascii.eqb_spec c "'") as [->|];
    [by split_and!; [reflexivity | discriminate | simpl; lia..]|].
  done.
Qed.

Lemma escapeChar_inert c d :
  d = "<"%char ∨ d = ">"%char ∨ d = dquote ∨ d = "'"%char →
  occurs d (escapeChar c) = false.
Proof.
  intros Hd.
  destruct (SanitizeFacts.escapeChar_cases c)
    as [[_ Hc]|[[_ Hc]|[[_ Hc]|[[_ Hc]|[[_ Hc]|[_ Hc]]]]]];
    try (rewrite Hc; by destruct Hd as [-> | [-> | [-> | ->]]]).
  pose proof (escapeChar_special c) as Hs. unfold special in Hs.
  destruct (Ascii.eqb_spec c "&") as [->|]; [by destruct Hd as [-> | [-> | [-> | ->]]]|].
  destruct (Ascii.eqb_spec c "<") as [->|]; [by destruct Hd as [-> | [-> | [-> | ->]]]|].
  destruct (Ascii.eqb_spec c ">") as [->|]; [by destruct Hd as [-> | [-> | [-> | ->]]]|].
  destruct (Ascii.eqb_spec c dquote) as [->|]; [by destruct Hd as [-> | [-> | [-> | ->]]]|].
  destruct (Ascii.eqb_spec c "'") as [->|]; [by destruct Hd as [-> | [-> | [-> | ->]]]|].
  simpl in Hs. rewrite Hs. cbn [occurs]. rewrite orb_false_r.
  apply Ascii.eqb_neq. by destruct Hd as [-> | [-> | [-> | ->]]].
Qed.

Lemma sanitizeInput_inert d s :
  d = "<"%char ∨ d = ">"%char ∨ d = dquote ∨ d = "'"%char →
  occurs d (sanitizeInput s) = false.
Proof.
  intros Hd. induction s as [|c s IH]; [done|].
  rewrite SanitizeFacts.sanitizeInput_cons, occurs_app, IH.
  by rewrite escapeChar_inert.
Qed.

Lemma sanitizeInput_ampersand s :
  occurs "&" (sanitizeInput s) = negb (plainText s).
Proof.
  induction s as [|c s IH]; [done|].
  rewrite SanitizeFacts.sanitizeInput_cons, occurs_app, IH. cbn [plainText].
  pose proof (escapeChar_special c) as Hs.
  destruct (special c) eqn:Hc.
  - destruct Hs as [-> _]. done.
  - rewrite Hs. cbn [occurs negb andb]. rewrite orb_false_r.
    unfold special in Hc. by destruct (Ascii.eqb c "&").
Qed.

(** X7.  The output of [sanitizeInput] holds none of the characters
    <, >, double quote and single quote; it holds an ampersand exactly
    when the input held one of the five characters it replaces. *)
Theorem sanitized_text_is_inert s :
  occurs "<" (sanitizeInput s) = false
  ∧ occurs ">" (sanitizeInput s) = false
  ∧ occurs dquote (sanitizeInput s) = false
  ∧ occurs "'" (sanitizeInput s) = false
  ∧ occurs "&" (sanitizeInput s) = negb (plainText s).
Proof.
  split_and!; [apply sanitizeInput_inert; tauto..|apply sanitizeInput_ampersand].
Qed.

Lemma length_append (s t : string) :
  String.length (s +:+ t) = (String.length s + String.length t)%nat.
Proof.
  induction s as [|a s IH]; [done|].
  rewrite SanitizeFacts.append_cons. simpl. by rewrite IH.
Qed.

Lemma sanitizeInput_length s :
  (String.length s ≤ String.length (sanitizeInput s) ≤ 6 * String.length s)%nat
  ∧ (plainText s = false → String.length s < String.length (sanitizeInput s))%nat.
Proof.
  induction s as [|c s [IH IHlt]]; [by split; [simpl; lia|]|].
  rewrite SanitizeFacts.sanitizeInput_cons, length_append. cbn [plainText String.length].
  pose proof (escapeChar_special c) as Hs.
  destruct (special c).
  - destruct Hs as (_ & _ & ? & ?). split; [lia|]. intros _. lia.
  - rewrite Hs. simpl String.length. split; [lia|]. cbn [negb andb]. intros Hp.
    specialize (IHlt Hp). lia.
Qed.

Lemma sanitizeInput_plain s : plainText s = true → sanitizeInput s = s.
Proof.
  induction s as [|c s IH]; [done|]. cbn [plainText].
  intros [Hc Hs]%andb_true_iff. apply negb_true_iff in Hc.
  rewrite SanitizeFacts.sanitizeInput_cons, IH by done.
  pose proof (escapeChar_special c) as Hesc. rewrite Hc in Hesc. by rewrite Hesc.
Qed.

Lemma sanitizeInput_fixed s : sanitizeInput s = s ↔ plainText s = true.
Proof.
  split; [|apply sanitizeInput_plain].
  intros Hfix. destruct (plainText s) eqn:Hp; [done|].
  pose proof (proj2 (sanitizeInput_length s) Hp) as Hlt. rewrite Hfix in Hlt. lia.
Qed.

(** X8.  [sanitizeInput] leaves a string as it is exactly when the
    string holds none of the five characters, and only on those strings
    is sanitizing twice the same as sanitizing once.  The output is at
    least as long as the input and at most six times as long. *)
Theorem sanitizing_twice_double_encodes s :
  (sanitizeInput s = s ↔ plainText s = true)
  ∧ (sanitizeInput (sanitizeInput s) = sanitizeInput s ↔ plainText s = true)
  ∧ (String.length s ≤ String.length (sanitizeInput s) ≤ 6 * String.length s)%nat.
Proof.
  split_and!.
  - apply sanitizeInput_fixed.
  - rewrite sanitizeInput_fixed. split.
    + intros Hplain. destruct (plainText s) eqn:Hp; [done|].
      assert (occurs "&" (sanitizeInput s) = true) as Hamp
        by (by rewrite sanitizeInput_ampersand, Hp).
      clear Hp. induction (sanitizeInput s) as [|c out IH]; [done|].
      cbn [plainText occurs] in *. apply andb_true_iff in Hplain as [Hc Hout].
      unfold special in Hc. destruct (Ascii.eqb c "&"); [done|]. by apply IH.
    + intros Hp. by rewrite (sanitizeInput_plain s Hp).
  - apply sanitizeInput_length.
  - apply sanitizeInput_length.
Qed.

(** X9.  Sanitizing a concatenation is concatenating the sanitized
    parts. *)
Theorem sanitizeInput_distributes s t :
  sanitizeInput (s +:+ t) = sanitizeInput s +:+ sanitizeInput t.
Proof. unfold sanitizeInput. by rewrite !SanitizeFacts.replaceAll_app. Qed.

Section WithHost.
Context `{JsHost}.

Lemma allPlain_app s t : allPlain (s +:+ t) = allPlain s && allPlain t.
Proof.
  induction s as [|a s IH]; [done|].
  rewrite SanitizeFacts.append_cons. cbn [allPlain]. by rewrite IH, andb_assoc.
Qed.

Lemma dotThenMore_iff s :
  dotThenMore s = true ↔ ∃ before tld, s = before +:+ "." +:+ tld ∧ tld ≠ "".
Proof.
  induction s as [|c s IH]; cbn [dotThenMore].
  - split; [done|]. intros (before & tld & Heq & _). by destruct before.
  - rewrite orb_true_iff, andb_true_iff, negb_true_iff, IH. split.
    + intros [[Hc Hs] | (before & tld & -> & Htld)].
      * apply Ascii.eqb_eq in Hc as ->. apply String.eqb_neq in Hs.
        by exists "", s.
      * by exists (String c before), tld.
    + intros (before & tld & Heq & Htld). destruct before as [|b before];
        [cbv [String.append] in Heq | rewrite SanitizeFacts.append_cons in Heq].
      * injection Heq as -> ->. left. split; [apply Ascii.eqb_refl|].
        by apply String.eqb_neq.
      * injection Heq as -> ->. right. by exists before, tld.
Qed.

Lemma domainShape_iff s :
  isWhiteSpace "." = false →
  domainShape s = true
  ↔ ∃ domain tld, s = domain +:+ "." +:+ tld ∧ domain ≠ "" ∧ tld ≠ ""
                  ∧ allPlain domain = true ∧ allPlain tld = true.
Proof.
  intros Hdot.
  assert (allPlain "." = true) as Hplain.
  { cbn [allPlain]. unfold plainChar. by rewrite Hdot. }
  unfold domainShape. rewrite andb_true_iff. split.
  - intros [Hall Hs]. destruct s as [|c s]; [done|].
    apply dotThenMore_iff in Hs as (before & tld & -> & Htld).
    exists (String c before), tld.
    change (String c (before +:+ "." +:+ tld)) with (String c before +:+ "." +:+ tld) in Hall.
    rewrite !allPlain_app in Hall.
    apply andb_true_iff in Hall as [Hd [_ Ht]%andb_true_iff]. by split_and!.
  - intros (domain & tld & -> & Hd & Ht & Hpd & Hpt). split.
    + by rewrite !allPlain_app, Hpd, Hpt, Hplain.
    + destruct domain as [|c domain]; [done|]. rewrite SanitizeFacts.append_cons.
      apply dotThenMore_iff. by exists domain, tld.
Qed.

Lemma emailFrom_iff seenLocal s :
  emailFrom seenLocal s = true
  ↔ ∃ localPart rest, s = localPart +:+ "@" +:+ rest
                      ∧ allPlain localPart = true
                      ∧ (seenLocal = true ∨ localPart ≠ "")
                      ∧ domainShape rest = true.
Proof.
  revert seenLocal. induction s as [|c s IH]; intros seenLocal; cbn [emailFrom].
  - split; [done|]. intros (l & rest & Heq & _). by destruct l.
  - destruct (Ascii.eqb_spec c "@") as [->|Hat].
    + rewrite andb_true_iff. split.
      * intros [-> Hd]. exists "", s. split_and!; [done..|by left|done].
      * intros (l & rest & Heq & Hl & Hseen & Hd). destruct l as [|a l];
          [cbv [String.append] in Heq | rewrite SanitizeFacts.append_cons in Heq].
        -- injection Heq as <-. destruct Hseen as [->|?]; done.
        -- injection Heq as <- _. cbn [allPlain] in Hl. unfold plainChar in Hl.
           rewrite Ascii.eqb_refl in Hl. by rewrite andb_false_r in Hl.
    + destruct (isWhiteSpace c) eqn:Hws.
      * split; [done|]. intros (l & rest & Heq & Hl & _). destruct l as [|a l];
          [cbv [String.append] in Heq | rewrite SanitizeFacts.append_cons in Heq].
        -- by injection Heq as ->.
        -- injection Heq as <- _. cbn [allPlain] in Hl. unfold plainChar in Hl.
           by rewrite Hws in Hl.
      * rewrite IH. split.
        -- intros (l & rest & -> & Hl & _ & Hd). exists (String c l), rest.
           split_and!; [done| |by right|done].
           cbn [allPlain]. unfold plainChar. rewrite Hws, Hl.
           by apply Ascii.eqb_neq in Hat as ->.
        -- intros (l & rest & Heq & Hl & _ & Hd). destruct l as [|a l];
          [cbv [String.append] in Heq | rewrite SanitizeFacts.append_cons in Heq].
           ++ by injection Heq as ->.
           ++ injection Heq as <- ->. exists l, rest.
              cbn [allPlain] in Hl. apply andb_true_iff in Hl as [_ Hl].
              split_and!; [done..|by left|done].
Qed.

Lemma occurs_trimStart c s : occurs c (trimStart s) = true → occurs c s = true.
Proof.
  induction s as [|a s IH]; [done|]. cbn [trimStart occurs].
  destruct (isWhiteSpace a); [|done].
  intros Hc. rewrite IH by done. by rewrite orb_true_r.
Qed.

Lemma occurs_trimEnd c s : occurs c (trimEnd s) = true → occurs c s = true.
Proof.
  induction s as [|a s IH]; [done|]. cbn [trimEnd occurs].
  destruct (trimEnd s) as [|k kept].
  - destruct (isWhiteSpace a); [done|]. cbn [occurs]. rewrite orb_false_r.
    by intros ->.
  - cbn [occurs] in *. intros [->|Hc]%orb_true_iff; [done|].
    rewrite IH by done. by rewrite orb_true_r.
Qed.

Lemma occurs_beforeComma s : occurs "," (beforeComma s) = false.
Proof.
  induction s as [|a s IH]; [done|]. cbn [beforeComma].
  destruct (Ascii.eqb a ",") eqn:Ha; [done|]. cbn [occurs]. by rewrite Ha, IH.
Qed.

(** X10.  The IP a request is counted under is never the empty
    string.  It is the address the platform gives when there is one;
    otherwise it is "unknown" or the first entry of the
    [x-forwarded-for] header, trimmed, and it holds no comma. *)
Theorem client_ip_is_never_empty request :
  clientIp request ≠ ""
  ∧ (present (clientAddress request) = true →
     clientAddress request = Some (clientIp request))
  ∧ (present (clientAddress request) = false →
     (clientIp request = "unknown"
      ∨ ∃ forwarded, xForwardedFor request = inr (Some forwarded)
                     ∧ clientIp request = trim (beforeComma forwarded))
     ∧ occurs "," (clientIp request) = false).
Proof.
  unfold clientIp. destruct (clientAddress request) as [address|]; simpl.
  - destruct (String.eqb_spec address "") as [->|Hne]; simpl.
    + split_and!; [|done|].
      * destruct (xForwardedFor request) as [|[forwarded|]]; try done.
        by destruct (String.eqb_spec (trim (beforeComma forwarded)) "").
      * intros _. destruct (xForwardedFor request) as [|[forwarded|]];
          try (split; [by left | done]).
        destruct (String.eqb_spec (trim (beforeComma forwarded)) "");
          [split; [by left | done]|].
        split; [right; by exists forwarded|].
        destruct (occurs "," (trim (beforeComma forwarded))) eqn:Hc; [|done].
        apply occurs_trimEnd, occurs_trimStart in Hc.
        by rewrite occurs_beforeComma in Hc.
    + by split_and!.
  - split_and!; [|done|].
    + destruct (xForwardedFor request) as [|[forwarded|]]; try done.
      by destruct (String.eqb_spec (trim (beforeComma forwarded)) "").
    + intros _. destruct (xForwardedFor request) as [|[forwarded|]];
        try (split; [by left | done]).
      destruct (String.eqb_spec (trim (beforeComma forwarded)) "");
        [split; [by left | done]|].
      split; [right; by exists forwarded|].
      destruct (occurs "," (trim (beforeComma forwarded))) eqn:Hc; [|done].
      apply occurs_trimEnd, occurs_trimStart in Hc.
      by rewrite occurs_beforeComma in Hc.
Qed.

(** X11.  On a host where the dot is not white space, the test of
    the email in layer 5 accepts exactly the strings
    local@domain.tld whose three parts are not empty and hold neither
    white space nor an at sign (the domain and the tld may hold
    dots). *)
Theorem emailRegex_accepts_exactly_the_shape email :
  isWhiteSpace "." = false →
  emailRegex_test email = true ↔ emailShape email.
Proof.
  intros Hdot. unfold emailRegex_test, emailShape. rewrite emailFrom_iff. split.
  - intros (l & rest & -> & Hl & [?|Hne] & Hd); [done|].
    apply (domainShape_iff _ Hdot) in Hd as (domain & tld & -> & ? & ? & ? & ?).
    exists l, domain, tld. by split_and!.
  - intros (l & domain & tld & -> & ? & ? & ? & ? & ? & ?).
    exists l, (domain +:+ "." +:+ tld). split_and!; [done..|by right|].
    apply (domainShape_iff _ Hdot). by exists domain, tld.
Qed.

End WithHost.

#[local] Existing Instance ExampleHost.host.

Lemma emailRegex_accepts_exactly_the_shape_witness :
  emailRegex_test "anna@example.com" = true ↔ emailShape "anna@example.com".
Proof.
  apply (emailRegex_accepts_exactly_the_shape "anna@example.com"). reflexivity.
Defined.

End TextFacts.

(** ** The verifier and the route *)

Module OutcomeFacts.
Import RateLimiter Recaptcha ContactRoute Outcomes.

Lemma noErrorCodes_iff codes :
  negb (truthy codes)
  || match getProp codes "length" with
     | inr len => isZero len
     | inl _ => false
     end = true
  ↔ noErrorCodes codes.
Proof.
  unfold noErrorCodes.
  destruct codes as [| |[]|q|s|[|item items]|fields]; simpl;
    try (split; [by left|done]);
    try (split; [done|]; intros [?|[?|(? & ? & ? & _)]]; done).
  - destruct (Qeq_bool q 0); simpl; [split; [by left|done]|].
    split; [done|]. intros [?|[?|(? & ? & ? & _)]]; done.
  - destruct s as [|c s]; simpl; [split; [by left|done]|].
    split; [done|]. intros [?|[?|(? & ? & ? & _)]]; done.
  - split; [by right; left|done].
  - destruct (fields !! "length") as [len|] eqn:Hlen; simpl.
    + split.
      * destruct len; simpl; try done. intros Hq. right. right. by eexists _, _.
      * intros [?|[?|(? & q & [= <-] & Hl & Hq)]]; try done.
        rewrite Hlen in Hl. by injection Hl as ->.
    + split; [done|]. intros [?|[?|(? & q & [= <-] & Hl & _)]]; try done.
      by rewrite Hlen in Hl.
Qed.

Lemma verifyRecaptcha_valid_iff token secretKey remoteIp w :
  ∃ result,
    (verifyRecaptcha token secretKey remoteIp w).1 = inr result
    ∧ (isRecaptchaValid result = true
       ↔ positiveReply (network w (fetches w)
                          (siteverifyRequest token secretKey remoteIp))).
Proof.
  unfold verifyRecaptcha, bind, tryCatch, record, fetch, responseJson, liftE, ret, throw.
  cbn [fst snd network fetches].
  destruct (network w (fetches w) _) as [|reply] eqn:Hnet.
  { eexists. split; [done|]. split; [done|]. by intros (? & ? & ? & _). }
  destruct (payload reply) as [result|] eqn:Hpayload.
  2:{ eexists. split; [done|]. split; [done|].
      intros (? & ? & [= <-] & Hp & _). by rewrite Hpayload in Hp. }
  assert (positiveReply (FetchResolves reply)
          ↔ ∃ fields, result = JObj fields
                      ∧ fields !! "success" = Some (JBool true)
                      ∧ noErrorCodes (default JUndefined (fields !! "error-codes")))
    as Hpositive.
  { unfold positiveReply. split.
    - intros (? & fields & [= <-] & Hp & ? & ?). rewrite Hpayload in Hp.
      injection Hp as ->. by exists fields.
    - intros (fields & -> & ? & ?). by exists reply, fields. }
  setoid_rewrite Hpositive. clear Hpositive.
  destruct result as [| |b|q|s|items|fields]; cbn [getProp fst snd];
    try (eexists; split; [done|]; split; [done|]; by intros (? & ? & _)).
  eexists. split; [done|]. unfold isRecaptchaValid. cbn [success errorCodes].
  rewrite andb_true_iff, noErrorCodes_iff. split.
  - intros [Hsuccess Hcodes]. exists fields. split_and!; [done| |done].
    destruct (fields !! "success") as [[| |[]| | | |]|]; done.
  - intros (? & [= <-] & -> & Hcodes). done.
Qed.

(** X12.  [verifyRecaptcha] always returns a result, and
    [isRecaptchaValid] accepts it exactly when the verification service
    answered the one request with a JSON object whose [success] is
    [true] and whose [error-codes] are absent, falsy, an empty array or
    an object of length 0.  A request that fails, a body that is not
    JSON, [null], or any other value fails the verification. *)
Theorem recaptcha_passes_only_on_positive_reply token secretKey remoteIp w :
  ∃ result,
    (verifyRecaptcha token secretKey remoteIp w).1 = inr result
    ∧ (isRecaptchaValid result = true
       ↔ positiveReply (network w (fetches w)
                          (siteverifyRequest token secretKey remoteIp))).
Proof. apply verifyRecaptcha_valid_iff. Qed.

(** The one request of the verifier, and nothing else. *)
Lemma verifyRecaptcha_world token secretKey remoteIp w :
  let w1 := (verifyRecaptcha token secretKey remoteIp w).2 in
  fetches w1 = S (fetches w)
  ∧ trace w1 = (trace w ++ [EvVerifyRecaptcha token secretKey remoteIp;
                            EvFetch (siteverifyRequest token secretKey remoteIp)])%list.
Proof.
  unfold verifyRecaptcha, bind, tryCatch, record, fetch, responseJson, liftE, ret, throw.
  simpl. rewrite <- app_assoc. simpl.
  destruct (network w (fetches w) _) as [|response]; simpl; [done|].
  destruct (payload response) as [result|]; simpl; [|done].
  destruct result; simpl; done.
Qed.

Lemma denied_store `{JsHost} now identifier maxRequests
    (s : gmap string RateLimitEntry) :
  allowed (checkRateLimit now identifier maxRequests s).1 = false →
  (checkRateLimit now identifier maxRequests s).2 = s.
Proof.
  unfold checkRateLimit. destruct (s !! storeKey identifier) as [entry|]; simpl; [|done].
  by repeat (case_decide; simpl).
Qed.

(** *** Relations that every step keeps *)

Section Preserves.
Context {A B : Type} (R : World → World → Prop) `{!PreOrder R}.

Lemma preserves_ret (a : A) : preserves R (ret a).
Proof. intros w. reflexivity. Qed.

Lemma preserves_throw e : preserves R (@throw A e).
Proof. intros w. reflexivity. Qed.

Lemma preserves_liftE (r : JsError + A) : preserves R (liftE r).
Proof. intros w. reflexivity. Qed.

Lemma preserves_bind (m : M A) (k : A → M B) :
  preserves R m → (∀ a, preserves R (k a)) → preserves R (bind m k).
Proof.
  intros Hm Hk w. unfold bind. specialize (Hm w).
  destruct (m w) as [[e|a] w1]; simpl in *; [done|].
  etrans; [exact Hm | apply Hk].
Qed.

Lemma preserves_tryCatch (m : M A) (handler : JsError → M A) :
  preserves R m → (∀ e, preserves R (handler e)) → preserves R (tryCatch m handler).
Proof.
  intros Hm Hh w. unfold tryCatch. specialize (Hm w).
  destruct (m w) as [[e|a] w1]; simpl in *; [|done].
  etrans; [exact Hm | apply Hh].
Qed.

End Preserves.

Lemma preserves_responseJson R `{!PreOrder R} response :
  preserves R (responseJson response).
Proof.
  unfold responseJson.
  destruct (payload response); [by apply preserves_ret | by apply preserves_throw].
Qed.

#[local] Instance later_preorder : PreOrder later.
Proof.
  split.
  - by intros w.
  - intros w1 w2 w3 [Hn1 Hf1] [Hn2 Hf2]. split; [congruence | lia].
Qed.

#[local] Instance sameStore_preorder : PreOrder sameStore.
Proof. split; [by intros w | intros w1 w2 w3; unfold sameStore; congruence]. Qed.

Lemma later_record e : preserves later (record e).
Proof. by intros w. Qed.

Lemma later_Date_now : preserves later Date_now.
Proof. by intros w. Qed.

Lemma later_fetch request : preserves later (fetch request).
Proof.
  intros w. unfold fetch. destruct (network w (fetches w) request); split; simpl; (done || lia).
Qed.

Lemma later_onStore {A}
    (f : gmap string RateLimitEntry → A * gmap string RateLimitEntry) :
  preserves later (onStore f).
Proof. intros w. unfold onStore. by destruct (f (rateLimitStore w)). Qed.

Lemma sameStore_record e : preserves sameStore (record e).
Proof. by intros w. Qed.

Lemma sameStore_Date_now : preserves sameStore Date_now.
Proof. by intros w. Qed.

Lemma sameStore_fetch request : preserves sameStore (fetch request).
Proof. intros w. unfold fetch. by destruct (network w (fetches w) request). Qed.

Ltac preserves_step :=
  first
    [ apply preserves_ret; apply _ | apply preserves_throw; apply _
    | apply preserves_liftE; apply _ | apply preserves_responseJson; apply _
    | apply later_record | apply later_Date_now | apply later_fetch | apply later_onStore
    | apply sameStore_record | apply sameStore_Date_now | apply sameStore_fetch
    | apply preserves_bind; [apply _ | | intros ?]
    | apply preserves_tryCatch; [apply _ | | intros ?]
    | match goal with
      | |- preserves _ (if ?b then _ else _) => destruct b
      | |- preserves _ (match ?x with _ => _ end) => destruct x
      end ].

Section WithHost.
Context `{JsHost}.

Lemma later_verifyRecaptcha token secretKey remoteIp :
  preserves later (verifyRecaptcha token secretKey remoteIp).
Proof. unfold verifyRecaptcha. repeat preserves_step. Qed.

Lemma later_layer3 env body ip : preserves later (layer3 env body ip).
Proof.
  unfold layer3, layer4, layer5, forwardToStrapi, checkIpRateLimitM, checkEmailRateLimitM,
    checkRateLimitM, getResetTimeSecondsM, greaterThan, lessThan, callTrim.
  repeat preserves_step.
Qed.

Lemma sameStore_layer5 env body email : preserves sameStore (layer5 env body email).
Proof.
  unfold layer5, forwardToStrapi, greaterThan, lessThan, callTrim.
  repeat preserves_step.
Qed.

(** *** The responses of the route *)

Lemma answers_ret Q r : (∀ w0 w, later w0 w → Q w0 r w) → answers Q (ret r).
Proof. intros HQ w0 w r' Hlater [= <-]. by apply HQ. Qed.

Lemma answers_throw Q e : answers Q (throw e).
Proof. by intros w0 w r' _ ?. Qed.

Lemma answers_bind {A} Q (m : M A) (k : A → M Response) :
  preserves later m → (∀ a, answers Q (k a)) → answers Q (bind m k).
Proof.
  intros Hm Hk w0 w r Hlater. unfold bind. specialize (Hm w).
  destruct (m w) as [[e|a] w1]; simpl in *; [done|].
  apply Hk. by etrans.
Qed.

Lemma answers_tryCatch Q (m : M Response) (handler : JsError → M Response) :
  preserves later m → answers Q m → (∀ e, answers Q (handler e)) →
  answers Q (tryCatch m handler).
Proof.
  intros Hlater Hm Hh w0 w r Hw. unfold tryCatch.
  specialize (Hlater w). specialize (Hm w0 w).
  destruct (m w) as [[e|a] w1]; simpl in *.
  - apply Hh. by etrans.
  - intros [= <-]. by apply Hm.
Qed.

Lemma outcome_error env code message w0 w :
  code = 400 ∨ code = 500 → outcome env w0 (errorResponse code message) w.
Proof.
  intros Hcode. split; [|by destruct Hcode as [-> | ->]].
  split_and!.
  - destruct Hcode as [-> | ->]; simpl; tauto.
  - by left.
  - by destruct Hcode as [-> | ->].
  - intros _. by exists message.
Qed.

Lemma outcome_rateLimit env message resetSeconds w0 w :
  outcome env w0 (rateLimitResponse message resetSeconds) w.
Proof.
  split; [|done]. split_and!.
  - simpl. tauto.
  - by left.
  - intros _. by eexists _, _.
  - intros _. by exists message.
Qed.

Lemma answers_forwardToStrapi env sanitizedData email :
  answers (outcome env) (forwardToStrapi env sanitizedData email).
Proof.
  intros w0 w r [Hnet Hfetches].
  unfold forwardToStrapi, bind, tryCatch, fetch, responseJson, liftE, ret, throw.
  destruct (network w (fetches w) _) as [|reply] eqn:Hreply; [done|].
  destruct (ok reply) eqn:Hok; simpl.
  - destruct (payload reply) as [result|] eqn:Hpayload; simpl; [|done].
    destruct (getProp result "data") as [|data] eqn:Hdata; simpl; [done|].
    intros [= <-]. split.
    + split_and!; [simpl; tauto | by left | done | done].
    + intros _. eexists (fetches w), _, reply, result, data. simpl.
      rewrite <- Hnet. split_and!; [lia | lia | exact Hreply | done..].
  - assert (∀ errorData,
              wellFormed (jsonResponse 500
                            (jsonObject [("error", JStr "Failed to submit message");
                                         ("details", errorData)]))) as Hfailed.
    { intros errorData. split_and!; [simpl; tauto | by left | done |].
      intros _. exists "Failed to submit message". by destruct errorData. }
    destruct (payload reply) as [errorData|]; simpl; intros [= <-]; by split.
Qed.

Ltac later_solve :=
  unfold layer3, layer4, layer5, forwardToStrapi, checkIpRateLimitM, checkEmailRateLimitM,
    checkRateLimitM, getResetTimeSecondsM, greaterThan, lessThan, callTrim, verifyRecaptcha;
  repeat preserves_step.

Ltac answers_step :=
  first
    [ apply answers_forwardToStrapi
    | apply answers_throw
    | apply answers_ret; intros ? ? ?;
      first [ apply outcome_rateLimit | apply outcome_error; tauto ]
    | apply answers_bind; [later_solve | intros ?]
    | match goal with
      | |- answers _ (if ?b then _ else _) => destruct b
      | |- answers _ (match ?x with _ => _ end) => destruct x
      end ].

Lemma answers_layer1 env body ip : answers (outcome env) (layer1 env body ip).
Proof.
  unfold layer1, layer2, layer3, layer4, layer5.
  repeat answers_step.
Qed.

Lemma later_layer1 env body ip : preserves later (layer1 env body ip).
Proof.
  unfold layer1, layer2.
  repeat first [apply later_layer3 | apply later_verifyRecaptcha | preserves_step].
Qed.

Lemma POST_outcome env request w :
  ∃ r, (POST env request w).1 = inr r ∧ outcome env w r (POST env request w).2.
Proof.
  unfold POST. destruct (negb (present (STRAPI_API_TOKEN env))).
  { eexists. split; [done|]. apply outcome_error. tauto. }
  unfold tryCatch, bind.
  destruct (requestJson request) as [body|]; simpl.
  2:{ eexists. split; [done|]. apply outcome_error. tauto. }
  pose proof (answers_layer1 env body (clientIp request) w w) as Hanswers.
  destruct (layer1 env body (clientIp request) w) as [[e|r] w'] eqn:Hrun; simpl in *.
  - eexists. split; [done|]. apply outcome_error. tauto.
  - exists r. split; [done|]. by apply Hanswers.
Qed.

(** X14.  The route answers 200 only when, during the request, a
    request to the contact messages of Strapi was answered with a
    success status and a JSON value; the response hands on the [data]
    of that value. *)
Theorem success_only_when_strapi_accepts env request w r :
  (POST env request w).1 = inr r →
  status r = 200 →
  strapiAccepted env w r (POST env request w).2.
Proof.
  intros Hrun Hstatus. destruct (POST_outcome env request w) as (r' & Hrun' & _ & Hok).
  rewrite Hrun in Hrun'. injection Hrun' as <-. by apply Hok.
Qed.

(** *** What is sent to Strapi *)

Lemma emits_bind_returned {A B} P (m : M A) (k : A → M B) :
  emits P m → (∀ a, returns m a → emits P (k a)) → emits P (bind m k).
Proof.
  intros Hm Hk w. unfold bind. destruct (Hm w) as (ev1 & Ht1 & HP1).
  destruct (m w) as [[e|a] w1] eqn:Hrun; simpl in *; [by eauto|].
  destruct (Hk a (ex_intro _ w (f_equal fst Hrun)) w1) as (ev2 & Ht2 & HP2).
  exists (ev1 ++ ev2)%list. rewrite Ht2, Ht1, app_assoc. split; [done|].
  by apply Forall_app.
Qed.

Lemma emits_weaken {A} (P P' : Event → Prop) (m : M A) :
  (∀ e, P e → P' e) → emits P m → emits P' m.
Proof.
  intros HP Hm w. destruct (Hm w) as (events & Ht & Hall).
  exists events. split; [done|]. by eapply Forall_impl.
Qed.

Lemma returns_liftE {A} (r : JsError + A) a : returns (liftE r) a → r = inr a.
Proof. by intros [w Hw]. Qed.

Lemma Qle_bool_inject a b : Qle_bool (inject_Z a) (inject_Z b) = (a <=? b).
Proof. unfold Qle_bool. simpl. by rewrite !Z.mul_1_r. Qed.

Lemma returns_greaterThan_length (s : string) k b :
  returns (greaterThan (JNum (inject_Z (Z.of_nat (String.length s)))) k) b →
  b = negb (Z.of_nat (String.length s) <=? k).
Proof.
  intros [w Hw]. unfold greaterThan, bind, liftE, ret in Hw. simpl in Hw.
  injection Hw as <-. by rewrite Qle_bool_inject.
Qed.

Lemma returns_lessThan_length (s : string) k b :
  returns (lessThan (JNum (inject_Z (Z.of_nat (String.length s)))) k) b →
  b = negb (k <=? Z.of_nat (String.length s)).
Proof.
  intros [w Hw]. unfold lessThan, bind, liftE, ret in Hw. simpl in Hw.
  injection Hw as <-. by rewrite Qle_bool_inject.
Qed.

Lemma returns_callTrim v s : returns (callTrim v) s → ∃ s0, v = JStr s0 ∧ s = trim s0.
Proof.
  intros [w Hw]. destruct v; simpl in Hw; try done.
  injection Hw as <-. by eexists.
Qed.

Lemma emits_forwards_layer5 env body email :
  emits (forwards env body email) (layer5 env body email).
Proof.
  unfold layer5.
  apply emits_bind_returned; [apply ContactRouteFacts.emits_liftE|].
  intros name Hname%returns_liftE.
  apply emits_bind_returned; [apply ContactRouteFacts.emits_liftE|].
  intros subject Hsubject%returns_liftE.
  apply emits_bind_returned; [apply ContactRouteFacts.emits_liftE|].
  intros message Hmessage%returns_liftE.
  destruct (negb (truthy name) || negb (truthy subject) || negb (truthy message))
    eqn:Htruthy; [apply ContactRouteFacts.emits_ret|].
  apply orb_false_iff in Htruthy as [[Hn Hs]%orb_false_iff Hm].
  apply negb_false_iff in Hn, Hs, Hm.
  apply emits_bind_returned; [apply ContactRouteFacts.emits_liftE|].
  intros nameLength HnameLength%returns_liftE.
  apply emits_bind_returned; [apply ContactRouteFacts.emits_greaterThan|].
  intros nameTooLong HnameTooLong.
  destruct nameTooLong; [apply ContactRouteFacts.emits_ret|].
  apply emits_bind_returned; [apply ContactRouteFacts.emits_liftE|].
  intros subjectLength HsubjectLength%returns_liftE.
  apply emits_bind_returned; [apply ContactRouteFacts.emits_greaterThan|].
  intros subjectTooLong HsubjectTooLong.
  destruct subjectTooLong; [apply ContactRouteFacts.emits_ret|].
  apply emits_bind_returned; [apply ContactRouteFacts.emits_liftE|].
  intros messageLength HmessageLength%returns_liftE.
  apply emits_bind_returned; [apply ContactRouteFacts.emits_greaterThan|].
  intros messageTooLong HmessageTooLong.
  destruct messageTooLong.
  { apply emits_bind_returned; [apply ContactRouteFacts.emits_ret|].
    intros out [w [= <-]]. apply ContactRouteFacts.emits_ret. }
  apply emits_bind_returned; [apply ContactRouteFacts.emits_lessThan|].
  intros messageTooShort HmessageTooShort.
  destruct messageTooShort; [apply ContactRouteFacts.emits_ret|].
  destruct (negb (emailRegex_test email)) eqn:Hemail; [apply ContactRouteFacts.emits_ret|].
  apply negb_false_iff in Hemail.
  apply emits_bind_returned; [apply ContactRouteFacts.emits_callTrim|].
  intros trimmedName (name' & -> & ->)%returns_callTrim.
  apply emits_bind_returned; [apply ContactRouteFacts.emits_callTrim|].
  intros trimmedSubject (subject' & -> & ->)%returns_callTrim.
  apply emits_bind_returned; [apply ContactRouteFacts.emits_callTrim|].
  intros trimmedMessage (message' & -> & ->)%returns_callTrim.
  simpl in HnameLength, HsubjectLength, HmessageLength.
  injection HnameLength as <-. injection HsubjectLength as <-.
  injection HmessageLength as <-.
  apply returns_greaterThan_length in HnameTooLong, HsubjectTooLong, HmessageTooLong.
  apply returns_lessThan_length in HmessageTooShort.
  symmetry in HnameTooLong, HsubjectTooLong, HmessageTooLong, HmessageTooShort.
  apply negb_false_iff, Z.leb_le in HnameTooLong, HsubjectTooLong, HmessageTooLong,
    HmessageTooShort.
  unfold forwardToStrapi.
  apply emits_bind_returned.
  - apply ContactRouteFacts.emits_fetch. simpl.
    exists name', subject', message'. split_and!; try done.
    simpl in Hn, Hs. apply negb_true_iff in Hn, Hs.
    apply String.eqb_neq in Hn, Hs.
    unfold acceptable. split_and!; [done | lia | done | lia | lia | lia | done].
  - intros strapiResponse _.
    repeat ContactRouteFacts.emits_step.
Qed.

Lemma returns_ret {A} (x a : A) : returns (ret x) a → a = x.
Proof. by intros [w [= <-]]. Qed.

Lemma emits_fetchesOf_layer4 env request body :
  requestJson request = Some body →
  emits (fetchesOf env request) (layer4 env body).
Proof.
  intros Hbody. unfold layer4.
  apply emits_bind_returned; [apply ContactRouteFacts.emits_liftE|].
  intros rawEmail HrawEmail%returns_liftE.
  destruct rawEmail as [| |b|q|raw|items|fields];
    try (repeat ContactRouteFacts.emits_step; done).
  apply emits_bind_returned; [apply ContactRouteFacts.emits_ret|].
  intros email ->%returns_ret.
  destruct (negb (present (Some (trim (toLowerCase raw)))));
    [apply ContactRouteFacts.emits_ret|].
  cbn [default].
  apply ContactRouteFacts.emits_bind.
  { unfold checkEmailRateLimitM, checkRateLimitM. repeat ContactRouteFacts.emits_step. }
  intros emailRateLimit. destruct (negb (allowed emailRateLimit)).
  { unfold getResetTimeSecondsM. repeat ContactRouteFacts.emits_step. }
  eapply emits_weaken; [|apply emits_forwards_layer5].
  intros [sent| | |]; try done. intros Hforwards. right. by exists body, raw.
Qed.

(** X15.  Whatever the request, the route sends nothing but the
    question to the verification service, for the IP of the request, and
    the message of the body to Strapi: the latter only when [name],
    [subject], [message] and [email] are strings that pass the
    validation of layer 5, and then with the name, the subject and the
    message trimmed and sanitized, the email lowered and trimmed, and the
    status "pending". *)
Theorem strapi_receives_only_validated_messages env request :
  emits (fetchesOf env request) (POST env request).
Proof.
  unfold POST.
  destruct (negb (present (STRAPI_API_TOKEN env))); [apply ContactRouteFacts.emits_ret|].
  apply ContactRouteFacts.emits_tryCatch; [|intros ?; apply ContactRouteFacts.emits_ret].
  destruct (requestJson request) as [body|] eqn:Hbody.
  2:{ repeat ContactRouteFacts.emits_step. }
  apply emits_bind_returned; [apply ContactRouteFacts.emits_ret|].
  intros body' ->%returns_ret.
  unfold layer1, layer2, layer3, verifyRecaptcha, checkIpRateLimitM, checkRateLimitM,
    getResetTimeSecondsM.
  repeat first [ by apply emits_fetchesOf_layer4 | ContactRouteFacts.emits_step
               | by (left; eexists) ].
Qed.

(** X16.  The CAPTCHA layer fails closed.  When verification is
    required and the token is given, and the verification service does
    not answer positively (the request fails, the body is not a JSON
    object, [success] is not [true], or error codes are listed), the
    answer is 400 "reCAPTCHA verification failed"; the rate limiter is
    neither read nor changed, and the only request sent is the one to
    the verification service. *)
Theorem failed_verification_stops_the_request env request body token w :
  present (STRAPI_API_TOKEN env) = true →
  requestJson request = Some body →
  honeypotEmpty body →
  REQUIRE_CAPTCHA env = true →
  getProp body "recaptchaToken" = inr (JStr token) →
  trim token ≠ "" →
  ¬ positiveReply (network w (fetches w)
                     (siteverifyRequest token (RECAPTCHA_SECRET_KEY env)
                        (Some (clientIp request)))) →
  let w' := (POST env request w).2 in
  (POST env request w).1 = inr (errorResponse 400 "reCAPTCHA verification failed")
  ∧ rateLimitStore w' = rateLimitStore w
  ∧ ticks w' = ticks w
  ∧ fetches w' = S (fetches w)
  ∧ trace w'
    = (trace w
       ++ [EvVerifyRecaptcha token (RECAPTCHA_SECRET_KEY env) (Some (clientIp request));
           EvFetch (siteverifyRequest token (RECAPTCHA_SECRET_KEY env)
                      (Some (clientIp request)))])%list.
Proof.
  intros Htoken Hbody Hhoney Hrequired Hrecaptcha Hgiven Hnegative.
  destruct (verifyRecaptcha_valid_iff token (RECAPTCHA_SECRET_KEY env)
              (Some (clientIp request)) w) as (result & Hresult & Hvalid).
  destruct (ContactRouteFacts.verifyRecaptcha_frame token (RECAPTCHA_SECRET_KEY env)
              (Some (clientIp request)) w) as (Hstore & _ & Hticks).
  destruct (verifyRecaptcha_world token (RECAPTCHA_SECRET_KEY env)
              (Some (clientIp request)) w) as (Hfetches & Htrace).
  assert (isRecaptchaValid result = false) as Hinvalid.
  { destruct (isRecaptchaValid result); [|done]. destruct Hnegative. by apply Hvalid. }
  assert (POST env request w
          = (inr (errorResponse 400 "reCAPTCHA verification failed"),
             (verifyRecaptcha token (RECAPTCHA_SECRET_KEY env)
                (Some (clientIp request)) w).2)) as ->; [|done].
  rewrite (ContactRouteFacts.POST_runs_layers _ _ body) by done. unfold tryCatch.
  rewrite ContactRouteFacts.layer1_passes by done.
  unfold layer2. rewrite Hrequired. unfold bind at 1, liftE at 1. rewrite Hrecaptcha.
  rewrite ContactRouteFacts.token_given by done. unfold bind at 1.
  destruct (verifyRecaptcha _ _ _ w) as [[e|result'] w1]; simpl in *; [done|].
  injection Hresult as ->. by rewrite Hinvalid.
Qed.

(** *** The way through *)

Lemma greaterThan_length (s : string) k w :
  greaterThan (JNum (inject_Z (Z.of_nat (String.length s)))) k w
  = (inr (negb (Z.of_nat (String.length s) <=? k)), w).
Proof. unfold greaterThan, bind, liftE, ret. simpl. by rewrite Qle_bool_inject. Qed.

Lemma lessThan_length (s : string) k w :
  lessThan (JNum (inject_Z (Z.of_nat (String.length s)))) k w
  = (inr (negb (k <=? Z.of_nat (String.length s))), w).
Proof. unfold lessThan, bind, liftE, ret. simpl. by rewrite Qle_bool_inject. Qed.

Lemma layer5_accepts env body email name subject message w :
  getProp body "name" = inr (JStr name) →
  getProp body "subject" = inr (JStr subject) →
  getProp body "message" = inr (JStr message) →
  acceptable name subject message email →
  layer5 env body email w
  = forwardToStrapi env
      (jsonObject [("name", JStr (sanitizeInput (trim name)));
                   ("email", JStr (trim email));
                   ("subject", JStr (sanitizeInput (trim subject)));
                   ("message", JStr (sanitizeInput (trim message)));
                   ("msg-status", JStr "pending")]) email w.
Proof.
  intros Hname Hsubject Hmessage (Hn & Hnl & Hs & Hsl & Hml & Hemail).
  apply String.eqb_neq in Hn, Hs.
  assert (String.eqb message "" = false) as Hm.
  { apply String.eqb_neq. intros ->. simpl in Hml. lia. }
  unfold layer5. unfold bind at 1, liftE at 1. rewrite Hname.
  unfold bind at 1, liftE at 1. rewrite Hsubject.
  unfold bind at 1, liftE at 1. rewrite Hmessage.
  cbn [truthy]. rewrite Hn, Hs, Hm. cbn [negb orb].
  unfold bind at 1, liftE at 1. cbn [getProp]. rewrite ?String.eqb_refl.
  unfold bind at 1. rewrite greaterThan_length.
  rewrite (proj2 (Z.leb_le _ _)) by lia. cbn [negb].
  unfold bind at 1, liftE at 1. cbn [getProp]. rewrite ?String.eqb_refl.
  unfold bind at 1. rewrite greaterThan_length.
  rewrite (proj2 (Z.leb_le _ _)) by lia. cbn [negb].
  unfold bind at 1, liftE at 1. cbn [getProp]. rewrite ?String.eqb_refl.
  unfold bind at 1. rewrite greaterThan_length.
  rewrite (proj2 (Z.leb_le _ _)) by lia. cbn [negb].
  unfold bind at 1. rewrite lessThan_length.
  rewrite (proj2 (Z.leb_le _ _)) by lia. cbn [negb].
  rewrite Hemail. cbn [negb].
  reflexivity.
Qed.

Lemma forwardToStrapi_accepted env sanitizedData email reply result data w :
  network w (fetches w)
    {| url := STRAPI_URL env +:+ "/api/contactmsgs";
       method := "POST";
       requestHeaders :=
         [("Content-Type", "application/json");
          ("Authorization", "Bearer " +:+ jsString (STRAPI_API_TOKEN env))];
       requestBody := JsonBody (jsonObject [("data", sanitizedData)]) |}
  = FetchResolves reply →
  ok reply = true →
  payload reply = Some result →
  getProp result "data" = inr data →
  (forwardToStrapi env sanitizedData email w).1
  = inr (jsonResponse 200
           (jsonObject [("success", JBool true);
                        ("message", JStr "Your message has been sent successfully");
                        ("data", data)])).
Proof.
  intros Hreply Hok Hpayload Hdata.
  unfold forwardToStrapi, bind, fetch, responseJson, liftE, ret. rewrite Hreply.
  rewrite Hok. simpl. rewrite Hpayload. simpl. by rewrite Hdata.
Qed.

(** X17.  The way through the five layers.  With the Strapi token
    configured, a submission whose honeypot is empty, that passes the
    CAPTCHA layer, whose IP and email are within their limits and whose
    fields pass the validation is sent to Strapi; when Strapi answers
    with a success status and a JSON value, the route answers 200 with
    the [data] of that value. *)
Theorem valid_submission_is_delivered env request body w w1 raw name subject message
    reply result data :
  present (STRAPI_API_TOKEN env) = true →
  requestJson request = Some body →
  honeypotEmpty body →
  captchaPasses env body (clientIp request) w w1 →
  getProp body "email" = inr (JStr raw) →
  getProp body "name" = inr (JStr name) →
  getProp body "subject" = inr (JStr subject) →
  getProp body "message" = inr (JStr message) →
  acceptable name subject message (trim (toLowerCase raw)) →
  allowed (checkIpRateLimit (clock w (ticks w)) (clientIp request) (rateLimitStore w)).1
  = true →
  allowed (checkEmailRateLimit (clock w (S (ticks w))) (trim (toLowerCase raw))
             (checkIpRateLimit (clock w (ticks w)) (clientIp request)
                (rateLimitStore w)).2).1
  = true →
  network w1 (fetches w1)
    (strapiRequest env name (trim (toLowerCase raw)) subject message)
  = FetchResolves reply →
  ok reply = true →
  payload reply = Some result →
  getProp result "data" = inr data →
  (POST env request w).1
  = inr (jsonResponse 200
           (jsonObject [("success", JBool true);
                        ("message", JStr "Your message has been sent successfully");
                        ("data", data)])).
Proof.
  intros Htoken Hbody Hhoney Hcaptcha Hraw Hname Hsubject Hmessage Hacceptable
    Hip Hemail Hreply Hok Hpayload Hdata.
  destruct (ContactRouteFacts.captchaPasses_frame _ _ _ _ _ Hcaptcha)
    as (Hstore & Hclock & Hticks).
  rewrite <- Hstore, <- Hclock, <- Hticks in Hip, Hemail.
  assert (String.eqb (trim (toLowerCase raw)) "" = false) as Hgiven.
  { apply String.eqb_neq. intros Hblank. destruct Hacceptable as (_ & _ & _ & _ & _ & He).
    by rewrite Hblank in He. }
  assert ((layer3 env body (clientIp request) w1).1
          = inr (jsonResponse 200
                   (jsonObject [("success", JBool true);
                                ("message", JStr "Your message has been sent successfully");
                                ("data", data)]))) as Hrun.
  { unfold layer3, checkIpRateLimitM, checkRateLimitM.
    unfold bind at 1. unfold bind at 1. unfold bind at 1. unfold Date_now at 1.
    unfold record at 1. unfold onStore at 1. cbn [fst snd rateLimitStore clock ticks].
    unfold checkIpRateLimit in Hip, Hemail.
    destruct (checkRateLimit _ _ _ (rateLimitStore w1)) as [ipRateLimit store1] eqn:Hcheck1.
    cbn [fst snd] in Hip, Hemail |- *. rewrite Hip. cbn [negb].
    unfold layer4. unfold bind at 1, liftE at 1. rewrite Hraw.
    unfold bind at 1, ret at 1. unfold present. rewrite Hgiven. cbn [negb default].
    unfold checkEmailRateLimitM, checkRateLimitM.
    unfold bind at 1. unfold bind at 1. unfold bind at 1. unfold Date_now at 1.
    unfold record at 1. unfold onStore at 1. cbn [fst snd rateLimitStore clock ticks].
    unfold checkEmailRateLimit in Hemail.
    destruct (checkRateLimit _ _ _ store1) as [emailRateLimit store2] eqn:Hcheck2.
    cbn [fst snd] in Hemail |- *. rewrite Hemail. cbn [negb].
    rewrite (layer5_accepts _ _ _ name subject message) by done.
    by eapply forwardToStrapi_accepted. }
  rewrite (ContactRouteFacts.POST_runs_layers _ _ body) by done. unfold tryCatch.
  rewrite ContactRouteFacts.layer1_passes by done.
  rewrite (ContactRouteFacts.layer2_passes _ _ _ _ _ Hcaptcha).
  destruct (layer3 env body (clientIp request) w1) as [[e|r] w']; simpl in *; [done|].
  by injection Hrun as ->.
Qed.

(** *** The email layer *)

(** X18.  The email layer, at its edges: an email that is absent,
    [null], or a string that is blank once lowered and trimmed, is
    answered 400 "Email is required" with the world untouched; an email
    that is any other value than a string throws a TypeError (which the
    route answers with 500). *)
Theorem email_is_required env body w raw :
  getProp body "email" = inr raw →
  ((raw = JUndefined ∨ raw = JNull ∨ ∃ s, raw = JStr s ∧ trim (toLowerCase s) = "") →
   layer4 env body w = (inr (errorResponse 400 "Email is required"), w))
  ∧ (isString raw = false → raw ≠ JUndefined → raw ≠ JNull →
     layer4 env body w = (inl TypeError, w)).
Proof.
  intros Hraw. unfold layer4, bind, liftE. rewrite Hraw. split.
  - intros [-> | [-> | (s & -> & Hblank)]]; try done.
    unfold ret. simpl. by rewrite Hblank.
  - intros Hstring Hundefined Hnull. by destruct raw.
Qed.

(** X19.  When the email of the body, lowered and trimmed, has a live
    entry with three or more requests, layer 4 answers 429 "Too many
    submissions from this email" with the seconds to the end of its
    window; the store is unchanged and nothing is sent to Strapi. *)
Theorem email_limit_denies env body w raw entry :
  getProp body "email" = inr (JStr raw) →
  trim (toLowerCase raw) ≠ "" →
  rateLimitStore w !! storeKey ("email:" +:+ trim (toLowerCase raw)) = Some entry →
  ¬ expired (clock w (ticks w)) entry →
  MAX_REQUESTS_PER_EMAIL ≤ count entry →
  ∃ w',
    layer4 env body w
    = (inr (rateLimitResponse "Too many submissions from this email"
              (getResetTimeSeconds (clock w (S (ticks w)))
                 (firstRequestAt entry + WINDOW_MS))), w')
    ∧ rateLimitStore w' = rateLimitStore w
    ∧ fetches w' = fetches w.
Proof.
  intros Hraw Hgiven Hentry Hactive Hfull.
  unfold layer4, checkEmailRateLimitM, checkRateLimitM, getResetTimeSecondsM.
  unfold bind, liftE, Date_now, record, onStore, ret. rewrite Hraw. simpl.
  apply String.eqb_neq in Hgiven as ->. simpl.
  unfold checkRateLimit. rewrite Hentry.
  rewrite decide_False by done. rewrite decide_True by lia. simpl.
  eexists. split_and!; reflexivity.
Qed.

(** The store after layer 4: the one check of the email, when the body
    has one. *)
Lemma layer4_store env body w :
  rateLimitStore (layer4 env body w).2
  = match getProp body "email" with
    | inr (JStr raw) =>
        if String.eqb (trim (toLowerCase raw)) "" then rateLimitStore w
        else (checkEmailRateLimit (clock w (ticks w)) (trim (toLowerCase raw))
                (rateLimitStore w)).2
    | _ => rateLimitStore w
    end.
Proof.
  unfold layer4, bind at 1, liftE at 1.
  destruct (getProp body "email") as [e|raw]; [done|].
  destruct raw as [| |b|q|raw|items|fields]; try done.
  unfold bind at 1, ret at 1.
  unfold present. destruct (String.eqb_spec (trim (toLowerCase raw)) ""); [done|].
  cbn [negb default].
  unfold checkEmailRateLimitM, checkRateLimitM, checkEmailRateLimit.
  unfold bind at 1. unfold bind at 1. unfold bind at 1. unfold Date_now at 1.
  unfold record at 1. unfold onStore at 1. cbn [fst snd rateLimitStore clock ticks].
  destruct (checkRateLimit _ _ _ _) as [emailRateLimit store'] eqn:Hcheck.
  cbn [fst snd].
  destruct (negb (allowed emailRateLimit)); [done|].
  apply sameStore_layer5.
Qed.

(** The store after layer 3. *)
Lemma layer3_store env body ip w :
  let ipCheck := checkIpRateLimit (clock w (ticks w)) ip (rateLimitStore w) in
  rateLimitStore (layer3 env body ip w).2
  = if allowed ipCheck.1 then
      match getProp body "email" with
      | inr (JStr raw) =>
          if String.eqb (trim (toLowerCase raw)) "" then ipCheck.2
          else (checkEmailRateLimit (clock w (S (ticks w))) (trim (toLowerCase raw))
                  ipCheck.2).2
      | _ => ipCheck.2
      end
    else ipCheck.2.
Proof.
  unfold layer3, checkIpRateLimitM, checkRateLimitM, checkIpRateLimit.
  unfold bind at 1. unfold bind at 1. unfold bind at 1. unfold Date_now at 1.
  unfold record at 1. unfold onStore at 1. cbn [fst snd rateLimitStore clock ticks].
  destruct (checkRateLimit _ _ _ _) as [ipRateLimit store'] eqn:Hcheck.
  cbn [fst snd].
  destruct (allowed ipRateLimit); cbn [negb]; [|done].
  by rewrite layer4_store.
Qed.

(** X20.  A request that passes the honeypot and the CAPTCHA layers is
    counted whatever becomes of it.  The store it leaves is the one
    after the check of its IP, or after that and one check of an email;
    when the IP check refuses, the store is unchanged; when it allows
    and the body has a non-blank email, the email is checked too, even
    if the submission then fails validation or Strapi fails. *)
Theorem rejected_submissions_still_count env request body w w1 :
  present (STRAPI_API_TOKEN env) = true →
  requestJson request = Some body →
  honeypotEmpty body →
  captchaPasses env body (clientIp request) w w1 →
  let ipCheck :=
    checkIpRateLimit (clock w (ticks w)) (clientIp request) (rateLimitStore w) in
  let final := rateLimitStore (POST env request w).2 in
  (final = ipCheck.2
   ∨ ∃ email, final = (checkEmailRateLimit (clock w (S (ticks w))) email ipCheck.2).2)
  ∧ (allowed ipCheck.1 = false → final = rateLimitStore w)
  ∧ (∀ raw, allowed ipCheck.1 = true →
            getProp body "email" = inr (JStr raw) →
            trim (toLowerCase raw) ≠ "" →
            final = (checkEmailRateLimit (clock w (S (ticks w))) (trim (toLowerCase raw))
                       ipCheck.2).2).
Proof.
  intros Htoken Hbody Hhoney Hcaptcha ipCheck final.
  destruct (ContactRouteFacts.captchaPasses_frame _ _ _ _ _ Hcaptcha)
    as (Hstore & Hclock & Hticks).
  assert (final = rateLimitStore (layer3 env body (clientIp request) w1).2) as Hfinal.
  { subst final. rewrite (ContactRouteFacts.POST_runs_layers _ _ body) by done.
    unfold tryCatch. rewrite ContactRouteFacts.layer1_passes by done.
    rewrite (ContactRouteFacts.layer2_passes _ _ _ _ _ Hcaptcha).
    by destruct (layer3 env body (clientIp request) w1) as [[e|r] w']. }
  rewrite layer3_store in Hfinal. rewrite Hstore, Hclock, Hticks in Hfinal.
  fold ipCheck in Hfinal. rewrite Hfinal. clear Hfinal final.
  split_and!.
  - destruct (allowed ipCheck.1); [|by left].
    destruct (getProp body "email") as [|[| | | |raw| |]]; try (by left).
    destruct (String.eqb _ ""); [by left|]. right. by eexists.
  - subst ipCheck. unfold checkIpRateLimit.
    destruct (allowed _) eqn:Hallowed; [done|]. intros _.
    by apply denied_store.
  - intros raw -> -> Hgiven. by apply String.eqb_neq in Hgiven as ->.
Qed.

End WithHost.

(** *** On concrete requests *)

Import Examples.
#[local] Existing Instance ExampleHost.host.

Lemma success_only_when_strapi_accepts_witness :
  let request := requestFrom clientIpAddress validBody in
  let w := onlineWorld strapiCreated in
  strapiAccepted devEnv w
    (jsonResponse 200
       (jsonObject [("success", JBool true);
                    ("message", JStr "Your message has been sent successfully");
                    ("data", jsonObject [("id", JNum 7)])]))
    (POST devEnv request w).2.
Proof.
  intros request w.
  apply (success_only_when_strapi_accepts devEnv request w); reflexivity.
Defined.

Lemma valid_submission_is_delivered_witness :
  (POST devEnv (requestFrom clientIpAddress validBody) (onlineWorld strapiCreated)).1
  = inr (jsonResponse 200
           (jsonObject [("success", JBool true);
                        ("message", JStr "Your message has been sent successfully");
                        ("data", jsonObject [("id", JNum 7)])])).
Proof.
  apply (valid_submission_is_delivered devEnv (requestFrom clientIpAddress validBody)
           validBody (onlineWorld strapiCreated) (onlineWorld strapiCreated)
           "Anna@Example.com" "Anna" "Coupons" "Where do I enter the code?"
           {| ok := true;
              payload := Some (jsonObject [("data", jsonObject [("id", JNum 7)])]) |}
           (jsonObject [("data", jsonObject [("id", JNum 7)])])
           (jsonObject [("id", JNum 7)])).
  - reflexivity.
  - reflexivity.
  - exists JUndefined, JUndefined. by split_and!.
  - left. by split.
  - reflexivity.
  - reflexivity.
  - reflexivity.
  - reflexivity.
  - unfold acceptable. split_and!; try done; try (simpl; lia).
  - reflexivity.
  - reflexivity.
  - reflexivity.
  - reflexivity.
  - reflexivity.
  - reflexivity.
Defined.

Lemma failed_verification_stops_the_request_witness :
  let body := jsonObject [("name", JStr "Anna"); ("email", JStr "anna@example.com");
                          ("subject", JStr "Coupons");
                          ("message", JStr "Where do I enter the code?");
                          ("recaptchaToken", JStr "03AGdBq24")] in
  let request := requestFrom clientIpAddress body in
  let w := offlineWorld ∅ (λ _, 0) in
  let w' := (POST prodEnv request w).2 in
  (POST prodEnv request w).1 = inr (errorResponse 400 "reCAPTCHA verification failed")
  ∧ rateLimitStore w' = rateLimitStore w
  ∧ ticks w' = ticks w
  ∧ fetches w' = S (fetches w)
  ∧ trace w'
    = (trace w
       ++ [EvVerifyRecaptcha "03AGdBq24" (RECAPTCHA_SECRET_KEY prodEnv)
             (Some (clientIp request));
           EvFetch (siteverifyRequest "03AGdBq24" (RECAPTCHA_SECRET_KEY prodEnv)
                      (Some (clientIp request)))])%list.
Proof.
  intros body request w.
  apply (failed_verification_stops_the_request prodEnv request body "03AGdBq24" w).
  - reflexivity.
  - reflexivity.
  - exists JUndefined, JUndefined. by split_and!.
  - reflexivity.
  - reflexivity.
  - vm_compute. discriminate.
  - intros (reply & fields & Hreply & _). discriminate Hreply.
Defined.

Lemma email_is_required_witness :
  let body := jsonObject [("name", JStr "Anna"); ("email", JStr "  ");
                          ("subject", JStr "Coupons");
                          ("message", JStr "Where do I enter the code?")] in
  let w := offlineWorld ∅ (λ _, 0) in
  ((JStr "  " = JUndefined ∨ JStr "  " = JNull
    ∨ ∃ s, JStr "  " = JStr s ∧ trim (toLowerCase s) = "") →
   layer4 devEnv body w = (inr (errorResponse 400 "Email is required"), w))
  ∧ (isString (JStr "  ") = false → JStr "  " ≠ JUndefined → JStr "  " ≠ JNull →
     layer4 devEnv body w = (inl TypeError, w)).
Proof.
  intros body w. apply (email_is_required devEnv body w (JStr "  ")). reflexivity.
Defined.

Lemma email_limit_denies_witness :
  let w := offlineWorld
             {[ "email:anna@example.com" := {| count := 3; firstRequestAt := 0 |} ]}
             (λ _, 1000) in
  ∃ w',
    layer4 devEnv validBody w
    = (inr (rateLimitResponse "Too many submissions from this email"
              (getResetTimeSeconds (clock w (S (ticks w))) (0 + WINDOW_MS))), w')
    ∧ rateLimitStore w' = rateLimitStore w
    ∧ fetches w' = fetches w.
Proof.
  intros w.
  apply (email_limit_denies devEnv validBody w "Anna@Example.com"
           {| count := 3; firstRequestAt := 0 |}).
  - reflexivity.
  - vm_compute. discriminate.
  - reflexivity.
  - vm_compute. intros Hexpired. discriminate Hexpired.
  - vm_compute. discriminate.
Defined.

Lemma rejected_submissions_still_count_witness :
  let request := requestFrom clientIpAddress shortMessageBody in
  let w := offlineWorld ∅ (λ _, 0) in
  let ipCheck :=
    checkIpRateLimit (clock w (ticks w)) (clientIp request) (rateLimitStore w) in
  let final := rateLimitStore (POST devEnv request w).2 in
  (final = ipCheck.2
   ∨ ∃ email, final = (checkEmailRateLimit (clock w (S (ticks w))) email ipCheck.2).2)
  ∧ (allowed ipCheck.1 = false → final = rateLimitStore w)
  ∧ (∀ raw, allowed ipCheck.1 = true →
            getProp shortMessageBody "email" = inr (JStr raw) →
            trim (toLowerCase raw) ≠ "" →
            final = (checkEmailRateLimit (clock w (S (ticks w))) (trim (toLowerCase raw))
                       ipCheck.2).2).
Proof.
  intros request w.
  apply (rejected_submissions_still_count devEnv request shortMessageBody w w).
  - reflexivity.
  - reflexivity.
  - exists JUndefined, JUndefined. by split_and!.
  - left. by split.
Defined.

End OutcomeFacts.

(** ** The call of the handler *)

Module EndpointFacts.
Import RateLimiter Recaptcha ContactRoute Outcomes Endpoint.

#[local] Existing Instance OutcomeFacts.later_preorder.


#[local] Instance sameTimes_preorder : PreOrder sameTimes.
Proof.
  split; [by intros w|]. intros w1 w2 w3 [? ?] [? ?]. split; congruence.
Qed.






Section WithHost.
Context `{JsHost}.


(** *** The answers of the layers behind the IP limit *)






(** *** One call *)






(** *** A run of calls *)




(** X13.  A call of the handler throws only where its parameter list
    reads the client address: when that read throws, the call throws
    the same error before its first statement and leaves the world as
    it was, with nothing checked, fetched or stored.  In every other
    case, whatever the configuration, the request and the world, it
    returns a response whose status is 200, 400, 429 or 500 and whose
    content type is JSON; a 429 is one of the rate-limit responses, with
    its [Retry-After] header; every answer other than 200 carries an
    [error] message. *)
Theorem POST_throws_only_at_its_parameters env context w :
  match context_clientAddress context with
  | inl e => callPOST env context w = (inl e, w)
  | inr _ => ∃ r, (callPOST env context w).1 = inr r ∧ wellFormed r
  end.
Proof.
  unfold callPOST, bind, liftE, destructure.
  destruct (context_clientAddress context) as [e|address]; [done|].
  match goal with |- ∃ r, (POST env ?request w).1 = _ ∧ _ =>
    destruct (OutcomeFacts.POST_outcome env request w) as (r & ? & ? & _) end.
  by exists r.
Qed.

End WithHost.

(** *** On concrete calls *)

Import Examples EndpointExamples.
#[local] Existing Instance ExampleHost.host.




End EndpointFacts.

(** ** src/lib/seo.ts *)

Module SeoFacts.
Import Seo.
#[local] Arguments Ascii.eqb : simpl never.
#[local] Arguments String.eqb : simpl never.

Lemma append_nil_r (s : string) : s +:+ "" = s.
Proof. induction s as [|a s IH]; [done|]. by rewrite SanitizeFacts.append_cons, IH. Qed.

Lemma endsWithSlash_append (s t : string) :
  t ≠ "" → endsWithSlash (s +:+ t) = endsWithSlash t.
Proof.
  intros Ht. induction s as [|a s IH]; [done|].
  rewrite SanitizeFacts.append_cons. simpl.
  destruct (s +:+ t) eqn:Hst; [|done].
  destruct s; [by destruct t | discriminate].
Qed.

(** X21.  [buildAbsoluteUrl] appends the path to the site address as
    it is when the path begins with a slash, and after a slash when it
    does not: the path with a slash in front of it gives the address, a
    slash and the path, whatever the path.  So every URL it builds
    begins with the site address and a slash; a path without a leading
    slash and the same path with one give the same URL; and a path that
    begins with two slashes keeps both. *)
Theorem buildAbsoluteUrl_leading_slash path :
  buildAbsoluteUrl path
  = (if startsWith "/" path then "https://promocode.lv" +:+ path
     else "https://promocode.lv/" +:+ path)
  ∧ buildAbsoluteUrl ("/" +:+ path) = "https://promocode.lv/" +:+ path
  ∧ startsWith "https://promocode.lv/" (buildAbsoluteUrl path) = true
  ∧ buildAbsoluteUrl ("/" +:+ path)
    = (if startsWith "/" path then SITE_URL +:+ "/" +:+ path else buildAbsoluteUrl path).
Proof.
  assert (buildAbsoluteUrl path
          = (if startsWith "/" path then "https://promocode.lv" +:+ path
             else "https://promocode.lv/" +:+ path)) as Hbuilt.
  { unfold buildAbsoluteUrl. by destruct (startsWith "/" path). }
  assert (buildAbsoluteUrl ("/" +:+ path) = "https://promocode.lv/" +:+ path) as Hslash
    by done.
  split_and!; [done | done | |].
  - rewrite Hbuilt. destruct path as [|c path]; [done|].
    cbn [startsWith]. destruct (Ascii.eqb "/" c) eqn:Hc; [|by vm_compute].
    apply Ascii.eqb_eq in Hc as <-. by vm_compute.
  - rewrite Hslash, Hbuilt. by destruct (startsWith "/" path).
Qed.

Lemma buildAbsoluteUrl_ends path :
  path ≠ "" → endsWithSlash (buildAbsoluteUrl path) = endsWithSlash path.
Proof.
  intros Hne. unfold buildAbsoluteUrl.
  destruct (startsWith "/" path).
  - by rewrite endsWithSlash_append.
  - rewrite endsWithSlash_append; [|by destruct path].
    by rewrite (endsWithSlash_append "/" path).
Qed.

(** X22.  A canonical URL always ends with a slash; a path and the
    same path with a slash appended have the same canonical URL; for a
    path that ends with a slash it is the absolute URL of the path. *)
Theorem canonical_url_ends_with_slash currentPath :
  endsWithSlash (generateCanonicalUrl currentPath) = true
  ∧ (endsWithSlash currentPath = false →
     generateCanonicalUrl (currentPath +:+ "/") = generateCanonicalUrl currentPath)
  ∧ (endsWithSlash currentPath = true →
     generateCanonicalUrl currentPath = buildAbsoluteUrl currentPath).
Proof.
  unfold generateCanonicalUrl. split_and!.
  - destruct (endsWithSlash currentPath) eqn:Hend; cbn [negb andb].
    + rewrite buildAbsoluteUrl_ends; [done | by destruct currentPath].
    + destruct (String.eqb_spec currentPath "/") as [->|_]; [done|]. cbn [negb andb].
      rewrite buildAbsoluteUrl_ends; [|by destruct currentPath].
      by rewrite endsWithSlash_append.
  - intros Hend. rewrite Hend.
    rewrite (endsWithSlash_append currentPath "/") by done. cbn [negb andb].
    destruct (String.eqb_spec currentPath "/") as [->|_]; [done|]. reflexivity.
  - intros Hend. by rewrite Hend.
Qed.

Lemma alternatesOf_spec localeSlugs pathOf :
  alternatesSpec localeSlugs pathOf (alternatesOf localeSlugs pathOf).
Proof.
  unfold alternatesSpec, alternatesOf, locales, hreflangDefaultLocale.
  cbn [flat_map slugOf getHreflang HREFLANG_MAP localeCode].
  destruct (ContactRoute.present (slug_lv localeSlugs)) eqn:Hlv,
    (ContactRoute.present (slug_en localeSlugs)) eqn:Hen,
    (ContactRoute.present (slug_ru localeSlugs)) eqn:Hru;
    cbn [app fmap list_fmap hreflang].
  all: split;
    [ simpl; by apply (bool_decide_unpack _)
    | intros a; split;
      [ intros Hin; repeat (destruct Hin as [<- | Hin]; [
          first [ by left; exists lv | by left; exists en | by left; exists ru
                | by right ] |]); destruct Hin
      | intros [[[] [Hp ->]] | [Hp ->]]; simpl in *;
        first [ congruence | by repeat (first [left; reflexivity | right]) ] ] ].
Qed.

(** X23.  The four generators of hreflang alternates give, each with
    its own path, a list with one alternate for every locale that has a
    non-empty slug and, when Latvian has one, an x-default alternate
    with the Latvian address; no hreflang code appears twice. *)
Theorem hreflang_generators_spec localeSlugs basePath :
  alternatesSpec localeSlugs categoryPath (generateCategoryHreflang localeSlugs)
  ∧ alternatesSpec localeSlugs brandPath (generateBrandHreflang localeSlugs)
  ∧ alternatesSpec localeSlugs footerLinkPath (generateFooterLinkHreflang localeSlugs)
  ∧ alternatesSpec localeSlugs (basePathOf basePath)
      (generateHreflangAlternates basePath localeSlugs).
Proof. split_and!; apply alternatesOf_spec. Qed.

Lemma afterLocalePrefix_intro locale rest :
  rest = "" ∨ startsWith "/" rest = true →
  afterLocalePrefix ("/" +:+ localeCode locale +:+ rest) = Some rest.
Proof.
  intros [-> | Hrest].
  - by destruct locale.
  - destruct rest as [|c rest]; [done|].
    cbn [startsWith] in Hrest. rewrite andb_true_r in Hrest.
    apply Ascii.eqb_eq in Hrest as <-. by destruct locale.
Qed.

Lemma afterLocalePrefix_inv path rest :
  afterLocalePrefix path = Some rest →
  (rest = "" ∨ startsWith "/" rest = true)
  ∧ ∃ locale, path = "/" +:+ localeCode locale +:+ rest.
Proof.
  unfold afterLocalePrefix.
  destruct path as [|c0 [|a [|b tl]]]; try done.
  { by destruct c0 as [[] [] [] [] [] [] [] []]. }
  { by destruct c0 as [[] [] [] [] [] [] [] []]. }
  destruct (Ascii.eqb_spec c0 "/") as [->|Hc0];
    [|by destruct c0 as [[] [] [] [] [] [] [] []]].
  destruct (String.eqb_spec (String a (String b "")) "lv") as [Hlv|_];
    [|destruct (String.eqb_spec (String a (String b "")) "en") as [Hen|_];
      [|destruct (String.eqb_spec (String a (String b "")) "ru") as [Hru|_]]];
    cbn [orb]; try done.
  all: destruct tl as [|c tl'];
    [ intros [= <-]
    | destruct (Ascii.eqb_spec c "/") as [->|?];
      [ intros [= <-] | by destruct c as [[] [] [] [] [] [] [] []] ] ];
    (split; [by auto|]); simplify_eq.
  all: first [ by exists lv | by exists en | by exists ru ].
Qed.

(** X24.  For a page without slugs in the two locales, switching the
    language twice is switching once to the last one; switching away
    from a path with a locale prefix and back gives the path again; a
    path without a locale prefix is left as it is. *)
Theorem switching_locale_composes a b localeSlugs contentType currentPath :
  ContactRoute.present (slugOf localeSlugs a) = false →
  ContactRoute.present (slugOf localeSlugs b) = false →
  getLocalizedPath b localeSlugs contentType
    (getLocalizedPath a localeSlugs contentType currentPath)
  = getLocalizedPath b localeSlugs contentType currentPath
  ∧ (∀ rest, rest = "" ∨ startsWith "/" rest = true →
       currentPath = "/" +:+ localeCode b +:+ rest →
       getLocalizedPath b localeSlugs contentType
         (getLocalizedPath a localeSlugs contentType currentPath) = currentPath)
  ∧ (afterLocalePrefix currentPath = None →
     getLocalizedPath a localeSlugs contentType currentPath = currentPath).
Proof.
  intros Ha Hb. unfold getLocalizedPath. rewrite Ha, Hb.
  assert (match afterLocalePrefix
                  match afterLocalePrefix currentPath with
                  | Some rest => "/" +:+ localeCode a +:+ rest
                  | None => currentPath
                  end
          with
          | Some rest => "/" +:+ localeCode b +:+ rest
          | None => match afterLocalePrefix currentPath with
                    | Some rest => "/" +:+ localeCode a +:+ rest
                    | None => currentPath
                    end
          end
          = match afterLocalePrefix currentPath with
            | Some rest => "/" +:+ localeCode b +:+ rest
            | None => currentPath
            end) as Hcompose.
  { destruct (afterLocalePrefix currentPath) as [rest|] eqn:Hprefix.
    - apply afterLocalePrefix_inv in Hprefix as [Hshape _].
      by rewrite afterLocalePrefix_intro.
    - by rewrite Hprefix. }
  split_and!.
  - exact Hcompose.
  - intros rest Hshape ->. rewrite Hcompose.
    by rewrite afterLocalePrefix_intro.
  - by intros ->.
Qed.

Lemma splitOn_slashFree s : slashFree s = true → splitOn "/" s = [s].
Proof.
  induction s as [|c s IH]; [done|]. cbn [slashFree splitOn].
  intros [Hc Hs]%andb_true_iff. apply negb_true_iff in Hc. rewrite Hc.
  by rewrite IH.
Qed.

Lemma splitOn_cons_nonempty c s : splitOn c s ≠ [].
Proof.
  destruct s as [|a s]; [done|]. cbn [splitOn].
  destruct (Ascii.eqb a c); [done|]. by destruct (splitOn c s).
Qed.

Lemma splitOn_segment_then s rest :
  slashFree s = true → splitOn "/" (s +:+ "/" +:+ rest) = s :: splitOn "/" rest.
Proof.
  induction s as [|c s IH]; [done|].
  cbn [slashFree]. intros [Hc Hs]%andb_true_iff. apply negb_true_iff in Hc.
  rewrite SanitizeFacts.append_cons. cbn [splitOn]. rewrite Hc.
  by rewrite IH.
Qed.

(** Splitting undoes joining. *)
Lemma splitOn_join parts :
  parts ≠ [] → Forall (λ s, slashFree s = true) parts →
  splitOn "/" (join "/" parts) = parts.
Proof.
  induction parts as [|part parts IH]; [done|]. intros _ Hall.
  apply Forall_cons in Hall as [Hpart Hall].
  destruct parts as [|next parts]; [by apply splitOn_slashFree|].
  change (join "/" (part :: next :: parts))
    with (part +:+ "/" +:+ join "/" (next :: parts)).
  rewrite splitOn_segment_then by done. by rewrite IH.
Qed.

Lemma filter_segments parts :
  Forall segment parts →
  List.filter (λ part, negb (String.eqb part "")) parts = parts.
Proof.
  induction 1 as [|s l [Hs _] _ IH]; [done|].
  cbn [List.filter]. rewrite IH. by apply String.eqb_neq in Hs as ->.
Qed.

Lemma pathWithoutLocale_drops_first seg segs :
  Forall segment (seg :: segs) →
  pathWithoutLocale ("/" +:+ join "/" (seg :: segs)) = join "/" segs.
Proof.
  intros Hall. unfold pathWithoutLocale.
  change ("/" +:+ join "/" (seg :: segs))
    with (String "/" (join "/" (seg :: segs))).
  cbn [splitOn]. rewrite Ascii.eqb_refl.
  rewrite splitOn_join; [|done|by eapply Forall_impl; [exact Hall | intros ? []]].
  change (List.filter ?f ("" :: ?l)) with (List.filter f l).
  by rewrite filter_segments.
Qed.

(** X25.  [generateHreflangAlternates] takes from the base path only
    the segments after the first: for a path of non-empty segments the
    first segment is dropped whatever it is, a locale or not, and the
    slugs matter only by being present. *)
Theorem hreflang_alternates_keep_only_the_tail seg seg' segs localeSlugs localeSlugs' :
  Forall segment (seg :: segs) →
  segment seg' →
  (∀ locale, ContactRoute.present (slugOf localeSlugs locale)
             = ContactRoute.present (slugOf localeSlugs' locale)) →
  pathWithoutLocale ("/" +:+ join "/" (seg :: segs)) = join "/" segs
  ∧ generateHreflangAlternates ("/" +:+ join "/" (seg :: segs)) localeSlugs
    = generateHreflangAlternates ("/" +:+ join "/" (seg' :: segs)) localeSlugs'.
Proof.
  intros Hall Hseg' Hsame.
  assert (Forall segment (seg' :: segs)) as Hall'.
  { apply Forall_cons in Hall as [_ Hsegs]. by constructor. }
  split; [by apply pathWithoutLocale_drops_first|].
  unfold generateHreflangAlternates, locales, hreflangDefaultLocale.
  cbn [flat_map].
  rewrite !pathWithoutLocale_drops_first by done.
  by rewrite !Hsame.
Qed.

Lemma switching_locale_composes_witness :
  let localeSlugs := {| slug_lv := None; slug_en := None; slug_ru := None |} in
  let currentPath := "/lv/categories/food" in
  getLocalizedPath ru localeSlugs categories
    (getLocalizedPath en localeSlugs categories currentPath)
  = getLocalizedPath ru localeSlugs categories currentPath
  ∧ (∀ rest, rest = "" ∨ startsWith "/" rest = true →
       currentPath = "/" +:+ localeCode ru +:+ rest →
       getLocalizedPath ru localeSlugs categories
         (getLocalizedPath en localeSlugs categories currentPath) = currentPath)
  ∧ (afterLocalePrefix currentPath = None →
     getLocalizedPath en localeSlugs categories currentPath = currentPath).
Proof.
  intros localeSlugs currentPath.
  apply (switching_locale_composes en ru localeSlugs categories currentPath);
    reflexivity.
Defined.

Lemma hreflang_alternates_keep_only_the_tail_witness :
  let localeSlugs := {| slug_lv := Some "ediens"; slug_en := Some "food";
                        slug_ru := None |} in
  let localeSlugs' := {| slug_lv := Some "x"; slug_en := Some "y"; slug_ru := Some "" |} in
  pathWithoutLocale ("/" +:+ join "/" ["lv"; "categories"; "ediens"])
  = join "/" ["categories"; "ediens"]
  ∧ generateHreflangAlternates ("/" +:+ join "/" ["lv"; "categories"; "ediens"]) localeSlugs
    = generateHreflangAlternates ("/" +:+ join "/" ["blog"; "categories"; "ediens"])
        localeSlugs'.
Proof.
  intros localeSlugs localeSlugs'.
  apply (hreflang_alternates_keep_only_the_tail "lv" "blog" ["categories"; "ediens"]
           localeSlugs localeSlugs').
  - constructor; [by split|constructor; [by split|constructor; [by split|constructor]]].
  - by split.
  - by intros [].
Defined.

End SeoFacts.

(** ** The Strapi API utilities *)

Module StrapiFacts.
Import ContactRoute Markup Strapi.
#[local] Arguments Ascii.eqb : simpl never.
#[local] Arguments String.eqb : simpl never.

Lemma filter_other_names name (rest : SearchParams) :
  name ∉ rest.*1 →
  List.filter (λ pair : string * string, negb (String.eqb pair.1 name)) rest = rest.
Proof.
  induction rest as [|[n v] rest IH]; [done|]. cbn [List.filter fst fmap list_fmap].
  rewrite not_elem_of_cons. intros [Hne Hrest].
  destruct (String.eqb_spec n name) as [->|_]; [done|].
  cbn [negb]. by rewrite IH.
Qed.

Lemma set_names name value searchParams :
  NoDup searchParams.*1 →
  NoDup (set name value searchParams).*1
  ∧ ∀ n, n ∈ (set name value searchParams).*1 ↔ n = name ∨ n ∈ searchParams.*1.
Proof.
  induction searchParams as [|[n v] rest IH]; intros Hnodup.
  { cbn. split; [apply NoDup_singleton|]. intros n'.
    by rewrite elem_of_cons. }
  cbn [fmap list_fmap fst] in Hnodup. apply NoDup_cons in Hnodup as [Hn Hrest].
  cbn [set]. destruct (String.eqb_spec n name) as [->|Hne].
  - rewrite filter_other_names by done. cbn [fmap list_fmap fst].
    split; [by apply NoDup_cons|]. intros n'. rewrite elem_of_cons. tauto.
  - destruct (IH Hrest) as [Hnodup' Hin]. cbn [fmap list_fmap fst].
    split.
    + apply NoDup_cons. split; [|done]. rewrite Hin. by intros [?|?].
    + intros n'. rewrite !elem_of_cons, Hin. tauto.
Qed.

Lemma set_nonempty name value searchParams : set name value searchParams ≠ [].
Proof. destruct searchParams as [|[n v] rest]; [done|]. simpl. by destruct (String.eqb n name). Qed.

Section WithHost.
Context `{UrlHost}.

Lemma setFilter_NoDup searchParams entry :
  NoDup searchParams.*1 → NoDup (setFilter searchParams entry).*1.
Proof.
  destruct entry as [key [entries|value]]; simpl; [|by apply set_names].
  revert searchParams. induction entries as [|[op val] entries IH]; intros sp Hsp; [done|].
  simpl. apply IH. by apply set_names.
Qed.

Lemma queryPairs_NoDup params : NoDup (queryPairs params).*1.
Proof.
  unfold queryPairs.
  assert (∀ (b : bool) name value (sp : SearchParams),
            NoDup sp.*1 → NoDup (if b then set name value sp else sp).*1) as Hif.
  { intros [] ????; [by apply set_names | done]. }
  assert (NoDup ([] : SearchParams).*1) as H0 by constructor.
  apply (Hif (present (locale params)) "locale" (default "" (locale params))) in H0.
  apply (Hif (populateGiven (populate params)) "populate" "*") in H0.
  apply (Hif (present (sort params)) "sort" (default "" (sort params))) in H0.
  set (sp3 := if present (sort params) then _ else _) in *. clearbody sp3.
  assert (NoDup (match pagination params with
                 | Some pagination =>
                     set "pagination[pageSize]" (pretty (pageSize pagination))
                       (set "pagination[page]" (pretty (page pagination)) sp3)
                 | None => sp3
                 end).*1) as H4.
  { destruct (pagination params); [|done]. by apply set_names, set_names. }
  set (sp4 := match pagination params with Some _ => _ | None => _ end) in *.
  clearbody sp4. clear H0 Hif.
  destruct (filters params) as [entries|]; [|done].
  revert sp4 H4. induction entries as [|entry entries IH]; intros sp Hsp; [done|].
  simpl. apply IH. by apply setFilter_NoDup.
Qed.

Lemma join_nonempty sep part parts : part ≠ "" → Seo.join sep (part :: parts) ≠ "".
Proof.
  intros Hpart. destruct parts as [|next parts]; [done|].
  change (Seo.join sep (part :: next :: parts))
    with (part +:+ sep +:+ Seo.join sep (next :: parts)).
  by destruct part.
Qed.

Lemma toString_empty searchParams : toString searchParams = "" ↔ searchParams = [].
Proof.
  split; [|by intros ->].
  destruct searchParams as [|[n v] rest]; [done|]. unfold toString. cbn [List.map].
  intros Hempty. exfalso. revert Hempty. apply join_nonempty. cbn [fst snd].
  destruct (formEncode n); done.
Qed.

Lemma occurs_replaceAll c by_ s :
  occurs c by_ = false → occurs c (replaceAll c by_ s) = false.
Proof.
  intros Hby. induction s as [|a s IH]; [done|]. cbn [replaceAll].
  destruct (Ascii.eqb a c) eqn:Ha.
  - by rewrite TextFacts.occurs_app, Hby, IH.
  - cbn [occurs]. by rewrite Ha, IH.
Qed.

Lemma replaceAll_empty c by_ s : replaceAll c by_ s = "" → by_ = "" ∨ s = "".
Proof.
  destruct s as [|a s]; [by right|]. cbn [replaceAll].
  destruct (Ascii.eqb a c); [|done]. destruct by_; [by left|done].
Qed.

(** X26.  The query string of a request to Strapi: no parameter name
    appears twice; without parameters the string is empty, otherwise it
    is a question mark followed by a non-empty query; and it holds no
    plus sign, whatever the serializer writes. *)
Theorem query_string_shape params :
  NoDup (queryPairs params).*1
  ∧ (queryPairs params = [] → buildQueryString params = "")
  ∧ (queryPairs params ≠ [] →
     ∃ query, buildQueryString params = "?" +:+ query ∧ query ≠ "")
  ∧ occurs "+" (buildQueryString params) = false
  ∧ buildQueryString noParams = "".
Proof.
  split_and!.
  - apply queryPairs_NoDup.
  - intros Hnone. unfold buildQueryString. by rewrite Hnone.
  - intros Hsome. unfold buildQueryString.
    destruct (String.eqb_spec (toString (queryPairs params)) "") as [Hempty|Hne].
    { by apply toString_empty in Hempty. }
    cbn [negb]. eexists. split; [done|].
    intros [?|?]%replaceAll_empty; done.
  - unfold buildQueryString. destruct (negb _); [|done].
    change ("?" +:+ ?q) with (String "?" q). cbn [occurs].
    by rewrite occurs_replaceAll.
  - reflexivity.
Qed.

Lemma fetchStrapi_failed env network endpoint params :
  failed (network (strapiGet env endpoint params)) →
  fetchStrapi env network endpoint params = JNull.
Proof.
  unfold fetchStrapi. intros [-> | (response & -> & [Hok | Hjson])]; [done| |].
  - rewrite Hok. simpl. by destruct (responseStatus response =? 404).
  - rewrite Hjson. destruct (responseOk response); simpl; [done|].
    by destruct (responseStatus response =? 404).
Qed.

(** X27.  When the requests to Strapi fail, by a rejected [fetch], a
    status that is not a success (404 or any other) or a body that is
    not JSON, no getter throws: the getters of lists, [getPromoCodes]
    with any options among them, return the empty list, and the getters
    of one entry return [null]. *)
Theorem getters_survive_failure env network locale :
  (∀ request, failed (network request)) →
  (∀ options, getPromoCodes env network locale options = inr (JArr []))
  ∧ getBrands env network locale = JArr []
  ∧ getCategories env network locale = JArr []
  ∧ getFooterLinks env network locale = JArr []
  ∧ ∀ key,
      getPromoCodeBySlug env network key locale = JNull
      ∧ getBrandBySlug env network key locale = JNull
      ∧ getBrandByDocumentId env network key locale = JNull
      ∧ getCategoryBySlug env network key locale = JNull
      ∧ getCategoryByDocumentId env network key locale = JNull
      ∧ getFooterLinkBySlug env network key locale = JNull
      ∧ getFooterLinkByDocumentId env network key locale = JNull.
Proof.
  intros Hfailed.
  assert (∀ endpoint params, fetchStrapi env network endpoint params = JNull) as Hnull.
  { intros. by apply fetchStrapi_failed. }
  split_and!.
  - intros options. unfold getPromoCodes. rewrite !Hnull. cbn [dataOrEmpty optionalProp truthy].
    destruct (present (options ≫= categorySlug) || present (options ≫= brandSlug));
      [|done].
    destruct (present (options ≫= categorySlug)), (present (options ≫= brandSlug));
      cbn [andThen callFilter filterBySlug];
      destruct (options ≫= limit) as [limit|]; try done;
      destruct (negb (limit =? 0)); try done;
      unfold callSlice, slice0; by rewrite take_nil.
  - unfold getBrands. by rewrite Hnull.
  - unfold getCategories. by rewrite Hnull.
  - unfold getFooterLinks. by rewrite Hnull.
  - intros key.
    unfold getPromoCodeBySlug, getBrandBySlug, getBrandByDocumentId, getCategoryBySlug,
      getCategoryByDocumentId, getFooterLinkBySlug, getFooterLinkByDocumentId.
    by rewrite !Hnull.
Qed.

Lemma getProp_throws pc relation e :
  getProp pc relation = inl e → e = TypeError ∧ nullish pc.
Proof.
  destruct pc; simpl; intros [= <-]; (split; [done|]); first [by left | by right].
Qed.

Lemma filterBySlug_kept relation slug items kept :
  filterBySlug relation slug items = inr kept →
  sublist kept items ∧ ∀ pc, pc ∈ kept → hasSlug relation slug pc.
Proof.
  revert kept. induction items as [|pc items IH]; intros kept; cbn [filterBySlug].
  { intros [= <-]. split; [done|]. by intros pc ?%elem_of_nil. }
  destruct (getProp pc relation) as [e|related] eqn:Hrelated; [done|].
  destruct (filterBySlug relation slug items) as [e|kept']; [done|].
  destruct (IH kept' eq_refl) as [Hsub Hall].
  destruct (optionalProp related "slug") as [| | | |s| |] eqn:Hslug;
    try (intros [= <-]; split; [by apply sublist_cons | done]).
  destruct (String.eqb_spec s slug) as [->|_]; intros [= <-].
  - split; [by apply sublist_skip|]. intros pc' [->|?]%elem_of_cons; [|by apply Hall].
    by exists related.
  - split; [by apply sublist_cons | done].
Qed.

Lemma filterBySlug_throws relation slug items e :
  filterBySlug relation slug items = inl e →
  e = TypeError ∧ ∃ pc, pc ∈ items ∧ nullish pc.
Proof.
  induction items as [|pc items IH]; cbn [filterBySlug]; [done|].
  destruct (getProp pc relation) as [e'|related] eqn:Hrelated.
  { intros [= <-]. apply getProp_throws in Hrelated as [-> Hnull].
    split; [done|]. exists pc. split; [by left | done]. }
  destruct (filterBySlug relation slug items) as [e'|kept']; [|by destruct (match _ with JStr _ => _ | _ => _ end)].
  intros [= <-]. destruct (IH eq_refl) as (-> & pc' & Hin & Hnull).
  split; [done|]. exists pc'. split; [by right | done].
Qed.

Lemma slice0_bounds limit (items : list JsValue) :
  sublist (slice0 limit items) items
  ∧ (0 < limit → Z.of_nat (length (slice0 limit items)) ≤ limit).
Proof.
  unfold slice0. split; [apply sublist_take|].
  intros Hpos. rewrite length_take. destruct (Z.ltb_spec limit 0); lia.
Qed.

(** The branch of [getPromoCodes] that filters in code. *)
Lemma getPromoCodes_by_slug env network locale options :
  present (categorySlug options) || present (brandSlug options) = true →
  getPromoCodes env network locale (Some options)
  = let reply :=
      dataOrEmpty (fetchStrapi env network "promo-codes"
                     (listParams locale "createdAt:desc")) in
    andThen
      (if present (categorySlug options)
       then callFilter "category" (default "" (categorySlug options)) reply
       else inr reply)
      (λ filtered,
         andThen
           (if present (brandSlug options)
            then callFilter "brand" (default "" (brandSlug options)) filtered
            else inr filtered)
           (λ filtered,
              match limit options with
              | Some limit =>
                  if negb (limit =? 0) then callSlice limit filtered else inr filtered
              | None => inr filtered
              end)).
Proof.
  intros Hslug. unfold getPromoCodes. cbn [mbind option_bind]. by rewrite Hslug.
Qed.

Lemma callFilter_kept relation slug filtered result :
  callFilter relation slug filtered = inr result →
  ∃ items kept, filtered = JArr items ∧ result = JArr kept
                ∧ sublist kept items ∧ ∀ pc, pc ∈ kept → hasSlug relation slug pc.
Proof.
  destruct filtered as [| | | | |items|]; try done. cbn [callFilter].
  destruct (filterBySlug relation slug items) as [|kept] eqn:Hkept; [done|].
  intros [= <-]. apply filterBySlug_kept in Hkept as [? ?]. by exists items, kept.
Qed.

Lemma callFilter_throws relation slug filtered e :
  callFilter relation slug filtered = inl e →
  e = TypeError
  ∧ ((∀ items, filtered ≠ JArr items)
     ∨ ∃ items pc, filtered = JArr items ∧ pc ∈ items ∧ nullish pc).
Proof.
  destruct filtered as [| | | | |items|]; cbn [callFilter];
    try (intros [= <-]; split; [done|]; by left).
  destruct (filterBySlug relation slug items) as [e'|kept] eqn:Hkept; [|done].
  intros [= <-]. apply filterBySlug_throws in Hkept as (-> & pc & ? & ?).
  split; [done|]. right. by exists items, pc.
Qed.

(** X28.  When a category or a brand slug is asked for,
    [getPromoCodes] asks Strapi for all the promo codes of the locale
    and filters them itself: the [featured] and [active] options have no
    effect on the result; a result is a sublist of the reply, whose
    members all have the slugs asked for, and which is not longer than a
    positive [limit]. *)
Theorem slug_filter_is_done_in_code env network locale options :
  present (categorySlug options) || present (brandSlug options) = true →
  let reply :=
    dataOrEmpty (fetchStrapi env network "promo-codes"
                   (listParams locale "createdAt:desc")) in
  (∀ featured' active',
     getPromoCodes env network locale (Some options)
     = getPromoCodes env network locale
         (Some {| featured := featured'; active := active';
                  categorySlug := categorySlug options;
                  brandSlug := brandSlug options; limit := limit options |}))
  ∧ ∀ result,
      getPromoCodes env network locale (Some options) = inr result →
      ∃ items kept,
        reply = JArr items ∧ result = JArr kept ∧ sublist kept items
        ∧ (∀ pc, pc ∈ kept →
             (present (categorySlug options) = true →
              hasSlug "category" (default "" (categorySlug options)) pc)
             ∧ (present (brandSlug options) = true →
                hasSlug "brand" (default "" (brandSlug options)) pc))
        ∧ (∀ n, limit options = Some n → 0 < n → Z.of_nat (length kept) ≤ n).
Proof.
  intros Hslug reply. split.
  { intros featured' active'. by rewrite !getPromoCodes_by_slug. }
  intros result. rewrite getPromoCodes_by_slug by done. fold reply. cbv zeta.
  (* after the filters the value is an array, a sublist of the reply *)
  assert (∀ (step1 : JsError + JsValue) (step2 : JsValue → JsError + JsValue),
            andThen
              (if present (categorySlug options)
               then callFilter "category" (default "" (categorySlug options)) reply
               else inr reply)
              (λ filtered,
                 andThen
                   (if present (brandSlug options)
                    then callFilter "brand" (default "" (brandSlug options)) filtered
                    else inr filtered)
                   step2) = step1 →
            ∀ out, step1 = inr out →
            ∃ items kept,
              reply = JArr items ∧ sublist kept items
              ∧ (∀ pc, pc ∈ kept →
                   (present (categorySlug options) = true →
                    hasSlug "category" (default "" (categorySlug options)) pc)
                   ∧ (present (brandSlug options) = true →
                      hasSlug "brand" (default "" (brandSlug options)) pc))
              ∧ step2 (JArr kept) = inr out) as Hfiltered.
  { intros step1 step2 <- out.
    destruct (present (categorySlug options)) eqn:Hcat.
    - destruct (callFilter "category" _ reply) as [|filtered] eqn:Hfirst; [done|].
      apply callFilter_kept in Hfirst as (items & kept1 & -> & -> & Hsub1 & Hall1).
      cbn [andThen]. destruct (present (brandSlug options)) eqn:Hbrand.
      + destruct (callFilter "brand" _ (JArr kept1)) as [|filtered] eqn:Hsecond; [done|].
        apply callFilter_kept in Hsecond as (? & kept2 & [= <-] & -> & Hsub2 & Hall2).
        cbn [andThen]. intros Hout. exists items, kept2.
        split_and!; [done | by etrans | | done].
        intros pc Hpc. split; intros _; [|by apply Hall2].
        apply Hall1. by eapply elem_of_sublist.
      + cbn [andThen]. intros Hout. exists items, kept1. split_and!; try done.
        intros pc Hpc. split; [intros _; by apply Hall1 | done].
    - simpl in Hslug. rewrite Hslug. cbn [andThen].
      destruct (callFilter "brand" _ reply) as [|filtered] eqn:Hsecond; [done|].
      apply callFilter_kept in Hsecond as (items & kept2 & -> & -> & Hsub2 & Hall2).
      cbn [andThen]. intros Hout. exists items, kept2. split_and!; try done.
      intros pc Hpc. split; [done | intros _; by apply Hall2]. }
  intros Hresult.
  destruct (Hfiltered _ _ eq_refl result Hresult) as (items & kept & -> & Hsub & Hall & Hlast).
  destruct (limit options) as [n|] eqn:Hlimit.
  - destruct (Z.eqb_spec n 0) as [->|Hn]; cbn [negb] in Hlast.
    + injection Hlast as <-. exists items, kept. split_and!; try done.
      intros n [= <-]. lia.
    + cbn [callSlice] in Hlast. injection Hlast as <-.
      destruct (slice0_bounds n kept) as [Hsub' Hlen].
      exists items, (slice0 n kept). split_and!; [done | done | by etrans | |].
      * intros pc Hpc. apply Hall. by eapply elem_of_sublist.
      * by intros ? [= <-].
  - injection Hlast as <-. exists items, kept. by split_and!.
Qed.

(** X29.  [getPromoCodes] throws only when it filters by slug, only a
    TypeError, and only when the [data] of the reply is a truthy value
    that is not an array or an array that holds [null] or
    [undefined]. *)
Theorem getPromoCodes_throws_only_on_malformed_data env network locale options e :
  getPromoCodes env network locale options = inl e →
  let reply :=
    dataOrEmpty (fetchStrapi env network "promo-codes"
                   (listParams locale "createdAt:desc")) in
  e = TypeError
  ∧ present (options ≫= categorySlug) || present (options ≫= brandSlug) = true
  ∧ ((∀ items, reply ≠ JArr items)
     ∨ ∃ items pc, reply = JArr items ∧ pc ∈ items ∧ nullish pc).
Proof.
  intros Hthrown reply.
  destruct (present (options ≫= categorySlug) || present (options ≫= brandSlug))
    eqn:Hslug.
  2:{ unfold getPromoCodes in Hthrown. by rewrite Hslug in Hthrown. }
  destruct options as [options|]; [|done]. cbn [mbind option_bind] in Hslug.
  rewrite getPromoCodes_by_slug in Hthrown by done. fold reply in Hthrown.
  cbv zeta in Hthrown.
  assert (∀ filtered, match limit options with
                      | Some limit =>
                          if negb (limit =? 0) then callSlice limit (JArr filtered)
                          else inr (JArr filtered)
                      | None => inr (JArr filtered)
                      end ≠ inl e) as Hslice.
  { intros filtered. destruct (limit options) as [n|]; [|done]. by destruct (negb (n =? 0)). }
  destruct (present (categorySlug options)) eqn:Hcat.
  - destruct (callFilter "category" _ reply) as [e1|filtered] eqn:Hfirst.
    { cbn [andThen] in Hthrown. injection Hthrown as <-.
      apply callFilter_throws in Hfirst as [-> ?]. by split_and!. }
    apply callFilter_kept in Hfirst as (items & kept1 & Hreply & -> & Hsub1 & _).
    cbn [andThen] in Hthrown. destruct (present (brandSlug options)).
    + destruct (callFilter "brand" _ (JArr kept1)) as [e2|filtered] eqn:Hsecond.
      * cbn [andThen] in Hthrown. injection Hthrown as <-.
        apply callFilter_throws in Hsecond as [-> [Hnot | (? & pc & [= <-] & Hin & Hnull)]].
        { by destruct (Hnot kept1). }
        split_and!; [done..|]. right. exists items, pc. split_and!; [done| |done].
        by eapply elem_of_sublist.
      * apply callFilter_kept in Hsecond as (? & kept2 & _ & -> & _).
        cbn [andThen] in Hthrown. by destruct (Hslice kept2).
    + cbn [andThen] in Hthrown. by destruct (Hslice kept1).
  - simpl in Hslug. rewrite Hslug in Hthrown. cbn [andThen] in Hthrown.
    destruct (callFilter "brand" _ reply) as [e2|filtered] eqn:Hsecond.
    + cbn [andThen] in Hthrown. injection Hthrown as <-.
      apply callFilter_throws in Hsecond as [-> ?]. by split_and!.
    + apply callFilter_kept in Hsecond as (? & kept2 & _ & -> & _).
      cbn [andThen] in Hthrown. by destruct (Hslice kept2).
Qed.

End WithHost.

Import StrapiExamples.

Lemma getters_survive_failure_witness :
  let network : Network := λ _, GetRejects in
  (∀ options, getPromoCodes Examples.devEnv network "lv" options = inr (JArr []))
  ∧ getBrands Examples.devEnv network "lv" = JArr []
  ∧ getCategories Examples.devEnv network "lv" = JArr []
  ∧ getFooterLinks Examples.devEnv network "lv" = JArr []
  ∧ ∀ key,
      getPromoCodeBySlug Examples.devEnv network key "lv" = JNull
      ∧ getBrandBySlug Examples.devEnv network key "lv" = JNull
      ∧ getBrandByDocumentId Examples.devEnv network key "lv" = JNull
      ∧ getCategoryBySlug Examples.devEnv network key "lv" = JNull
      ∧ getCategoryByDocumentId Examples.devEnv network key "lv" = JNull
      ∧ getFooterLinkBySlug Examples.devEnv network key "lv" = JNull
      ∧ getFooterLinkByDocumentId Examples.devEnv network key "lv" = JNull.
Proof.
  intros network. apply (getters_survive_failure Examples.devEnv network "lv").
  intros request. by left.
Defined.

Lemma slug_filter_is_done_in_code_witness :
  let options := ofCategory "food" (Some 1) in
  let reply :=
    dataOrEmpty (fetchStrapi Examples.devEnv twoPromoCodes "promo-codes"
                   (listParams "lv" "createdAt:desc")) in
  (∀ featured' active',
     getPromoCodes Examples.devEnv twoPromoCodes "lv" (Some options)
     = getPromoCodes Examples.devEnv twoPromoCodes "lv"
         (Some {| featured := featured'; active := active';
                  categorySlug := categorySlug options;
                  brandSlug := brandSlug options; limit := limit options |}))
  ∧ ∀ result,
      getPromoCodes Examples.devEnv twoPromoCodes "lv" (Some options) = inr result →
      ∃ items kept,
        reply = JArr items ∧ result = JArr kept ∧ sublist kept items
        ∧ (∀ pc, pc ∈ kept →
             (present (categorySlug options) = true →
              hasSlug "category" (default "" (categorySlug options)) pc)
             ∧ (present (brandSlug options) = true →
                hasSlug "brand" (default "" (brandSlug options)) pc))
        ∧ (∀ n, limit options = Some n → 0 < n → Z.of_nat (length kept) ≤ n).
Proof.
  intros options.
  apply (slug_filter_is_done_in_code Examples.devEnv twoPromoCodes "lv" options).
  reflexivity.
Defined.

Lemma getPromoCodes_throws_only_on_malformed_data_witness :
  let options := Some (ofCategory "food" None) in
  let reply :=
    dataOrEmpty (fetchStrapi Examples.devEnv listWithNull "promo-codes"
                   (listParams "lv" "createdAt:desc")) in
  TypeError = TypeError
  ∧ present (options ≫= categorySlug) || present (options ≫= brandSlug) = true
  ∧ ((∀ items, reply ≠ JArr items)
     ∨ ∃ items pc, reply = JArr items ∧ pc ∈ items ∧ nullish pc).
Proof.
  intros options.
  apply (getPromoCodes_throws_only_on_malformed_data Examples.devEnv listWithNull "lv"
           options TypeError).
  reflexivity.
Defined.

End StrapiFacts.
